(** * Quamplex DSP Tools: fader, smoother, randomizer and math helpers

A shallow embedding of the C sources

- [qx_math.h]        (clamp, ring-buffer interpolation, wrap),
- [qx_fader.h]       (linear fade in / fade out),
- [qx_smoother.h]    (linear ramp to a target over N frames),
- [radomizer.c]      (randomizer, round-to-nearest variant),
- [qx_randomizer.h]  (randomizer, bucket-quantization variant),

together with the properties the specification states about them.

The C code computes on [float] (IEEE-754 binary32), [int], [uint32_t]
and [size_t].  Every function below is written once, over an
interface [FloatOps] of the float operations the sources use, and
is then read in two arithmetics:

- [binary32]: IEEE-754 single precision with round-to-nearest-even,
  signed zeros, infinities and NaN, taken from the standard
  library's executable specification [SpecFloat] at precision 24
  and maximal exponent 128.  This is what the compiled code does.
- [exact]: the rationals, with no rounding and no special values.
  This is the arithmetic the specification reasons in when it
  speaks of reaching a value "exactly" after a number of steps.

Integer conversions whose result C leaves undefined (a float that does
not fit [int], a signed overflow, an array read out of bounds) make the
embedded function return [None].

Modelling conventions:

- every float operation is rounded to binary32 on its own, as a C
  implementation with [FLT_EVAL_METHOD == 0] and no contraction of
  [a * b + c] does;
- the [while] loops of [qx_wrapf] take a fuel argument; a call that
  does not terminate is one that returns [None] for every fuel;
- structures are passed and returned by value, so the null-pointer
  guards of [radomizer.c] have no counterpart here;
- in [exact], division by zero yields 0 (the rationals' convention);
  the convergence statements read in [exact] have a nonzero divisor
  (a frame count of at least 1, a step greater than 0). *)

From Stdlib Require Import ZArith NArith QArith Qround Bool List Lia Lqa.
From Stdlib Require Import Floats.SpecFloat.
Import ListNotations.

Open Scope Z_scope.

(** ** Machine integers *)

Definition INT_MIN : Z := - 2 ^ 31.
Definition INT_MAX : Z := 2 ^ 31 - 1.
Definition UINT32_MAX : Z := 2 ^ 32 - 1.

Definition in_int (z : Z) : bool := (INT_MIN <=? z) && (z <=? INT_MAX).

(** Signed [int] arithmetic: an overflow is undefined behaviour. *)
Definition int_checked (z : Z) : option Z := if in_int z then Some z else None.
Definition int_add (a b : Z) : option Z := int_checked (a + b).
Definition int_sub (a b : Z) : option Z := int_checked (a - b).

(** [uint32_t] arithmetic wraps modulo [2^32]. *)
Definition wrap32 (z : Z) : Z := z mod 2 ^ 32.

(** A small error monad for the partial operations. *)
Definition bind {A B : Type} (o : option A) (k : A -> option B) : option B :=
  match o with
  | Some a => k a
  | None => None
  end.

Notation "x <- c ;; k" := (bind c (fun x => k))
  (at level 61, c at next level, right associativity).

(** ** The float operations used by the sources *)

Class FloatOps : Type := {
  float : Type;
  fadd : float -> float -> float;
  fsub : float -> float -> float;
  fmul : float -> float -> float;
  fdiv : float -> float -> float;
  fneg : float -> float;
  (** the comparisons [<], [<=] and [==] of C *)
  flt : float -> float -> bool;
  fle : float -> float -> bool;
  feq : float -> float -> bool;
  (** the conversion [(float) n] of an integer *)
  float_of_int : Z -> float;
  (** the conversion [(int) x]: truncation toward zero, undefined when the
      integral part does not fit [int] *)
  int_of_float : float -> option Z;
  (** the literal [0.5f] *)
  fhalf : float
}.

(** *** IEEE-754 binary32 *)

Module B32.

Definition prec : Z := 24.
Definition emax : Z := 128.

Definition of_int (z : Z) : spec_float := binary_normalize prec emax z 0 false.

(** Magnitude of the integral part of [m * 2^e]. *)
Definition trunc_mag (m : positive) (e : Z) : Z :=
  match e with
  | Zneg p => Z.shiftr (Zpos m) (Zpos p)
  | _ => Z.shiftl (Zpos m) e
  end.

Definition to_int (x : spec_float) : option Z :=
  match x with
  | S754_zero _ => Some 0
  | S754_finite s m e =>
      int_checked (if s then - trunc_mag m e else trunc_mag m e)
  | S754_infinity _ | S754_nan => None
  end.

Definition half : spec_float := S754_finite false 8388608 (-24).

(** The binary32 value nearest to [n / d], for integers [n] and [d] of at
    most 24 bits; used to write literals. *)
Definition ratio (n d : Z) : spec_float := SFdiv prec emax (of_int n) (of_int d).

Definition is_nan (x : spec_float) : bool :=
  match x with S754_nan => true | _ => false end.

Definition is_finite (x : spec_float) : bool :=
  match x with S754_zero _ | S754_finite _ _ _ => true | _ => false end.

(** [spec_float] is larger than binary32: a well-formed value has a
    canonical mantissa and an exponent in range. *)
Definition valid (x : spec_float) : Prop := valid_binary prec emax x = true.

(** The exact value of a well-formed float, in units of [2^-149] (the
    smallest subnormal); the infinities sit just beyond the largest
    finite value. *)
Definition scaled (x : spec_float) : Z :=
  match x with
  | S754_zero _ => 0
  | S754_finite s m e => cond_Zopp s (Zpos m * 2 ^ (e + 149))
  | S754_infinity s => cond_Zopp s (2 ^ 277)
  | S754_nan => 0
  end.

(** [r] is one of the two well-formed neighbours of the exact value [V]:
    no well-formed float lies strictly between [V] and [r]. *)
Definition brackets (V : Z) (r : spec_float) : Prop :=
  valid r /\ is_nan r = false /\
  forall b, valid b -> is_nan b = false ->
    (scaled b <= V -> scaled b <= scaled r) /\ (V <= scaled b -> scaled r <= scaled b).

(** Effect of shifting a mantissa right by [k] bits. *)
Definition shr_rel (k : Z) (a b : shr_record) : Prop :=
  0 <= shr_m b /\ shr_m b = shr_m a / 2 ^ k /\
  (shr_m a mod 2 ^ k = 0 -> shr_r a = false -> shr_s a = false ->
   shr_r b = false /\ shr_s b = false).

End B32.

Definition binary32 : FloatOps := {|
  float := spec_float;
  fadd := SFadd B32.prec B32.emax;
  fsub := SFsub B32.prec B32.emax;
  fmul := SFmul B32.prec B32.emax;
  fdiv := SFdiv B32.prec B32.emax;
  fneg := SFopp;
  flt := SFltb;
  fle := SFleb;
  feq := SFeqb;
  float_of_int := B32.of_int;
  int_of_float := B32.to_int;
  fhalf := B32.half
|}.

(** *** Exact rational arithmetic *)

Module Exact.

Definition ltb (x y : Q) : bool := negb (Qle_bool y x).

(** Truncation toward zero. *)
Definition to_int (x : Q) : option Z :=
  int_checked (Z.quot (Qnum x) (Zpos (Qden x))).

End Exact.

Definition exact : FloatOps := {|
  float := Q;
  fadd := Qplus;
  fsub := Qminus;
  fmul := Qmult;
  fdiv := Qdiv;
  fneg := Qopp;
  flt := Exact.ltb;
  fle := Qle_bool;
  feq := Qeq_bool;
  float_of_int := inject_Z;
  int_of_float := Exact.to_int;
  fhalf := (1 # 2)%Q
|}.

Notation "'float32'" := (@float binary32).
Notation "'rational'" := (@float exact).

(** ** The programs *)

Section Programs.

Context {FO : FloatOps}.

Definition f0 : float := float_of_int 0.
Definition f1 : float := float_of_int 1.

(** C's [a > b] and [a >= b]. *)
Definition fgt (a b : float) : bool := flt b a.
Definition fge (a b : float) : bool := fle b a.

(** *** qx_math.h *)

(** [QX_CLAMP(value, min, max)], as used by [qx_clamp_float]. *)
Definition qx_clamp_float (value min max : float) : float :=
  if flt value min then min else if fgt value max then max else value.

(** [buf[i]]: reading outside the buffer is undefined. *)
Definition buf_read (buf : list float) (i : Z) : option float :=
  if (0 <=? i) && (i <? Z.of_nat (length buf))
  then nth_error buf (Z.to_nat i)
  else None.

(** The two read positions of [qx_ring_interp_linear], after their
    single wrap. *)
Definition ring_positions (index : float) (size : Z) : option (Z * Z) :=
  i1 <- int_of_float index ;;
  i2 <- int_add i1 1 ;;
  i1' <- (if size <=? i1 then int_sub i1 size else Some i1) ;;
  i2' <- (if size <=? i2 then int_sub i2 size else Some i2) ;;
  Some (i1', i2').

Definition qx_ring_interp_linear (buf : list float) (index : float) (size : Z)
  : option float :=
  p <- ring_positions index size ;;
  let '(i1, i2) := p in
  let k := fsub index (float_of_int i1) in
  b1 <- buf_read buf i1 ;;
  b2 <- buf_read buf i2 ;;
  Some (fadd b1 (fmul k (fsub b2 b1))).

(** [while (x < 0.0f) x += max;]  One unit of fuel per evaluation of the
    loop condition; [None] when the fuel runs out before the loop exits. *)
Fixpoint wrap_up (fuel : nat) (x max : float) : option float :=
  match fuel with
  | O => None
  | S n => if flt x f0 then wrap_up n (fadd x max) max else Some x
  end.

(** [while (x >= max) x -= max;] *)
Fixpoint wrap_down (fuel : nat) (x max : float) : option float :=
  match fuel with
  | O => None
  | S n => if fge x max then wrap_down n (fsub x max) max else Some x
  end.

Definition qx_wrapf (fuel : nat) (x max : float) : option float :=
  x' <- wrap_up fuel x max ;;
  wrap_down fuel x' max.

(** *** qx_fader.h *)

Record qx_fader : Type := mk_fader {
  fade : float;
  fstep : float;
  enabled : bool
}.

Definition qx_fader_init (fadeTime sample_rate : float) : qx_fader :=
  {| fade := f0;
     enabled := false;
     fstep := if fle fadeTime f0 then f1
              else fdiv f1 (fmul (fdiv fadeTime (float_of_int 1000)) sample_rate) |}.

Definition qx_fader_enable (fader : qx_fader) (en : bool) : qx_fader :=
  {| fade := if en then f0 else f1;
     fstep := fstep fader;
     enabled := en |}.

(** Returns the updated fader and the faded sample. *)
Definition qx_fader_fade (fader : qx_fader) (val : float) : qx_fader * float :=
  let fade1 := fadd (fade fader)
                    (if enabled fader then fstep fader else fneg (fstep fader)) in
  let fade2 := qx_clamp_float fade1 f0 f1 in
  ({| fade := fade2; fstep := fstep fader; enabled := enabled fader |},
   fmul val fade2).

(** *** qx_smoother.h *)

Record qx_smoother : Type := mk_smoother {
  current : float;
  target : float;
  sstep : float;
  frames : N    (* size_t *)
}.

Definition qx_smoother_init (initial : float) (frames : N) : qx_smoother :=
  {| current := initial;
     target := initial;
     frames := if (0 <? frames)%N then frames else 1%N;
     sstep := f0 |}.

Definition qx_smoother_set_target (s : qx_smoother) (t : float) : qx_smoother :=
  {| current := current s;
     target := t;
     sstep := fdiv (fsub t (current s)) (float_of_int (Z.of_N (frames s)));
     frames := frames s |}.

(** Returns the updated smoother and the smoothed value. *)
Definition qx_smoother_next (s : qx_smoother) : qx_smoother * float :=
  if feq (current s) (target s) then (s, current s)
  else
    let c1 := fadd (current s) (sstep s) in
    let c2 := if (fgt (sstep s) f0 && fgt c1 (target s))
                 || (flt (sstep s) f0 && flt c1 (target s))
              then target s else c1 in
    ({| current := c2; target := target s; sstep := sstep s; frames := frames s |},
     c2).

Definition qx_smoother_get (s : qx_smoother) : float := current s.

End Programs.

(** *** radomizer.c: the round-to-nearest randomizer *)

Module RandomizerC.
Section Randomizer.

Context {FO : FloatOps}.

Definition LCG_A : Z := 1664525.
Definition LCG_C : Z := 1013904223.
Definition LCG_M : Z := 4294967295.    (* 0xFFFFFFFFu *)

Definition qx_randomizer_default_seed : Z := 305419896.    (* 0x12345678u *)

Record qx_randomizer : Type := mk_randomizer {
  min : float;
  max : float;
  resolution : float;
  seed : Z    (* uint32_t *)
}.

Definition qx_randomizer_next_seed (current_seed : Z) : Z :=
  Z.land (wrap32 (wrap32 (LCG_A * current_seed) + LCG_C)) LCG_M.

Definition qx_randomizer_init (mn mx res : float) : qx_randomizer :=
  {| min := mn;
     max := mx;
     resolution := if fle res f0 then f1 else res;
     seed := qx_randomizer_default_seed |}.

Definition qx_randomizer_set_seed (rand : qx_randomizer) (s : Z) : qx_randomizer :=
  {| min := min rand; max := max rand; resolution := resolution rand; seed := s |}.

(** Returns the updated randomizer and the drawn value; [None] when the
    conversion to [int] is undefined. *)
Definition qx_randomizer_get_float (rand : qx_randomizer)
  : option (qx_randomizer * float) :=
  let seed' := qx_randomizer_next_seed (seed rand) in
  let normalized := fdiv (float_of_int seed') (float_of_int UINT32_MAX) in
  let range := fsub (max rand) (min rand) in
  let value := fadd (min rand) (fmul normalized range) in
  let steps := fdiv (fsub value (min rand)) (resolution rand) in
  steps_int <- int_of_float (fadd steps fhalf) ;;
  let quantized_value :=
    fadd (min rand) (fmul (float_of_int steps_int) (resolution rand)) in
  let result :=
    if flt quantized_value (min rand) then min rand
    else if fgt quantized_value (max rand) then max rand
    else quantized_value in
  Some ({| min := min rand; max := max rand; resolution := resolution rand;
           seed := seed' |}, result).

End Randomizer.
End RandomizerC.

(** *** qx_randomizer.h: the bucket-quantization randomizer *)

Module RandomizerH.
Section Randomizer.

Context {FO : FloatOps}.

Record qx_randomizer : Type := mk_randomizer {
  seed : Z;    (* uint32_t *)
  min : float;
  max : float;
  resolution : float;
  range : float;
  inv_max_uint : float;
  max_steps : Z    (* int *)
}.

(** [(int)(range / resolution + 0.5f)] *)
Definition steps_of (range resolution : float) : option Z :=
  int_of_float (fadd (fdiv range resolution) fhalf).

Definition qx_randomizer_init (mn mx res : float) : option qx_randomizer :=
  let rg := fsub mx mn in
  ms <- steps_of rg res ;;
  Some {| seed := 856382025;
          min := mn;
          max := mx;
          resolution := res;
          range := rg;
          inv_max_uint := fdiv f1 (float_of_int UINT32_MAX);
          max_steps := ms |}.

Definition qx_randomizer_set_seed (rand : qx_randomizer) (s : Z) : qx_randomizer :=
  {| seed := s; min := min rand; max := max rand; resolution := resolution rand;
     range := range rand; inv_max_uint := inv_max_uint rand;
     max_steps := max_steps rand |}.

Definition qx_randomizer_set_range (rand : qx_randomizer) (mn mx : float)
  : option qx_randomizer :=
  let rg := fsub mx mn in
  ms <- steps_of rg (resolution rand) ;;
  Some {| seed := seed rand; min := mn; max := mx; resolution := resolution rand;
          range := rg; inv_max_uint := inv_max_uint rand; max_steps := ms |}.

Definition qx_randomizer_set_resolution (rand : qx_randomizer) (res : float)
  : option qx_randomizer :=
  ms <- steps_of (range rand) res ;;
  Some {| seed := seed rand; min := min rand; max := max rand; resolution := res;
          range := range rand; inv_max_uint := inv_max_uint rand; max_steps := ms |}.

Definition qx_randomizer_get_float (rand : qx_randomizer)
  : option (qx_randomizer * float) :=
  let seed' := wrap32 (wrap32 (seed rand * 1664525) + 1013904223) in
  let normalized := fmul (float_of_int seed') (inv_max_uint rand) in
  n <- int_add (max_steps rand) 1 ;;
  step <- int_of_float (fmul normalized (float_of_int n)) ;;
  let step' := if max_steps rand <? step then max_steps rand else step in
  Some ({| seed := seed'; min := min rand; max := max rand;
           resolution := resolution rand; range := range rand;
           inv_max_uint := inv_max_uint rand; max_steps := max_steps rand |},
        fadd (min rand) (fmul (float_of_int step') (resolution rand))).

End Randomizer.
End RandomizerH.

(** ** Sequences of calls *)

Section Runs.

Context {FO : FloatOps}.

(** The closed interval [0, 1], as C compares. *)
Definition unit_interval (x : float) : bool := fle f0 x && fle x f1.

(** *** Fader *)

Inductive fader_call : Type :=
| call_enable (en : bool)
| call_fade (val : float).

Definition fader_do (f : qx_fader) (c : fader_call) : qx_fader :=
  match c with
  | call_enable en => qx_fader_enable f en
  | call_fade val => fst (qx_fader_fade f val)
  end.

Definition fader_run (f : qx_fader) (cs : list fader_call) : qx_fader :=
  fold_left fader_do cs f.

(** [qx_fader_fade] once per sample of [vals]. *)
Definition fader_fades (f : qx_fader) (vals : list float) : qx_fader :=
  fold_left (fun g v => fst (qx_fader_fade g v)) vals f.

(** *** Smoother *)

Inductive smoother_call : Type :=
| call_set_target (t : float)
| call_next.

Definition smoother_do (s : qx_smoother) (c : smoother_call) : qx_smoother :=
  match c with
  | call_set_target t => qx_smoother_set_target s t
  | call_next => fst (qx_smoother_next s)
  end.

Definition smoother_run (s : qx_smoother) (cs : list smoother_call) : qx_smoother :=
  fold_left smoother_do cs s.

(** [n] calls of [qx_smoother_next]: the final state, and the values
    returned on the way. *)
Fixpoint smoother_nexts (n : nat) (s : qx_smoother) : qx_smoother :=
  match n with
  | O => s
  | S k => smoother_nexts k (fst (qx_smoother_next s))
  end.

Fixpoint smoother_outputs (n : nat) (s : qx_smoother) : list float :=
  match n with
  | O => []
  | S k => snd (qx_smoother_next s) :: smoother_outputs k (fst (qx_smoother_next s))
  end.


End Runs.

Module RandomizerCRuns.
Section Runs.

Context {FO : FloatOps}.
Import RandomizerC.

(** The values of [n] successive draws. *)
Fixpoint draws (n : nat) (rand : qx_randomizer) : option (list float) :=
  match n with
  | O => Some []
  | S k =>
      p <- qx_randomizer_get_float rand ;;
      vs <- draws k (fst p) ;;
      Some (snd p :: vs)
  end.

End Runs.
End RandomizerCRuns.

Module RandomizerHRuns.
Section Runs.

Context {FO : FloatOps}.
Import RandomizerH.

Inductive rand_call : Type :=
| call_set_seed (s : Z)
| call_set_range (mn mx : float)
| call_set_resolution (res : float)
| call_get_float.

Definition rand_do (rand : qx_randomizer) (c : rand_call) : option qx_randomizer :=
  match c with
  | call_set_seed s => Some (qx_randomizer_set_seed rand s)
  | call_set_range mn mx => qx_randomizer_set_range rand mn mx
  | call_set_resolution res => qx_randomizer_set_resolution rand res
  | call_get_float => p <- qx_randomizer_get_float rand ;; Some (fst p)
  end.

Fixpoint rand_run (rand : qx_randomizer) (cs : list rand_call) : option qx_randomizer :=
  match cs with
  | [] => Some rand
  | c :: cs' => r <- rand_do rand c ;; rand_run r cs'
  end.

(** The values of [n] successive draws. *)
Fixpoint draws (n : nat) (rand : qx_randomizer) : option (list float) :=
  match n with
  | O => Some []
  | S k =>
      p <- qx_randomizer_get_float rand ;;
      vs <- draws k (fst p) ;;
      Some (snd p :: vs)
  end.

(** The cached fields agree with the configuration. *)
Definition caches_ok (rand : qx_randomizer) : Prop :=
  range rand = fsub (max rand) (min rand) /\
  inv_max_uint rand = fdiv f1 (float_of_int UINT32_MAX) /\
  steps_of (range rand) (resolution rand) = Some (max_steps rand).

End Runs.
End RandomizerHRuns.

(** ** Concrete inputs *)


(** ** Invariants used in the proofs *)


(** Read the operations of [binary32] as the [SpecFloat] functions. *)
Ltac b32_ops :=
  cbn [fle flt feq fadd fsub fmul fdiv fneg float_of_int int_of_float fhalf binary32] in *.





(** ** Ring interpolation, as the specification words it *)

(** [floor(index)] of a binary32 value. *)
Definition floor32 (index : float32) : Z := B32.scaled index / 2 ^ 149.

(** "reduced by [size] once if [>= size]" *)
Definition reduce_once (size i : Z) : Z := if size <=? i then i - size else i.

(** An instance of the header randomizer as the API can produce it:
    [qx_randomizer_init] followed by any calls. *)
Definition configured {FO : FloatOps} (rand : RandomizerH.qx_randomizer) : Prop :=
  exists (mn mx res : float) (r0 : RandomizerH.qx_randomizer)
         (cs : list RandomizerHRuns.rand_call),
    RandomizerH.qx_randomizer_init mn mx res = Some r0 /\
    RandomizerHRuns.rand_run r0 cs = Some rand.

(** The instance of the specification's example in exact arithmetic:
    [init(0, 1, 0.1)], then [setSeed(42)]. *)
Definition seeded_randomizer : RandomizerH.qx_randomizer (FO := exact) :=
  RandomizerH.mk_randomizer (FO := exact) 42 0%Q 1%Q (1 # 10)%Q (1 - 0)%Q
    (1 / inject_Z UINT32_MAX)%Q 10.

(** The header randomizer on the range [0, 2.75] with resolution 1, seeded
    with 1327: the value of the first draw. *)
Definition overshooting_draw : option float32 :=
  r0 <- RandomizerH.qx_randomizer_init (FO := binary32)
          (B32.of_int 0) (B32.ratio 11 4) (B32.of_int 1) ;;
  p <- RandomizerH.qx_randomizer_get_float (RandomizerH.qx_randomizer_set_seed r0 1327) ;;
  Some (snd p).

(** The resolution stored by the header's [qx_randomizer_init]. *)
Definition header_init_resolution (mn mx res : float32) : option float32 :=
  r <- RandomizerH.qx_randomizer_init (FO := binary32) mn mx res ;;
  Some (RandomizerH.resolution r).

(** The [.c] randomizer of the specification's example: [init(0, 1, 0.1)]. *)
Definition unit_randomizer : RandomizerC.qx_randomizer (FO := binary32) :=
  RandomizerC.qx_randomizer_init (FO := binary32) (B32.of_int 0) (B32.of_int 1) (B32.ratio 1 10).

(** ** The rest of qx_math.h *)

(** *** IEEE-754 binary64, for [qx_clamp_double] *)

Module B64.

Definition prec : Z := 53.
Definition emax : Z := 1024.

Definition of_int (z : Z) : spec_float := binary_normalize prec emax z 0 false.

Definition half : spec_float := S754_finite false 4503599627370496 (-53).

End B64.

Definition binary64 : FloatOps := {|
  float := spec_float;
  fadd := SFadd B64.prec B64.emax;
  fsub := SFsub B64.prec B64.emax;
  fmul := SFmul B64.prec B64.emax;
  fdiv := SFdiv B64.prec B64.emax;
  fneg := SFopp;
  flt := SFltb;
  fle := SFleb;
  feq := SFeqb;
  float_of_int := B64.of_int;
  int_of_float := B32.to_int;
  fhalf := B64.half
|}.

Notation "'float64'" := (@float binary64).

Section MathPrograms.

Context {FO : FloatOps}.

Definition qx_normalize_float (value min max : float) : float :=
  fdiv (fsub value min) (fsub max min).

Definition qx_denormalize_float (normalized min max : float) : float :=
  fadd min (fmul normalized (fsub max min)).

(** [QX_CLAMP(value, min, max)] again, for [qx_clamp_double]. *)
Definition qx_clamp_double (value min max : float) : float :=
  if flt value min then min else if fgt value max then max else value.

End MathPrograms.

(** The sign bit of a float ([true] for negative); NaN has none. *)
Definition sign_of (x : spec_float) : bool :=
  match x with
  | S754_zero s | S754_infinity s | S754_finite s _ _ => s
  | S754_nan => false
  end.

(** The state of a binary32 smoother on its way from a value of at least
    [lo] up to [t] (in units of [2^-149]), with the step [d]. *)
Definition ramping_up (t d : float32) (lo : Z) (s : qx_smoother (FO := binary32)) : Prop :=
  target s = t /\ sstep s = d /\ B32.valid (current s) /\ B32.is_nan (current s) = false /\
  lo <= B32.scaled (current s) <= B32.scaled t.

(** The same on the way down to [t] from a value of at most [hi]. *)
Definition ramping_down (t d : float32) (hi : Z) (s : qx_smoother (FO := binary32)) : Prop :=
  target s = t /\ sstep s = d /\ B32.valid (current s) /\ B32.is_nan (current s) = false /\
  B32.scaled t <= B32.scaled (current s) <= hi.

(** The inverse of the generator step of the randomizers on [uint32_t]:
    [4276115653 * 1664525 = 1 (mod 2^32)]. *)
Definition lcg_prev (s : Z) : Z := (4276115653 * (s - 1013904223)) mod 2 ^ 32.

(** [r] is one of the two well-formed neighbours of the rational [N / W]
    (in units of [2^-149], with [W > 0]). *)
Definition brackets_q (W N : Z) (r : spec_float) : Prop :=
  B32.valid r /\ B32.is_nan r = false /\
  forall b, B32.valid b -> B32.is_nan b = false ->
    (B32.scaled b * W <= N -> B32.scaled b <= B32.scaled r) /\
    (N <= B32.scaled b * W -> B32.scaled r <= B32.scaled b).

(** The binary32 value [2^j], for [-126 <= j <= 127]. *)
Definition pow2 (j : Z) : float32 := S754_finite false 8388608 (j - 23).

(** Whether the mantissa of a float is even; zero and the infinities
    (which sit at [2^23 * 2^105]) count as even. *)
Definition mant_even (x : spec_float) : bool :=
  match x with
  | S754_finite _ m _ => Z.even (Zpos m)
  | S754_nan => false
  | _ => true
  end.

(** [r] is the well-formed float nearest to the rational [N / W] (in
    units of [2^-149], with [W > 0]), the one with the even mantissa when
    two are equally near: round to nearest, ties to even. *)
Definition nearest_q (W N : Z) (r : spec_float) : Prop :=
  B32.valid r /\ B32.is_nan r = false /\
  forall b, B32.valid b -> B32.is_nan b = false ->
    Z.abs (N - B32.scaled r * W) <= Z.abs (N - B32.scaled b * W) /\
    (Z.abs (N - B32.scaled r * W) = Z.abs (N - B32.scaled b * W) ->
     B32.scaled b <> B32.scaled r -> mant_even r = true).

(** * Properties *)

(** ** binary32: order and rounding *)

Module B32Facts.
Import B32.


Lemma digits2_size m : digits2_pos m = Pos.size m.
Proof. induction m; simpl; congruence. Qed.

Lemma digits2_bounds m :
  2 ^ (Zpos (digits2_pos m) - 1) <= Zpos m < 2 ^ Zpos (digits2_pos m).
Proof.
  rewrite digits2_size. split.
  - pose proof (Pos.size_le m) as H.
    assert (Hs : Zpos (Pos.size m) = Z.succ (Zpos (Pos.size m) - 1)) by lia.
    assert (2 ^ Zpos (Pos.size m) <= 2 * Zpos m).
    { change (2 * Zpos m) with (Zpos (m~0)). rewrite <- Pos2Z.inj_pow. apply Pos2Z.pos_le_pos. exact H. }
    rewrite Hs in H0. rewrite Z.pow_succ_r in H0 by lia. lia.
  - pose proof (Pos.size_gt m) as H. rewrite <- Pos2Z.inj_pow. apply Pos2Z.pos_lt_pos. exact H.
Qed.

Lemma iter_xO m d : Zpos (Pos.iter xO m d) = Zpos m * 2 ^ Zpos d.
Proof.
  rewrite <- Pos2Z.inj_pow, <- Pos2Z.inj_mul. f_equal.
  revert m. induction d using Pos.peano_ind; intro m.
  - simpl. lia.
  - rewrite Pos.iter_succ. rewrite Pos.pow_succ_r. rewrite IHd. lia.
Qed.
Lemma fexp_eq z : fexp prec emax z = Z.max (z - 24) (-149).
Proof. reflexivity. Qed.

Lemma canonical_facts m e :
  canonical_mantissa prec emax m e = true ->
  -149 <= e /\ Zpos m < 2 ^ 24 /\ (-149 < e -> 2 ^ 23 <= Zpos m).
Proof.
  unfold canonical_mantissa. rewrite fexp_eq. intro H. apply Z.eqb_eq in H.
  pose proof (digits2_bounds m) as [Hlo Hhi].
  set (d := Zpos (digits2_pos m)) in *.
  assert (Hd : 0 < d) by (unfold d; lia).
  split; [lia|]. split.
  - assert (d <= 24) by lia.
    eapply Z.lt_le_trans; [exact Hhi|]. apply Z.pow_le_mono_r; lia.
  - intro He. assert (d = 24) by lia.
    eapply Z.le_trans; [|exact Hlo]. apply Z.pow_le_mono_r; lia.
Qed.

Lemma finite_lt_exp m1 e1 m2 e2 :
  canonical_mantissa prec emax m1 e1 = true ->
  canonical_mantissa prec emax m2 e2 = true ->
  e1 < e2 ->
  Zpos m1 * 2 ^ (e1 + 149) < Zpos m2 * 2 ^ (e2 + 149).
Proof.
  intros H1 H2 Hlt.
  destruct (canonical_facts _ _ H1) as (A1 & B1 & _).
  destruct (canonical_facts _ _ H2) as (A2 & _ & C2).
  specialize (C2 ltac:(lia)).
  replace (e2 + 149) with ((e1 + 149) + (e2 - e1)) by lia.
  rewrite (Z.pow_add_r 2 (e1 + 149) (e2 - e1)) by lia.
  assert (0 < 2 ^ (e1 + 149)) by (apply Z.pow_pos_nonneg; lia).
  assert (2 ^ 1 <= 2 ^ (e2 - e1)) by (apply Z.pow_le_mono_r; lia).
  change (2 ^ 1) with 2 in *. change (2^24) with 16777216 in *. change (2^23) with 8388608 in *.
  set (P := 2 ^ (e1 + 149)) in *. set (Q := 2 ^ (e2 - e1)) in *.
  assert (Zpos m1 * P < 16777216 * P) by (apply Z.mul_lt_mono_pos_r; lia).
  assert (16777216 <= Zpos m2 * Q) by nia.
  assert (16777216 * P <= (Zpos m2 * Q) * P) by (apply Z.mul_le_mono_nonneg_r; lia).
  lia.
Qed.

Lemma finite_bound s m e :
  valid (S754_finite s m e) -> Zpos m * 2 ^ (e + 149) < 2 ^ 277.
Proof.
  unfold valid, valid_binary, bounded. intro H. apply andb_prop in H as [Hc He].
  destruct (canonical_facts _ _ Hc) as (A & B & _).
  apply Z.leb_le in He. change (emax - prec) with 104 in He.
  assert (2 ^ (e + 149) <= 2 ^ 253) by (apply Z.pow_le_mono_r; lia).
  assert (0 < 2 ^ (e + 149)) by (apply Z.pow_pos_nonneg; lia).
  change (2 ^ 277) with (2 ^ 24 * 2 ^ 253). nia.
Qed.

Lemma finite_pos m e : -149 <= e -> 0 < Zpos m * 2 ^ (e + 149).
Proof. intro. assert (0 < 2 ^ (e + 149)) by (apply Z.pow_pos_nonneg; lia). nia. Qed.

Lemma valid_canonical s m e :
  valid (S754_finite s m e) -> canonical_mantissa prec emax m e = true.
Proof. unfold valid, valid_binary, bounded. intro H. apply andb_prop in H. tauto. Qed.

Lemma compare_mag m1 e1 m2 e2 :
  canonical_mantissa prec emax m1 e1 = true ->
  canonical_mantissa prec emax m2 e2 = true ->
  match e1 ?= e2 with
  | Lt => Lt
  | Gt => Gt
  | Eq => Pos.compare_cont Eq m1 m2
  end = (Zpos m1 * 2 ^ (e1 + 149) ?= Zpos m2 * 2 ^ (e2 + 149)).
Proof.
  intros C1 C2. symmetry.
  destruct (canonical_facts _ _ C1) as (A1 & _ & _).
  destruct (Z.compare_spec e1 e2) as [E|E|E].
  - subst e2. rewrite Pos.compare_cont_spec. unfold Pos.switch_Eq.
    assert (0 < 2 ^ (e1 + 149)) by (apply Z.pow_pos_nonneg; lia).
    destruct (Pos.compare_spec m1 m2); cbv iota;
      [apply Z.compare_eq_iff; subst; reflexivity
      | apply Z.compare_lt_iff; apply Z.mul_lt_mono_pos_r; lia
      | apply Z.compare_gt_iff; apply Z.mul_lt_mono_pos_r; lia].
  - apply Z.compare_lt_iff. apply finite_lt_exp; assumption.
  - apply Z.compare_gt_iff. apply finite_lt_exp; assumption.
Qed.

Lemma compare_scaled x y :
  valid x -> valid y -> is_nan x = false -> is_nan y = false ->
  SFcompare x y = Some (scaled x ?= scaled y).
Proof.
  intros Vx Vy Nx Ny.
  assert (P277 : 0 < 2 ^ 277) by (apply Z.pow_pos_nonneg; lia).
  destruct x as [sx|sx| |sx mx ex], y as [sy|sy| |sy my ey]; try discriminate.
  all: try (pose proof (finite_bound _ _ _ Vx) as Bx;
            pose proof (valid_canonical _ _ _ Vx) as Cx;
            destruct (canonical_facts _ _ Cx) as (Ax & _ & _);
            pose proof (finite_pos mx ex Ax) as Px).
  all: try (pose proof (finite_bound _ _ _ Vy) as By;
            pose proof (valid_canonical _ _ _ Vy) as Cy;
            destruct (canonical_facts _ _ Cy) as (Ay & _ & _);
            pose proof (finite_pos my ey Ay) as Py).
  all: try (destruct sx); try (destruct sy); cbn [SFcompare scaled cond_Zopp].
  all: try (f_equal; symmetry;
    first [apply Z.compare_eq_iff; lia | apply Z.compare_lt_iff; lia
          | apply Z.compare_gt_iff; lia]).
  - (* both negative *)
    f_equal. rewrite Z.compare_opp.
    rewrite <- (compare_mag _ _ _ _ Cy Cx).
    rewrite (Z.compare_antisym ex ey).
    destruct (ex ?= ey); try reflexivity. cbn [CompOpp].
    rewrite !Pos.compare_cont_spec. unfold Pos.switch_Eq.
    rewrite (Pos.compare_antisym mx my). destruct (mx ?= my)%positive; reflexivity.
  - f_equal. apply compare_mag; assumption.
Qed.


Lemma digits2_unique (m : positive) (n : Z) :
  2 ^ (n - 1) <= Zpos m < 2 ^ n -> Zpos (digits2_pos m) = n.
Proof.
  intros [Hlo Hhi].
  pose proof (digits2_bounds m) as [Dlo Dhi].
  set (d := Zpos (digits2_pos m)) in *.
  assert (0 < d) by (unfold d; lia).
  destruct (Z.lt_trichotomy d n) as [L|[E|G]]; [|exact E|].
  - exfalso. assert (2 ^ d <= 2 ^ (n - 1)) by (apply Z.pow_le_mono_r; lia). lia.
  - exfalso. destruct (Z.ltb_spec n 0).
    + rewrite (Z.pow_neg_r 2 n) in Hhi by lia. lia.
    + assert (2 ^ n <= 2 ^ (d - 1)) by (apply Z.pow_le_mono_r; lia). lia.
Qed.

(** shr_1 and its iteration *)

Lemma shr_1_rel a : 0 <= shr_m a -> shr_rel 1 a (shr_1 a).
Proof.
  destruct a as [m r s]. simpl. intro Hm. unfold shr_rel. change (2 ^ 1) with 2.
  destruct m as [|p|p]; [| |lia].
  - cbn. split; [lia|]. split; [reflexivity|]. intros _ -> ->. auto.
  - destruct p as [p|p|]; simpl shr_m; simpl shr_r; simpl shr_s.
    + split; [lia|]. split.
      * change (Zpos p~1) with (2 * Zpos p + 1).
        apply Z.div_unique with (r := 1); lia.
      * intros H. exfalso. change (Zpos p~1) with (2 * Zpos p + 1) in H.
        rewrite Z.add_comm, Z.mul_comm, Z.mod_add in H by lia. discriminate.
    + split; [lia|]. split.
      * change (Zpos p~0) with (2 * Zpos p).
        apply Z.div_unique with (r := 0); lia.
      * intros _ -> ->. auto.
    + split; [lia|]. split; [reflexivity|]. intro H. discriminate.
Qed.

Lemma shr_rel_trans j k a b c :
  0 <= j -> 0 <= k -> 0 <= shr_m a ->
  shr_rel j a b -> shr_rel k b c -> shr_rel (j + k) a c.
Proof.
  intros Hj Hk Ha (B0 & B1 & B2) (C0 & C1 & C2).
  assert (Pj : 0 < 2 ^ j) by (apply Z.pow_pos_nonneg; lia).
  assert (Pk : 0 < 2 ^ k) by (apply Z.pow_pos_nonneg; lia).
  split; [assumption|]. split.
  - rewrite C1, B1, Z.pow_add_r by lia. apply Z.div_div; lia.
  - intros Hmod Hr Hs.
    rewrite Z.pow_add_r in Hmod by lia.
    assert (Ej : shr_m a mod 2 ^ j = 0).
    { apply Z.mod_divide; [lia|]. apply Z.mod_divide in Hmod; [|lia].
      destruct Hmod as [q Hq]. exists (q * 2 ^ k). lia. }
    destruct (B2 Ej Hr Hs) as [Rb Sb].
    apply C2; try assumption.
    rewrite B1. apply Z.mod_divide in Hmod; [|lia]. destruct Hmod as [q Hq].
    rewrite Hq. replace (q * (2 ^ j * 2 ^ k)) with ((q * 2 ^ k) * 2 ^ j) by lia.
    rewrite Z.div_mul by lia. apply Z.mod_mul; lia.
Qed.

Lemma iter_shr_rel p : forall a, 0 <= shr_m a -> shr_rel (Zpos p) a (iter_pos shr_1 p a).
Proof.
  induction p as [p IH|p IH|]; intros a Ha; simpl iter_pos.
  - pose proof (shr_1_rel a Ha) as R1.
    pose proof (IH _ (proj1 R1)) as R2.
    pose proof (IH _ (proj1 R2)) as R3.
    replace (Zpos p~1) with ((1 + Zpos p) + Zpos p) by lia.
    eapply shr_rel_trans; [lia|lia|assumption| |exact R3].
    eapply shr_rel_trans; [lia|lia|assumption|exact R1|exact R2].
  - pose proof (IH _ Ha) as R1.
    pose proof (IH _ (proj1 R1)) as R2.
    replace (Zpos p~0) with (Zpos p + Zpos p) by lia.
    eapply shr_rel_trans; [lia|lia|assumption|exact R1|exact R2].
  - apply shr_1_rel. assumption.
Qed.


Lemma shr_fexp_spec (m : positive) (e : Z) :
  let k := Z.max 0 (fexp prec emax (Zpos (digits2_pos m) + e) - e) in
  let mrs := fst (shr_fexp prec emax (Zpos m) e loc_Exact) in
  snd (shr_fexp prec emax (Zpos m) e loc_Exact) = e + k /\
  shr_m mrs = Zpos m / 2 ^ k /\
  (Zpos m mod 2 ^ k = 0 -> loc_of_shr_record mrs = loc_Exact).
Proof.
  unfold shr_fexp. cbn [Zdigits2 shr_record_of_loc].
  set (n := fexp prec emax (Zpos (digits2_pos m) + e) - e).
  unfold shr. destruct n as [|p|p] eqn:En; cbn [fst snd].
  - cbn. rewrite Z.div_1_r. repeat split; auto. lia.
  - replace (Z.max 0 (Zpos p)) with (Zpos p) by lia.
    pose proof (iter_shr_rel p {| shr_m := Zpos m; shr_r := false; shr_s := false |}
                  ltac:(simpl; lia)) as (H0 & H1 & H2).
    cbn [shr_m shr_r shr_s] in *.
    split; [reflexivity|]. split; [exact H1|].
    intro Hmod. destruct (H2 Hmod eq_refl eq_refl) as [Hr Hs].
    destruct (iter_pos shr_1 p _) as [m' r' s']. cbn in *. subst. reflexivity.
  - cbn. rewrite Z.div_1_r. repeat split; auto. lia.
Qed.

Lemma round_nearest_even_cases m l :
  round_nearest_even m l = m \/ (round_nearest_even m l = m + 1 /\ l <> loc_Exact).
Proof.
  unfold round_nearest_even. destruct l as [|[| |]]; auto.
  - destruct (Z.even m); [auto | right; split; [reflexivity | discriminate]].
  - right; split; [reflexivity | discriminate].
Qed.

Lemma div_pow2_bounds m d k :
  0 <= k < d -> 2 ^ (d - 1) <= m < 2 ^ d ->
  2 ^ (d - k - 1) <= m / 2 ^ k < 2 ^ (d - k).
Proof.
  intros Hk [Hlo Hhi].
  assert (Pk : 0 < 2 ^ k) by (apply Z.pow_pos_nonneg; lia).
  split.
  - apply Z.div_le_lower_bound; [lia|].
    rewrite <- Z.pow_add_r by lia. replace (k + (d - k - 1)) with (d - 1) by lia. exact Hlo.
  - apply Z.div_lt_upper_bound; [lia|].
    rewrite <- Z.pow_add_r by lia. replace (k + (d - k)) with d by lia. exact Hhi.
Qed.

Lemma canonical_intro (m : positive) (e d : Z) :
  2 ^ (d - 1) <= Zpos m < 2 ^ d -> Z.max (d + e - 24) (-149) = e ->
  canonical_mantissa prec emax m e = true.
Proof.
  intros Hd He. unfold canonical_mantissa. rewrite fexp_eq.
  rewrite (digits2_unique m d Hd). apply Z.eqb_eq. exact He.
Qed.

(** Renormalisation after rounding: the mantissa has [d'] digits or is [2^d']. *)
Lemma renorm (m1 : positive) (e' d' : Z) :
  -149 <= e' -> 1 <= d' <= 24 -> (d' = 24 \/ e' = -149) ->
  2 ^ (d' - 1) <= Zpos m1 <= 2 ^ d' ->
  exists m'' : positive,
    shr_m (fst (shr_fexp prec emax (Zpos m1) e' loc_Exact)) = Zpos m'' /\
    canonical_mantissa prec emax m'' (snd (shr_fexp prec emax (Zpos m1) e' loc_Exact)) = true /\
    -149 <= snd (shr_fexp prec emax (Zpos m1) e' loc_Exact) /\
    Zpos m'' * 2 ^ (snd (shr_fexp prec emax (Zpos m1) e' loc_Exact) + 149)
      = Zpos m1 * 2 ^ (e' + 149).
Proof.
  intros He Hd Hcase [Hlo Hhi].
  destruct (shr_fexp_spec m1 e') as (E & M & _).
  set (mrs := fst (shr_fexp prec emax (Zpos m1) e' loc_Exact)) in *.
  set (e'' := snd (shr_fexp prec emax (Zpos m1) e' loc_Exact)) in *.
  rewrite fexp_eq in E, M.
  assert (Hhi' : Zpos m1 < 2 ^ d' \/ Zpos m1 = 2 ^ d') by lia.
  destruct Hhi' as [Hlt|Heq].
  - (* same number of digits *)
    rewrite (digits2_unique m1 d' (conj Hlo Hlt)) in E, M.
    replace (Z.max 0 (Z.max (d' + e' - 24) (-149) - e')) with 0 in E, M by lia.
    exists m1. rewrite M, E. change (2 ^ 0) with 1. rewrite Z.div_1_r, Z.add_0_r.
    repeat split; try lia.
    apply canonical_intro with (d := d'); [lia | lia].
  - (* the mantissa overflowed to [2^d'] *)
    assert (D1 : Zpos (digits2_pos m1) = d' + 1).
    { apply digits2_unique. rewrite Heq. replace (d' + 1 - 1) with d' by lia.
      split; [lia|]. apply Z.pow_lt_mono_r; lia. }
    rewrite D1 in E, M.
    destruct (Z.eq_dec d' 24) as [D24|D24].
    + subst d'.
      replace (Z.max 0 (Z.max (24 + 1 + e' - 24) (-149) - e')) with 1 in E, M by lia.
      change (2 ^ 1) with 2 in M. rewrite Heq in M. change (2 ^ 24 / 2) with (2 ^ 23) in M.
      exists 8388608%positive. rewrite M, E.
      split; [reflexivity|]. split.
      * apply canonical_intro with (d := 24); [change (2^(24-1)) with 8388608; change (2^24) with 16777216; lia | lia].
      * split; [lia|]. rewrite Heq. replace (e' + 1 + 149) with (1 + (e' + 149)) by lia.
        rewrite Z.pow_add_r by lia. change (Zpos 8388608) with (2 ^ 23). change (2 ^ 24) with (2 ^ 23 * 2 ^ 1). lia.
    + assert (e' = -149) by lia. subst e'.
      replace (Z.max 0 (Z.max (d' + 1 + -149 - 24) (-149) - -149)) with 0 in E, M by lia.
      exists m1. rewrite M, E. change (2 ^ 0) with 1. rewrite Z.div_1_r, Z.add_0_r.
      repeat split; try lia.
      apply canonical_intro with (d := d' + 1); [|lia].
      replace (d' + 1 - 1) with d' by lia. rewrite Heq. split; [lia|].
      apply Z.pow_lt_mono_r; lia.
Qed.

Lemma round_aux_shape (sx : bool) (mz : positive) (ez : Z) :
  -149 <= ez -> ez <= fexp prec emax (Zpos (digits2_pos mz) + ez) ->
  exists (m' : positive) (e' : Z) (m1 m'' : positive) (e'' : Z),
    canonical_mantissa prec emax m' e' = true /\
    Zpos m' * 2 ^ (e' + 149) <= Zpos mz * 2 ^ (ez + 149) < (Zpos m' + 1) * 2 ^ (e' + 149) /\
    (m1 = m' \/
     (Zpos m1 = Zpos m' + 1 /\ Zpos m' * 2 ^ (e' + 149) <> Zpos mz * 2 ^ (ez + 149))) /\
    canonical_mantissa prec emax m'' e'' = true /\
    Zpos m'' * 2 ^ (e'' + 149) = Zpos m1 * 2 ^ (e' + 149) /\
    binary_round_aux prec emax sx (Zpos mz) ez loc_Exact =
      if e'' <=? 104 then S754_finite sx m'' e'' else S754_infinity sx.
Proof.
  intros Hez Hfexp.
  pose proof (digits2_bounds mz) as Dz.
  set (d := Zpos (digits2_pos mz)) in *.
  assert (Hd : 0 < d) by (unfold d; lia).
  rewrite fexp_eq in Hfexp.
  destruct (shr_fexp_spec mz ez) as (E & M & X).
  fold d in E, M, X. rewrite fexp_eq in E, M, X.
  set (k := Z.max 0 (Z.max (d + ez - 24) (-149) - ez)) in *.
  assert (Hk : 0 <= k < d) by lia.
  assert (Pk : 0 < 2 ^ k) by (apply Z.pow_pos_nonneg; lia).
  pose proof (div_pow2_bounds (Zpos mz) d k Hk Dz) as Dm'.
  unfold binary_round_aux.
  destruct (shr_fexp prec emax (Zpos mz) ez loc_Exact) as [mrs' e'] eqn:S1.
  cbn [fst snd] in E, M, X.
  set (d' := d - k) in *.
  assert (Pd' : 0 < 2 ^ (d' - 1)) by (apply Z.pow_pos_nonneg; lia).
  replace (d - k - 1) with (d' - 1) in Dm' by lia.
  destruct (shr_m mrs') as [|m'|m'] eqn:Em'; [lia| |lia].
  (* the grid *)
  assert (G : 2 ^ (e' + 149) = 2 ^ (ez + 149) * 2 ^ k).
  { rewrite E, <- Z.pow_add_r by lia. f_equal. lia. }
  assert (PG : 0 < 2 ^ (ez + 149)) by (apply Z.pow_pos_nonneg; lia).
  assert (Hdiv : Zpos mz = 2 ^ k * Zpos m' + Zpos mz mod 2 ^ k)
    by (rewrite M; apply Z.div_mod; lia).
  pose proof (Z.mod_pos_bound (Zpos mz) (2 ^ k) Pk) as Hmod.
  (* rounding *)
  destruct (round_nearest_even_cases (Zpos m') (loc_of_shr_record mrs')) as [R|[R NX]].
  - rewrite R.
    destruct (renorm m' e' d') as (m'' & S2 & C2 & E2 & V2); try lia.
    destruct (shr_fexp prec emax (Zpos m') e' loc_Exact) as [mrs'' e''] eqn:S2'.
    cbn [fst snd] in S2, C2, E2, V2. rewrite S2.
    exists m', e', m', m'', e''.
    split; [apply canonical_intro with (d := d'); lia|].
    split; [rewrite G; nia|].
    split; [left; reflexivity|].
    split; [exact C2|]. split; [exact V2|]. reflexivity.
  - rewrite R.
    assert (NZ : Zpos mz mod 2 ^ k <> 0) by (intro Z0; apply NX, X, Z0).
    replace (Zpos m' + 1) with (Zpos (m' + 1)) by lia.
    destruct (renorm (m' + 1) e' d') as (m'' & S2 & C2 & E2 & V2); try lia.
    destruct (shr_fexp prec emax (Zpos (m' + 1)) e' loc_Exact) as [mrs'' e''] eqn:S2'.
    cbn [fst snd] in S2, C2, E2, V2. rewrite S2.
    exists m', e', (m' + 1)%positive, m'', e''.
    split; [apply canonical_intro with (d := d'); lia|].
    split; [rewrite G; nia|].
    split; [right; split; [lia | rewrite G; nia]|].
    split; [exact C2|]. split; [exact V2|]. reflexivity.
Qed.

(** No canonical value lies strictly between two neighbours of a grid. *)
Lemma grid_gap mb eb m' e' :
  canonical_mantissa prec emax mb eb = true ->
  canonical_mantissa prec emax m' e' = true ->
  (Zpos mb * 2 ^ (eb + 149) < (Zpos m' + 1) * 2 ^ (e' + 149) ->
   Zpos mb * 2 ^ (eb + 149) <= Zpos m' * 2 ^ (e' + 149)) /\
  (Zpos m' * 2 ^ (e' + 149) < Zpos mb * 2 ^ (eb + 149) ->
   (Zpos m' + 1) * 2 ^ (e' + 149) <= Zpos mb * 2 ^ (eb + 149)).
Proof.
  intros Cb C'.
  destruct (canonical_facts _ _ Cb) as (Ab & Bb & Nb).
  destruct (canonical_facts _ _ C') as (A' & B' & N').
  assert (PG : 0 < 2 ^ (e' + 149)) by (apply Z.pow_pos_nonneg; lia).
  destruct (Z.lt_trichotomy eb e') as [L|[E|G]].
  - pose proof (finite_lt_exp _ _ _ _ Cb C' L). lia.
  - subst eb. split; intro H.
    + apply Z.mul_lt_mono_pos_r in H; [|lia].
      apply Z.mul_le_mono_nonneg_r; lia.
    + apply Z.mul_lt_mono_pos_r in H; [|lia].
      apply Z.mul_le_mono_nonneg_r; lia.
  - pose proof (finite_lt_exp _ _ _ _ C' Cb G) as Hlt.
    assert (Hstep : (Zpos m' + 1) * 2 ^ (e' + 149) <= Zpos mb * 2 ^ (eb + 149)).
    { specialize (Nb ltac:(lia)).
      replace (eb + 149) with ((e' + 149) + (eb - e')) by lia.
      rewrite (Z.pow_add_r 2 (e' + 149) (eb - e')) by lia.
      assert (2 ^ 1 <= 2 ^ (eb - e')) by (apply Z.pow_le_mono_r; lia).
      change (2 ^ 1) with 2 in *. change (2 ^ 24) with 16777216 in *.
      change (2 ^ 23) with 8388608 in *.
      set (P := 2 ^ (e' + 149)) in *. set (Q := 2 ^ (eb - e')) in *.
      assert ((Zpos m' + 1) * P <= 16777216 * P) by (apply Z.mul_le_mono_nonneg_r; lia).
      assert (16777216 <= Zpos mb * Q) by nia.
      assert (16777216 * P <= (Zpos mb * Q) * P) by (apply Z.mul_le_mono_nonneg_r; lia).
      lia. }
    split; intro; lia.
Qed.

Lemma canonical_inf : canonical_mantissa prec emax 8388608 105 = true.
Proof. reflexivity. Qed.

Lemma round_aux_brackets_pos (mz : positive) (ez : Z) :
  -149 <= ez -> ez <= fexp prec emax (Zpos (digits2_pos mz) + ez) ->
  brackets (Zpos mz * 2 ^ (ez + 149))
           (binary_round_aux prec emax false (Zpos mz) ez loc_Exact).
Proof.
  intros Hez Hfexp.
  destruct (round_aux_shape false mz ez Hez Hfexp)
    as (m' & e' & m1 & m'' & e'' & C' & [Nlo Nhi] & Hm1 & C'' & V'' & ->).
  set (N := Zpos mz * 2 ^ (ez + 149)) in *.
  destruct (canonical_facts _ _ C') as (A' & B' & N').
  destruct (canonical_facts _ _ C'') as (A'' & B'' & N'').
  assert (PG : 0 < 2 ^ (e' + 149)) by (apply Z.pow_pos_nonneg; lia).
  assert (PN : 0 < N) by (apply finite_pos; lia).
  assert (P277 : 0 < 2 ^ 277) by (apply Z.pow_pos_nonneg; lia).
  (* the rounded magnitude lies on the two neighbours of [N] *)
  assert (Hlo1 : Zpos m' * 2 ^ (e' + 149) <= Zpos m1 * 2 ^ (e' + 149)).
  { destruct Hm1 as [->|[-> _]]; nia. }
  assert (Hup : forall mb eb, canonical_mantissa prec emax mb eb = true ->
                 N <= Zpos mb * 2 ^ (eb + 149) ->
                 Zpos m1 * 2 ^ (e' + 149) <= Zpos mb * 2 ^ (eb + 149)).
  { intros mb eb Cb HB. destruct (grid_gap mb eb m' e' Cb C') as [_ Hgap].
    destruct Hm1 as [->|[-> Hne]]; [lia|]. apply Hgap. lia. }
  assert (Hdn : forall mb eb, canonical_mantissa prec emax mb eb = true ->
                 Zpos mb * 2 ^ (eb + 149) <= N ->
                 Zpos mb * 2 ^ (eb + 149) <= Zpos m1 * 2 ^ (e' + 149)).
  { intros mb eb Cb HB. destruct (grid_gap mb eb m' e' Cb C') as [Hgap _]. lia. }
  destruct (Z.leb_spec e'' 104) as [Hfin|Hinf].
  - (* finite result *)
    assert (Vr : valid (S754_finite false m'' e'')).
    { unfold valid, valid_binary, bounded. rewrite C''. apply Z.leb_le. exact Hfin. }
    pose proof (finite_bound _ _ _ Vr) as Br.
    split; [exact Vr|]. split; [reflexivity|].
    intros b Vb Nb. cbn [scaled cond_Zopp]. rewrite V''.
    destruct b as [sb|sb| |sb mb eb]; try discriminate; cbn [scaled cond_Zopp].
    + split; intro; lia.
    + destruct sb; cbn [cond_Zopp]; split; intro H; try lia.
      pose proof (Hdn _ _ canonical_inf) as Hd. change (Zpos 8388608 * 2 ^ (105 + 149)) with (2 ^ 277) in Hd.
      specialize (Hd H). lia.
    + pose proof (valid_canonical _ _ _ Vb) as Cb.
      destruct (canonical_facts _ _ Cb) as (Ab & _ & _).
      pose proof (finite_pos mb eb Ab) as Pb.
      destruct sb; cbn [cond_Zopp]; split; intro H; try lia.
      * apply Hdn; assumption.
      * apply Hup; assumption.
  - (* overflow *)
    assert (Big : 2 ^ 277 <= Zpos m1 * 2 ^ (e' + 149)).
    { rewrite <- V''. specialize (N'' ltac:(lia)).
      assert (2 ^ 254 <= 2 ^ (e'' + 149)) by (apply Z.pow_le_mono_r; lia).
      change (2 ^ 277) with (2 ^ 23 * 2 ^ 254).
      assert (0 < 2 ^ 254) by (apply Z.pow_pos_nonneg; lia).
      assert (0 < 2 ^ 23) by (apply Z.pow_pos_nonneg; lia).
      nia. }
    split; [reflexivity|]. split; [reflexivity|].
    intros b Vb Nb. cbn [scaled cond_Zopp].
    destruct b as [sb|sb| |sb mb eb]; try discriminate; cbn [scaled cond_Zopp].
    + split; intro; lia.
    + destruct sb; cbn [cond_Zopp]; split; intro H; lia.
    + pose proof (valid_canonical _ _ _ Vb) as Cb.
      destruct (canonical_facts _ _ Cb) as (Ab & _ & _).
      pose proof (finite_pos mb eb Ab) as Pb.
      pose proof (finite_bound _ _ _ Vb) as Bb.
      destruct sb; cbn [cond_Zopp]; split; intro H; try lia.
      pose proof (Hup _ _ Cb H). lia.
Qed.


Lemma round_aux_opp mz ez l :
  binary_round_aux prec emax true mz ez l = SFopp (binary_round_aux prec emax false mz ez l).
Proof.
  unfold binary_round_aux.
  destruct (shr_fexp prec emax mz ez l) as [mrs' e'].
  destruct (shr_fexp prec emax _ e' loc_Exact) as [mrs'' e''].
  destruct (shr_m mrs''); try reflexivity.
  destruct (e'' <=? emax - prec); reflexivity.
Qed.

Lemma scaled_opp x : scaled (SFopp x) = - scaled x.
Proof. destruct x as [s|s| |s m e]; try destruct s; cbn [SFopp scaled cond_Zopp negb]; lia. Qed.

Lemma valid_opp x : valid (SFopp x) <-> valid x.
Proof. destruct x; reflexivity. Qed.

Lemma is_nan_opp x : is_nan (SFopp x) = is_nan x.
Proof. destruct x; reflexivity. Qed.

Lemma brackets_opp V r : brackets V r -> brackets (- V) (SFopp r).
Proof.
  intros (Vr & Nr & H). split; [apply valid_opp; exact Vr|].
  split; [rewrite is_nan_opp; exact Nr|].
  intros b Vb Nb. rewrite scaled_opp.
  destruct (H (SFopp b)) as [H1 H2]; [apply valid_opp; exact Vb | rewrite is_nan_opp; exact Nb |].
  rewrite scaled_opp in H1, H2. split; intro; lia.
Qed.

Lemma binary_round_brackets (sx : bool) (mx : positive) (ex : Z) :
  -149 <= ex ->
  brackets (cond_Zopp sx (Zpos mx * 2 ^ (ex + 149))) (binary_round prec emax sx mx ex).
Proof.
  intro Hex. unfold binary_round.
  pose proof (digits2_bounds mx) as Dx.
  set (d := Zpos (digits2_pos mx)) in *.
  assert (Hd : 0 < d) by (unfold d; lia).
  rewrite fexp_eq. set (F := Z.max (d + ex - 24) (-149)).
  assert (Hshape : exists mz ez,
             shl_align mx ex F = (mz, ez) /\ -149 <= ez /\
             ez <= fexp prec emax (Zpos (digits2_pos mz) + ez) /\
             Zpos mz * 2 ^ (ez + 149) = Zpos mx * 2 ^ (ex + 149)).
  { unfold shl_align. destruct (F - ex) as [|p|p] eqn:EF.
    - exists mx, ex. rewrite fexp_eq. fold d. repeat split; lia.
    - exists mx, ex. rewrite fexp_eq. fold d. repeat split; lia.
    - exists (Pos.iter xO mx p), F.
      assert (Em : Zpos (Pos.iter xO mx p) = Zpos mx * 2 ^ Zpos p) by apply iter_xO.
      assert (Pp : 0 < 2 ^ Zpos p) by (apply Z.pow_pos_nonneg; lia).
      assert (Dz : Zpos (digits2_pos (Pos.iter xO mx p)) = d + Zpos p).
      { apply digits2_unique. rewrite Em.
        replace (d + Zpos p - 1) with ((d - 1) + Zpos p) by lia.
        rewrite !Z.pow_add_r by lia. nia. }
      rewrite fexp_eq, Dz. split; [reflexivity|]. split; [lia|]. split; [lia|].
      rewrite Em. replace (ex + 149) with ((F + 149) + Zpos p) by lia.
      rewrite (Z.pow_add_r 2 (F + 149)) by lia. lia. }
  destruct Hshape as (mz & ez & -> & Hez & Hfexp & Hval).
  rewrite <- Hval.
  destruct sx; cbn [cond_Zopp].
  - rewrite round_aux_opp. apply brackets_opp. apply round_aux_brackets_pos; assumption.
  - apply round_aux_brackets_pos; assumption.
Qed.

Lemma brackets_zero s : brackets 0 (S754_zero s).
Proof.
  split; [reflexivity|]. split; [reflexivity|].
  intros b _ _. cbn [scaled]. split; intro; lia.
Qed.

Lemma binary_normalize_brackets (z e : Z) (s0 : bool) :
  -149 <= e ->
  brackets (z * 2 ^ (e + 149)) (binary_normalize prec emax z e s0).
Proof.
  intro He. destruct z as [|p|p]; cbn [binary_normalize].
  - apply brackets_zero.
  - apply (binary_round_brackets false p e He).
  - pose proof (binary_round_brackets true p e He) as H. cbn [cond_Zopp] in H.
    replace (Zneg p * 2 ^ (e + 149)) with (- (Zpos p * 2 ^ (e + 149))) by lia.
    exact H.
Qed.


Lemma brackets_self x : valid x -> is_nan x = false -> brackets (scaled x) x.
Proof.
  intros Vx Nx. split; [exact Vx|]. split; [exact Nx|]. intros b _ _. split; auto.
Qed.

Lemma shl_align_le m e e' :
  -149 <= e' -> e' <= e ->
  Zpos (fst (shl_align m e e')) * 2 ^ (e' + 149) = Zpos m * 2 ^ (e + 149).
Proof.
  intros He' Hle. unfold shl_align. destruct (e' - e) as [|p|p] eqn:E; cbn [fst].
  - replace e' with e by lia. reflexivity.
  - lia.
  - rewrite iter_xO. replace (e + 149) with (Zpos p + (e' + 149)) by lia.
    rewrite (Z.pow_add_r 2 (Zpos p)) by lia. lia.
Qed.

Lemma valid_finite_emin s m e : valid (S754_finite s m e) -> -149 <= e.
Proof. intro V. apply valid_canonical in V. apply canonical_facts in V. tauto. Qed.

Lemma cond_Zopp_mul s a b : cond_Zopp s a * b = cond_Zopp s (a * b).
Proof. destruct s; cbn [cond_Zopp]; lia. Qed.

Lemma SFadd_brackets x y :
  valid x -> valid y -> is_finite x = true -> is_finite y = true ->
  brackets (scaled x + scaled y) (SFadd prec emax x y).
Proof.
  intros Vx Vy Fx Fy.
  destruct x as [sx|sx| |sx mx ex], y as [sy|sy| |sy my ey]; try discriminate.
  - cbn [SFadd scaled]. destruct sx, sy; apply brackets_zero.
  - cbn [SFadd]. rewrite Z.add_0_l. apply brackets_self; [exact Vy | reflexivity].
  - cbn [SFadd]. cbn [scaled]. rewrite Z.add_0_r. apply brackets_self; [exact Vx | reflexivity].
  - cbn [SFadd scaled].
    pose proof (valid_finite_emin _ _ _ Vx) as Ex.
    pose proof (valid_finite_emin _ _ _ Vy) as Ey.
    set (ez := Z.min ex ey).
    rewrite <- (shl_align_le mx ex ez), <- (shl_align_le my ey ez) by lia.
    rewrite <- !cond_Zopp_mul, <- Z.mul_add_distr_r.
    apply binary_normalize_brackets. lia.
Qed.

Lemma SFsub_brackets x y :
  valid x -> valid y -> is_finite x = true -> is_finite y = true ->
  brackets (scaled x - scaled y) (SFsub prec emax x y).
Proof.
  intros Vx Vy Fx Fy.
  destruct x as [sx|sx| |sx mx ex], y as [sy|sy| |sy my ey]; try discriminate.
  - cbn [SFsub scaled]. destruct sx, sy; apply brackets_zero.
  - cbn [SFsub]. change (scaled (S754_zero sx)) with 0. rewrite Z.sub_0_l.
    change (S754_finite (negb sy) my ey) with (SFopp (S754_finite sy my ey)).
    apply brackets_opp. apply brackets_self; [exact Vy | reflexivity].
  - cbn [SFsub]. change (scaled (S754_zero sy)) with 0. rewrite Z.sub_0_r.
    apply brackets_self; [exact Vx | reflexivity].
  - cbn [SFsub scaled].
    pose proof (valid_finite_emin _ _ _ Vx) as Ex.
    pose proof (valid_finite_emin _ _ _ Vy) as Ey.
    set (ez := Z.min ex ey).
    rewrite <- (shl_align_le mx ex ez), <- (shl_align_le my ey ez) by lia.
    rewrite <- !cond_Zopp_mul, <- Z.mul_sub_distr_r.
    apply binary_normalize_brackets. lia.
Qed.

(** Comparisons read on the exact values. *)
Lemma SFltb_scaled x y :
  valid x -> valid y -> is_nan x = false -> is_nan y = false ->
  SFltb x y = (scaled x <? scaled y).
Proof.
  intros. unfold SFltb. rewrite compare_scaled by assumption.
  unfold Z.ltb. destruct (scaled x ?= scaled y); reflexivity.
Qed.

Lemma SFleb_scaled x y :
  valid x -> valid y -> is_nan x = false -> is_nan y = false ->
  SFleb x y = (scaled x <=? scaled y).
Proof.
  intros. unfold SFleb. rewrite compare_scaled by assumption.
  unfold Z.leb. destruct (scaled x ?= scaled y); reflexivity.
Qed.

Lemma SFeqb_scaled x y :
  valid x -> valid y -> is_nan x = false -> is_nan y = false ->
  SFeqb x y = (scaled x =? scaled y).
Proof.
  intros. unfold SFeqb. rewrite compare_scaled by assumption.
  rewrite Z.eqb_compare. reflexivity.
Qed.

(** Comparison facts that need no well-formedness. *)

Lemma SFcompare_antisym x y :
  SFcompare y x = option_map CompOpp (SFcompare x y).
Proof.
  destruct x as [sx|sx| |sx mx ex], y as [sy|sy| |sy my ey]; cbn [SFcompare option_map];
    try reflexivity;
    try (destruct sx; reflexivity); try (destruct sy; reflexivity);
    try (destruct sx, sy; reflexivity).
  destruct sx, sy; cbn [CompOpp]; try reflexivity; f_equal.
  - rewrite (Z.compare_antisym ex ey). destruct (ex ?= ey); cbn [CompOpp]; try reflexivity.
    rewrite !Pos.compare_cont_spec. unfold Pos.switch_Eq.
    rewrite (Pos.compare_antisym mx my). destruct (mx ?= my)%positive; reflexivity.
  - rewrite (Z.compare_antisym ex ey). destruct (ex ?= ey); cbn [CompOpp]; try reflexivity.
    rewrite !Pos.compare_cont_spec. unfold Pos.switch_Eq.
    rewrite (Pos.compare_antisym mx my). destruct (mx ?= my)%positive; reflexivity.
Qed.

Lemma SFcompare_refl x : is_nan x = false -> SFcompare x x = Some Eq.
Proof.
  destruct x as [s|s| |s m e]; try discriminate; intros _; cbn [SFcompare].
  - reflexivity.
  - destruct s; reflexivity.
  - destruct s; rewrite Z.compare_refl, Pos.compare_cont_refl; reflexivity.
Qed.

Lemma SFcompare_nan x y : SFcompare x y = None <-> is_nan x = true \/ is_nan y = true.
Proof.
  destruct x as [sx|sx| |sx mx ex], y as [sy|sy| |sy my ey]; cbn [SFcompare is_nan];
    split; intro H; try discriminate; try tauto; try (destruct H; discriminate); auto.
Qed.

Lemma SFltb_irrefl x : SFltb x x = false.
Proof.
  unfold SFltb. destruct (is_nan x) eqn:N.
  - destruct x; try discriminate. reflexivity.
  - rewrite SFcompare_refl by assumption. reflexivity.
Qed.


Lemma SFltb_false_leb x y :
  is_nan x = false -> is_nan y = false -> SFltb x y = false -> SFleb y x = true.
Proof.
  intros Nx Ny. unfold SFltb, SFleb. rewrite (SFcompare_antisym x y).
  destruct (SFcompare x y) as [[| |]|] eqn:E; cbn; try discriminate; auto.
  apply SFcompare_nan in E. destruct E; congruence.
Qed.

Lemma SFleb_not_nan x y : SFleb x y = true -> is_nan x = false /\ is_nan y = false.
Proof.
  unfold SFleb. destruct x, y; cbn; try discriminate; auto.
Qed.

Lemma SFltb_not_nan x y : SFltb x y = true -> is_nan x = false /\ is_nan y = false.
Proof.
  unfold SFltb. destruct x, y; cbn; try discriminate; auto.
Qed.

Lemma SFleb_refl x : is_nan x = false -> SFleb x x = true.
Proof. intro N. unfold SFleb. rewrite SFcompare_refl by assumption. reflexivity. Qed.

(** Rounding never produces NaN. *)

Lemma shr_nonneg mrs e n : 0 <= shr_m mrs -> 0 <= shr_m (fst (shr mrs e n)).
Proof.
  intro H. unfold shr. destruct n as [|p|p]; cbn [fst]; try assumption.
  apply (iter_shr_rel p mrs H).
Qed.

Lemma binary_round_aux_not_nan s m e l :
  0 <= m -> is_nan (binary_round_aux prec emax s m e l) = false.
Proof.
  intro Hm. unfold binary_round_aux.
  destruct (shr_fexp prec emax m e l) as [mrs' e'] eqn:S1.
  assert (H1 : 0 <= shr_m mrs').
  { replace mrs' with (fst (shr_fexp prec emax m e l)) by (rewrite S1; reflexivity).
    unfold shr_fexp. apply shr_nonneg. destruct l as [|[| |]]; exact Hm. }
  set (m1 := round_nearest_even (shr_m mrs') (loc_of_shr_record mrs')).
  assert (H2 : 0 <= m1).
  { unfold m1. destruct (round_nearest_even_cases (shr_m mrs') (loc_of_shr_record mrs'))
      as [->|[-> _]]; lia. }
  destruct (shr_fexp prec emax m1 e' loc_Exact) as [mrs'' e''] eqn:S2.
  assert (H3 : 0 <= shr_m mrs'').
  { replace mrs'' with (fst (shr_fexp prec emax m1 e' loc_Exact)) by (rewrite S2; reflexivity).
    unfold shr_fexp. apply shr_nonneg. exact H2. }
  destruct (shr_m mrs'') as [|p|p]; [reflexivity| |lia].
  destruct (e'' <=? emax - prec); reflexivity.
Qed.

Lemma binary_normalize_not_nan z e s : is_nan (binary_normalize prec emax z e s) = false.
Proof.
  destruct z as [|p|p]; cbn [binary_normalize]; [reflexivity| |];
    unfold binary_round; destruct (shl_align _ _ _) as [mz ez];
    apply binary_round_aux_not_nan; lia.
Qed.

Lemma SFadd_not_nan x y :
  is_finite x = true -> is_nan y = false -> is_nan (SFadd prec emax x y) = false.
Proof.
  intros Fx Ny.
  destruct x as [sx|sx| |sx mx ex], y as [sy|sy| |sy my ey]; try discriminate;
    cbn [SFadd]; try reflexivity.
  - destruct sx, sy; reflexivity.
  - apply binary_normalize_not_nan.
Qed.

End B32Facts.

Import B32 B32Facts.

(** ** Smoother *)

Section SmootherGeneric.

Context {FO : FloatOps}.

Lemma frames_set_target s t : frames (qx_smoother_set_target s t) = frames s.
Proof. reflexivity. Qed.

Lemma frames_next s : frames (fst (qx_smoother_next s)) = frames s.
Proof. unfold qx_smoother_next. destruct (feq (current s) (target s)); reflexivity. Qed.

Lemma frames_run s cs : frames (smoother_run s cs) = frames s.
Proof.
  revert s. induction cs as [|c cs IH]; intro s; [reflexivity|].
  cbn [smoother_run fold_left]. fold (smoother_run (smoother_do s c) cs).
  rewrite IH. destruct c; [apply frames_set_target | apply frames_next].
Qed.

Lemma frames_init initial n : (1 <= frames (qx_smoother_init initial n))%N.
Proof. cbn [qx_smoother_init frames]. destruct (N.ltb_spec 0 n); lia. Qed.




(** The two laws of the comparisons on which the overshoot guard rests. *)
Hypothesis flt_irrefl : forall x, flt x x = false.
Hypothesis feq_not_flt : forall x y, feq x y = true -> flt x y = false /\ flt y x = false.


Lemma next_at_target s :
  feq (current s) (target s) = true -> qx_smoother_next s = (s, current s).
Proof. intro E. unfold qx_smoother_next. rewrite E. reflexivity. Qed.


End SmootherGeneric.

Lemma of_int_ge_one n : 1 <= n -> SFleb (of_int 1) (of_int n) = true.
Proof.
  intro Hn.
  pose proof (binary_normalize_brackets n 0 false ltac:(lia)) as (Vn & Nn & Hb).
  fold (of_int n) in Vn, Nn, Hb.
  assert (V1 : valid (of_int 1)) by reflexivity.
  rewrite SFleb_scaled by (try assumption; reflexivity).
  apply Z.leb_le. apply (Hb (of_int 1) V1 eq_refl).
  change (scaled (of_int 1)) with (1 * 2 ^ (0 + 149)).
  apply Z.mul_le_mono_nonneg_r; [apply Z.pow_nonneg; lia | exact Hn].
Qed.

Lemma of_int_pos_nonzero n : 1 <= n -> SFeqb (of_int n) (of_int 0) = false.
Proof.
  intro Hn. pose proof (of_int_ge_one n Hn) as H.
  unfold SFleb in H. unfold SFeqb. rewrite (SFcompare_antisym (of_int 0) (of_int n)) in *.
  change (of_int 0) with (S754_zero false) in *. change (of_int 1) with (S754_finite false 8388608 (-23)) in *.
  destruct (of_int n) as [s|s| |s m e]; cbn in *; try discriminate; try reflexivity.
  all: destruct s; reflexivity.
Qed.

(** C9: after [qx_smoother_init] the frame count is at least 1, no later
    call changes it, and the divisor [(float) frames] of
    [qx_smoother_set_target] is at least 1.0, hence never zero, after any
    sequence of calls. *)
Theorem C9_frames_never_zero :
  forall (initial : float32) (n : N) (cs : list smoother_call),
    let s := smoother_run (qx_smoother_init initial n) cs in
    (1 <= frames s)%N /\
    frames s = (if (0 <? n)%N then n else 1%N) /\
    (forall t, frames (qx_smoother_set_target s t) = frames s) /\
    frames (fst (qx_smoother_next s)) = frames s /\
    fle (FloatOps := binary32) f1 (float_of_int (Z.of_N (frames s))) = true /\
    feq (FloatOps := binary32) (float_of_int (Z.of_N (frames s))) f0 = false.
Proof.
  intros initial n cs s.
  assert (H1 : (1 <= frames s)%N).
  { unfold s. rewrite frames_run. apply frames_init. }
  split; [exact H1|].
  split; [unfold s; rewrite frames_run; reflexivity|].
  split; [intro t; apply frames_set_target|].
  split; [apply frames_next|].
  split.
  - change (SFleb (of_int 1) (of_int (Z.of_N (frames s))) = true).
    apply of_int_ge_one. lia.
  - change (SFeqb (of_int (Z.of_N (frames s))) (of_int 0) = false).
    apply of_int_pos_nonzero. lia.
Qed.

(** ** Exact arithmetic: the comparisons *)

Lemma exact_flt_iff (x y : Q) : flt (FloatOps := exact) x y = true <-> (x < y)%Q.
Proof.
  cbn. unfold Exact.ltb. rewrite negb_true_iff.
  split.
  - intro H. apply Qnot_le_lt. intro L. apply Qle_bool_iff in L. congruence.
  - intro H. destruct (Qle_bool y x) eqn:E; [|reflexivity].
    apply Qle_bool_iff in E. apply Qlt_not_le in H. contradiction.
Qed.

Lemma exact_flt_false (x y : Q) : flt (FloatOps := exact) x y = false <-> (y <= x)%Q.
Proof.
  split.
  - intro H. apply Qnot_lt_le. intro L. apply exact_flt_iff in L. congruence.
  - intro H. destruct (flt (FloatOps := exact) x y) eqn:E; [|reflexivity].
    apply exact_flt_iff in E. apply Qlt_not_le in E. contradiction.
Qed.

Lemma exact_fle_iff (x y : Q) : fle (FloatOps := exact) x y = true <-> (x <= y)%Q.
Proof. apply Qle_bool_iff. Qed.

Lemma exact_fle_false (x y : Q) : fle (FloatOps := exact) x y = false <-> (y < x)%Q.
Proof.
  split.
  - intro H. apply Qnot_le_lt. intro L. apply exact_fle_iff in L. congruence.
  - intro H. destruct (fle (FloatOps := exact) x y) eqn:E; [|reflexivity].
    apply exact_fle_iff in E. apply Qlt_not_le in H. contradiction.
Qed.


(** ** Exact arithmetic: the smoother reaches its target in [frames] calls *)

Section ExactSmoother.

Variables (c t d : Q) (F : N).
Hypothesis F_pos : (1 <= F)%N.
Hypothesis d_def : (inject_Z (Z.of_N F) * d == t - c)%Q.




End ExactSmoother.








(** ** Fader *)

Lemma fstep_run {FO : FloatOps} (f : qx_fader) cs : fstep (fader_run f cs) = fstep f.
Proof.
  revert f. induction cs as [|c cs IH]; intro f; [reflexivity|].
  cbn [fader_run fold_left]. fold (fader_run (fader_do f c) cs). rewrite IH.
  destruct c; reflexivity.
Qed.

Lemma unit_interval_finite (x : float32) :
  unit_interval x = true -> is_finite x = true.
Proof.
  unfold unit_interval. intro H. apply andb_prop in H as [H0 H1].
  destruct x as [s|s| |s m e]; try reflexivity.
  - destruct s; [discriminate H0 | discriminate H1].
  - discriminate H0.
Qed.

Lemma clamp_unit_interval (v : float32) :
  is_nan v = false -> unit_interval (qx_clamp_float v f0 f1) = true.
Proof.
  intro Nv. unfold qx_clamp_float, fgt.
  destruct (flt v f0) eqn:L0; [reflexivity|].
  destruct (flt f1 v) eqn:L1; [reflexivity|].
  unfold unit_interval. apply andb_true_intro. split.
  - apply SFltb_false_leb; [exact Nv | reflexivity | exact L0].
  - apply SFltb_false_leb; [reflexivity | exact Nv | exact L1].
Qed.

Lemma fade_unit_interval (f : qx_fader (FO := binary32)) (val : float32) :
  unit_interval (fade f) = true -> is_nan (fstep f) = false ->
  unit_interval (fade (fst (qx_fader_fade f val))) = true.
Proof.
  intros HI HN. cbn [qx_fader_fade fst fade].
  apply clamp_unit_interval.
  apply SFadd_not_nan; [apply unit_interval_finite; exact HI|].
  destruct (enabled f); [exact HN | cbn [fneg binary32]; rewrite is_nan_opp; exact HN].
Qed.

Lemma run_unit_interval (f : qx_fader (FO := binary32)) cs :
  unit_interval (fade f) = true -> is_nan (fstep f) = false ->
  unit_interval (fade (fader_run f cs)) = true.
Proof.
  revert f. induction cs as [|c cs IH]; intros f HI HN; [exact HI|].
  cbn [fader_run fold_left]. fold (fader_run (fader_do f c) cs).
  apply IH.
  - destruct c as [en|val]; cbn [fader_do].
    + destruct en; reflexivity.
    + apply fade_unit_interval; assumption.
  - destruct c; exact HN.
Qed.

(** C4, amended: for every fader made by [qx_fader_init] whose computed
    step is not NaN, [0 <= fade <= 1] holds after every sequence of
    [qx_fader_enable] and [qx_fader_fade] calls, and each
    [qx_fader_fade(val)] returns [val * fade'] for the updated fade value
    [fade'], itself in [0, 1]. *)
Theorem C4_fader_unit_interval :
  forall (fadeTime sample_rate : float32) (cs : list fader_call),
    is_nan (fstep (qx_fader_init fadeTime sample_rate)) = false ->
    unit_interval (fade (fader_run (qx_fader_init fadeTime sample_rate) cs)) = true /\
    forall val : float32,
      snd (qx_fader_fade (fader_run (qx_fader_init fadeTime sample_rate) cs) val)
      = fmul val
          (fade (fst (qx_fader_fade (fader_run (qx_fader_init fadeTime sample_rate) cs) val)))
      /\ unit_interval
           (fade (fst (qx_fader_fade (fader_run (qx_fader_init fadeTime sample_rate) cs) val)))
         = true.
Proof.
  intros fadeTime sample_rate cs HN.
  assert (HI : unit_interval (fade (fader_run (qx_fader_init fadeTime sample_rate) cs)) = true).
  { apply run_unit_interval; [reflexivity | exact HN]. }
  split; [exact HI|]. intro val. split; [reflexivity|].
  apply fade_unit_interval; [exact HI|]. rewrite fstep_run. exact HN.
Qed.

Lemma C4_fader_unit_interval_witness :
  unit_interval
    (fade (fader_run (qx_fader_init (FO := binary32) (of_int 10) (of_int 48000))
                     [call_enable true; call_fade (of_int 1 : float32); call_fade (of_int 1 : float32)]))
  = true.
Proof.
  refine (proj1 (C4_fader_unit_interval (of_int 10) (of_int 48000)
           [call_enable true; call_fade (of_int 1 : float32); call_fade (of_int 1 : float32)]
           _)).
  vm_compute. reflexivity.
Defined.

(** C4 fails as stated: a NaN fade time gives a NaN step, and the first
    [qx_fader_fade] stores NaN, which the clamp lets through. *)
Lemma C4_counterexample :
  unit_interval
    (fade (fader_run (qx_fader_init (FO := binary32) S754_nan (of_int 48000))
                     [call_fade (of_int 1 : float32)]))
  = false.
Proof. vm_compute. reflexivity. Qed.

(** ** Fader in binary32: the ramp is monotone and holds at its bound *)


Lemma scaled_f0 : scaled (f0 (FO := binary32)) = 0.
Proof. reflexivity. Qed.

Lemma scaled_f1 : scaled (f1 (FO := binary32)) = 2 ^ 149.
Proof. reflexivity. Qed.

Lemma valid_f0 : valid (f0 (FO := binary32)).
Proof. reflexivity. Qed.

Lemma valid_f1 : valid (f1 (FO := binary32)).
Proof. reflexivity. Qed.

Lemma unit_interval_scaled (x : float32) :
  valid x ->
  (unit_interval x = true <-> is_nan x = false /\ 0 <= scaled x <= 2 ^ 149).
Proof.
  intro Vx. unfold unit_interval. split.
  - intro H. apply andb_prop in H as [H0 H1].
    destruct (SFleb_not_nan _ _ H0) as [_ Nx].
    b32_ops.
    rewrite SFleb_scaled in H0, H1 by (try assumption; reflexivity).
    apply Z.leb_le in H0, H1. rewrite scaled_f0 in H0. rewrite scaled_f1 in H1. auto.
  - intros (Nx & H0 & H1). apply andb_true_intro.
    b32_ops.
    rewrite !SFleb_scaled by (try assumption; reflexivity).
    rewrite scaled_f0, scaled_f1. split; apply Z.leb_le; assumption.
Qed.


Section Ramp32.

Variable step : float32.
Hypothesis step_valid : valid step.
Hypothesis step_pos : flt f0 step = true.
Hypothesis step_le1 : fle step f1 = true.





End Ramp32.

(** ** Fader in exact arithmetic: the bound is reached in [ceil(1/step)] calls *)



Section RampExact.

Variable step : rational.
Hypothesis step_pos : (0 < step)%Q.

Lemma inject_succ n : (inject_Z (Z.of_nat (S n)) == inject_Z (Z.of_nat n) + 1)%Q.
Proof. rewrite Nat2Z.inj_succ. unfold Z.succ. rewrite inject_Z_plus. reflexivity. Qed.






End RampExact.

Lemma fader_ext {FO : FloatOps} (f g : qx_fader) :
  fade f = fade g -> fstep f = fstep g -> enabled f = enabled g -> f = g.
Proof. destruct f, g. cbn. intros -> -> ->. reflexivity. Qed.






(** ** qx_wrapf *)

Lemma wrap_up_fuel_mono {FO : FloatOps} n : forall x max y k,
  wrap_up n x max = Some y -> (n <= k)%nat -> wrap_up k x max = Some y.
Proof.
  induction n as [|n IH]; intros x max y k H Hk; [discriminate H|].
  destruct k as [|k]; [lia|]. cbn [wrap_up] in *.
  destruct (flt x f0); [|exact H]. apply IH; [exact H | lia].
Qed.

Lemma wrap_down_fuel_mono {FO : FloatOps} n : forall x max y k,
  wrap_down n x max = Some y -> (n <= k)%nat -> wrap_down k x max = Some y.
Proof.
  induction n as [|n IH]; intros x max y k H Hk; [discriminate H|].
  destruct k as [|k]; [lia|]. cbn [wrap_down] in *.
  destruct (fge x max); [|exact H]. apply IH; [exact H | lia].
Qed.

Lemma qx_wrapf_intro {FO : FloatOps} n m x max y z :
  wrap_up n x max = Some y -> wrap_down m y max = Some z ->
  qx_wrapf (Nat.max n m) x max = Some z.
Proof.
  intros Hu Hd. unfold qx_wrapf.
  rewrite (wrap_up_fuel_mono n x max y _ Hu (Nat.le_max_l n m)). cbn [bind].
  apply (wrap_down_fuel_mono m y max z _ Hd (Nat.le_max_r n m)).
Qed.

Section WrapExact.

Variable max : rational.
Hypothesis max_pos : (0 < max)%Q.

(** The first loop: [x] is raised by [j * max] until it is not negative. *)
Lemma exact_wrap_up n : forall x : rational,
  (0 <= x + inject_Z (Z.of_nat n) * max)%Q ->
  exists (y : rational) (j : nat),
    wrap_up (S n) x max = Some y /\ (0 <= y)%Q /\
    (y == x + inject_Z (Z.of_nat j) * max)%Q /\ ((x < 0)%Q -> (y < max)%Q).
Proof.
  induction n as [|n IH]; intros x Hx.
  - exists x, 0%nat. cbn [wrap_up].
    change (inject_Z (Z.of_nat 0)) with 0%Q in *.
    assert (X0 : (0 <= x)%Q) by lra.
    assert (L : flt (FloatOps := exact) x f0 = false) by (apply exact_flt_false; exact X0).
    rewrite L. repeat split; try lra.
  - cbn [wrap_up]. destruct (flt (FloatOps := exact) x f0) eqn:L.
    + apply exact_flt_iff in L. change (f0 (FO := exact)) with 0%Q in L.
      pose proof (inject_succ n) as HS.
      destruct (IH (fadd (FloatOps := exact) x max)) as (y & j & Hy & Y0 & Yeq & Ylt).
      { change (fadd (FloatOps := exact) x max) with (x + max)%Q.
        set (qn := inject_Z (Z.of_nat n)) in *. set (qS := inject_Z (Z.of_nat (S n))) in *.
        assert (qS * max == qn * max + max)%Q by (rewrite HS; ring). lra. }
      exists y, (S j). change (fadd (FloatOps := exact) x max) with (x + max)%Q in *.
      pose proof (inject_succ j) as HSj.
      set (qj := inject_Z (Z.of_nat j)) in *. set (qSj := inject_Z (Z.of_nat (S j))) in *.
      assert (qSj * max == qj * max + max)%Q by (rewrite HSj; ring).
      split; [exact Hy|]. split; [exact Y0|]. split; [lra|].
      intros _. destruct (Qlt_le_dec (x + max) 0) as [N|N].
      * apply Ylt. exact N.
      * (* the loop stops at once: y is x + max *)
        assert (L' : flt (FloatOps := exact) (x + max)%Q f0 = false)
          by (apply exact_flt_false; exact N).
        cbn [wrap_up] in Hy. rewrite L' in Hy. injection Hy as <-. lra.
    + exists x, 0%nat. apply exact_flt_false in L. change (f0 (FO := exact)) with 0%Q in L.
      change (inject_Z (Z.of_nat 0)) with 0%Q.
      repeat split; try lra.
Qed.

(** The second loop: [y] is lowered by [i * max] until it is below [max]. *)
Lemma exact_wrap_down n : forall y : rational,
  (0 <= y)%Q -> (y < inject_Z (Z.of_nat (S n)) * max)%Q ->
  exists (z : rational) (i : nat),
    wrap_down (S n) y max = Some z /\ (0 <= z < max)%Q /\
    (z == y - inject_Z (Z.of_nat i) * max)%Q.
Proof.
  induction n as [|n IH]; intros y Y0 Yn.
  - exists y, 0%nat. cbn [wrap_down]. unfold fge.
    change (inject_Z (Z.of_nat 1)) with 1%Q in Yn.
    change (inject_Z (Z.of_nat 0)) with 0%Q.
    assert (L : fle (FloatOps := exact) max y = false) by (apply exact_fle_false; lra).
    rewrite L. repeat split; lra.
  - cbn [wrap_down]. unfold fge. destruct (fle (FloatOps := exact) max y) eqn:L.
    + apply exact_fle_iff in L.
      pose proof (inject_succ (S n)) as HS.
      destruct (IH (fsub (FloatOps := exact) y max)) as (z & i & Hz & Z0 & Zeq).
      { change (fsub (FloatOps := exact) y max) with (y - max)%Q. lra. }
      { change (fsub (FloatOps := exact) y max) with (y - max)%Q.
        set (qn := inject_Z (Z.of_nat (S n))) in *.
        set (qS := inject_Z (Z.of_nat (S (S n)))) in *.
        assert (qS * max == qn * max + max)%Q by (rewrite HS; ring). lra. }
      exists z, (S i). change (fsub (FloatOps := exact) y max) with (y - max)%Q in *.
      pose proof (inject_succ i) as HSi.
      set (qi := inject_Z (Z.of_nat i)) in *. set (qSi := inject_Z (Z.of_nat (S i))) in *.
      assert (qSi * max == qi * max + max)%Q by (rewrite HSi; ring).
      split; [exact Hz|]. split; [exact Z0|]. lra.
    + exists y, 0%nat. apply exact_fle_false in L.
      change (inject_Z (Z.of_nat 0)) with 0%Q. repeat split; lra.
Qed.

(** Enough iterations for a given distance. *)
Lemma enough_steps (a : Q) :
  (a <= inject_Z (Z.of_nat (Z.to_nat (Qceiling (a / max)))) * max)%Q.
Proof.
  set (c := Qceiling (a / max)).
  assert (Hc : (a / max <= inject_Z (Z.of_nat (Z.to_nat c)))%Q).
  { eapply Qle_trans; [apply Qle_ceiling|]. fold c. rewrite <- Zle_Qle. lia. }
  assert (H1 : (a / max * max == a)%Q) by (field; lra).
  rewrite <- H1 at 1. apply Qmult_le_compat_r; lra.
Qed.

Lemma exact_wrapf (x : rational) :
  exists (fuel : nat) (y : rational) (k : Z),
    qx_wrapf fuel x max = Some y /\ (0 <= y < max)%Q /\ (x - y == inject_Z k * max)%Q.
Proof.
  destruct (exact_wrap_up (Z.to_nat (Qceiling (- x / max))) x) as (y & j & Hy & Y0 & Yeq & _).
  { pose proof (enough_steps (- x)%Q). lra. }
  destruct (exact_wrap_down (Z.to_nat (Qceiling (y / max))) y Y0) as (z & i & Hz & Z0 & Zeq).
  { pose proof (enough_steps y) as H. pose proof (inject_succ (Z.to_nat (Qceiling (y / max)))) as HS.
    set (qn := inject_Z (Z.of_nat (Z.to_nat (Qceiling (y / max))))) in *.
    set (qS := inject_Z (Z.of_nat (S (Z.to_nat (Qceiling (y / max)))))) in *.
    assert (qS * max == qn * max + max)%Q by (rewrite HS; ring). lra. }
  eexists. exists z, (Z.of_nat i - Z.of_nat j).
  split; [exact (qx_wrapf_intro _ _ _ _ _ _ Hy Hz)|]. split; [exact Z0|].
  unfold Zminus. rewrite inject_Z_plus, inject_Z_opp.
  set (qi := inject_Z (Z.of_nat i)) in *. set (qj := inject_Z (Z.of_nat j)) in *. lra.
Qed.

End WrapExact.

Lemma finite_of_scaled (r : float32) :
  is_nan r = false -> - 2 ^ 277 < scaled r < 2 ^ 277 -> is_finite r = true.
Proof.
  destruct r as [s|s| |s m e]; try reflexivity; try discriminate.
  intros _. destruct s; cbn [scaled cond_Zopp]; lia.
Qed.

Lemma scaled_bound (x : float32) : valid x -> - 2 ^ 277 <= scaled x <= 2 ^ 277.
Proof.
  intro V. assert (P : 0 < 2 ^ 277) by (apply Z.pow_pos_nonneg; lia).
  destruct x as [s|s| |s m e]; cbn [scaled cond_Zopp]; try lia.
  - destruct s; cbn [cond_Zopp]; lia.
  - pose proof (finite_bound _ _ _ V). pose proof (valid_finite_emin _ _ _ V) as E.
    pose proof (finite_pos m e E). destruct s; cbn [cond_Zopp]; lia.
Qed.


(** ** qx_ring_interp_linear *)

(** The cast [(int) x] truncates the exact value toward zero. *)
Lemma to_int_quot (x : float32) :
  valid x -> is_finite x = true ->
  to_int x = int_checked (Z.quot (scaled x) (2 ^ 149)).
Proof.
  intros V F. destruct x as [s|s| |s m e]; try discriminate.
  - reflexivity.
  - cbn [to_int scaled]. f_equal.
    pose proof (valid_finite_emin _ _ _ V) as E.
    assert (P : 0 < 2 ^ 149) by (apply Z.pow_pos_nonneg; lia).
    assert (T : trunc_mag m e = Z.quot (Zpos m * 2 ^ (e + 149)) (2 ^ 149)).
    { rewrite Z.quot_div_nonneg by (try lia; pose proof (finite_pos m e E); lia).
      unfold trunc_mag. destruct e as [|p|p].
      - rewrite Z.shiftl_0_r. cbn [Z.add]. rewrite Z.div_mul by lia. reflexivity.
      - rewrite Z.shiftl_mul_pow2 by lia.
        rewrite Z.pow_add_r by lia. rewrite Z.mul_assoc, Z.div_mul by lia. reflexivity.
      - rewrite Z.shiftr_div_pow2 by lia.
        replace (2 ^ 149) with (2 ^ (Zneg p + 149) * 2 ^ Zpos p).
        2:{ rewrite <- Z.pow_add_r by lia. f_equal. lia. }
        assert (0 < 2 ^ Zpos p) by (apply Z.pow_pos_nonneg; lia).
        assert (0 < 2 ^ (Zneg p + 149)) by (apply Z.pow_pos_nonneg; lia).
        rewrite (Z.mul_comm (Zpos m) (2 ^ (Zneg p + 149))).
        rewrite Z.div_mul_cancel_l by lia. reflexivity. }
    destruct s; cbn [cond_Zopp].
    + rewrite Z.quot_opp_l by lia. f_equal. exact T.
    + exact T.
Qed.

Lemma quot_range (a b n : Z) :
  0 < b -> 0 <= n -> (0 <= Z.quot a b <= n <-> - b < a < (n + 1) * b).
Proof.
  intros Hb Hn. destruct (Z.le_gt_cases 0 a) as [A|A].
  - rewrite Z.quot_div_nonneg by lia. split.
    + intros [_ H]. split; [lia|].
      destruct (Z.lt_ge_cases a ((n + 1) * b)) as [L|G]; [exact L|].
      assert (n + 1 <= a / b) by (apply Z.div_le_lower_bound; lia). lia.
    + intros [_ H]. split; [apply Z.div_pos; lia|].
      assert (a / b < n + 1) by (apply Z.div_lt_upper_bound; lia). lia.
  - replace a with (- (- a)) by lia. rewrite Z.quot_opp_l by lia.
    rewrite Z.quot_div_nonneg by lia. split.
    + intros [H _]. split; [|nia].
      assert (Hq : (- a) / b <= 0) by lia.
      destruct (Z.lt_ge_cases (- a) b) as [L|G]; [lia|].
      assert (1 <= (- a) / b) by (apply Z.div_le_lower_bound; lia). lia.
    + intros [H _]. rewrite Z.div_small by lia. lia.
Qed.

Lemma in_int_range (z : Z) : INT_MIN <= z <= INT_MAX -> int_checked z = Some z.
Proof.
  intros [L H]. unfold int_checked, in_int.
  destruct (Z.leb_spec INT_MIN z); [|lia]. destruct (Z.leb_spec z INT_MAX); [|lia]. reflexivity.
Qed.

Lemma int_checked_some (z i : Z) : int_checked z = Some i -> i = z /\ INT_MIN <= z <= INT_MAX.
Proof.
  unfold int_checked, in_int.
  destruct (Z.leb_spec INT_MIN z) as [L|L]; [|discriminate].
  destruct (Z.leb_spec z INT_MAX) as [U|U]; [|discriminate].
  cbn. intro E. inversion E. subst. auto.
Qed.

(** The positions as a function of the truncated index. *)
Lemma ring_positions_of_int {FO : FloatOps} (index : float) (size i : Z) :
  int_of_float index = Some i -> 1 <= size <= INT_MAX -> i + 1 <= INT_MAX ->
  0 <= i < 2 * size - 1 ->
  ring_positions index size
  = Some (if size <=? i then i - size else i, if size <=? i + 1 then i + 1 - size else i + 1).
Proof.
  intros Hi Rs Ri Hr. unfold ring_positions. rewrite Hi. cbn [bind].
  unfold INT_MAX in Rs, Ri.
  unfold int_add. rewrite in_int_range by (unfold INT_MIN, INT_MAX; lia). cbn [bind].
  destruct (Z.leb_spec size i); destruct (Z.leb_spec size (i + 1)); try lia;
    unfold int_sub; rewrite ?in_int_range by (unfold INT_MIN, INT_MAX; lia); reflexivity.
Qed.

Lemma ring_positions_in_bounds {FO : FloatOps} (index : float) (size i1 i2 : Z) :
  1 <= size ->
  ring_positions index size = Some (i1, i2) -> 0 <= i1 < size -> 0 <= i2 < size ->
  exists i, int_of_float index = Some i /\ 0 <= i < 2 * size - 1.
Proof.
  intros Rs H B1 B2. unfold ring_positions in H.
  destruct (int_of_float index) as [i|]; [|discriminate]. cbn [bind] in H.
  exists i. split; [reflexivity|].
  unfold int_add in H. destruct (int_checked (i + 1)) as [j|] eqn:Ej; [|discriminate].
  apply int_checked_some in Ej as [-> _]. cbn [bind] in H.
  destruct (Z.leb_spec size i).
  - unfold int_sub in H. destruct (int_checked (i - size)) as [a|] eqn:Ea; [|discriminate].
    apply int_checked_some in Ea as [-> _]. cbn [bind] in H.
    destruct (Z.leb_spec size (i + 1)); [|lia].
    destruct (int_checked (i + 1 - size)) as [b|] eqn:Eb; [|discriminate].
    apply int_checked_some in Eb as [-> _]. cbn [bind] in H. injection H as <- <-. lia.
  - cbn [bind] in H. destruct (Z.leb_spec size (i + 1)).
    + unfold int_sub in H.
      destruct (int_checked (i + 1 - size)) as [b|] eqn:Eb; [|discriminate].
      apply int_checked_some in Eb as [-> _]. cbn [bind] in H. injection H as <- <-. lia.
    + cbn [bind] in H. injection H as <- <-. lia.
Qed.

Lemma to_int_in_range (index : float32) (n : Z) :
  valid index -> is_finite index = true -> 0 <= n <= INT_MAX ->
  - 2 ^ 149 < scaled index < (n + 1) * 2 ^ 149 ->
  int_of_float (FloatOps := binary32) index = Some (Z.quot (scaled index) (2 ^ 149)) /\
  0 <= Z.quot (scaled index) (2 ^ 149) <= n.
Proof.
  intros V F Hn Hr.
  assert (P : 0 < 2 ^ 149) by (apply Z.pow_pos_nonneg; lia).
  pose proof (proj2 (quot_range (scaled index) (2 ^ 149) n P (proj1 Hn)) Hr) as Hq.
  split; [|exact Hq].
  cbn [int_of_float binary32]. rewrite to_int_quot by assumption.
  apply in_int_range. unfold INT_MIN, INT_MAX in *. lia.
Qed.

(** C10, amended: for a finite index and [1 <= size <= 2^30], both read
    positions of [qx_ring_interp_linear] lie in [0, size) exactly when
    [-1 < index < 2 * size - 1] (the exact value of [index] is
    [scaled index * 2^-149]). *)
Theorem C10_ring_positions_in_bounds :
  forall (index : float32) (size : Z),
    valid index -> is_finite index = true -> 1 <= size <= 2 ^ 30 ->
    ((exists i1 i2 : Z,
        ring_positions index size = Some (i1, i2) /\ 0 <= i1 < size /\ 0 <= i2 < size)
     <-> - 2 ^ 149 < scaled index < (2 * size - 1) * 2 ^ 149).
Proof.
  intros index size V F Rs.
  assert (P : 0 < 2 ^ 149) by (apply Z.pow_pos_nonneg; lia).
  assert (R30 : 2 ^ 30 = 1073741824) by reflexivity.
  split.
  - intros (i1 & i2 & Hp & B1 & B2).
    destruct (ring_positions_in_bounds index size i1 i2 ltac:(lia) Hp B1 B2) as (i & Hi & Ri).
    cbn [int_of_float binary32] in Hi. rewrite to_int_quot in Hi by assumption.
    apply int_checked_some in Hi as [-> _].
    replace (2 * size - 1) with ((2 * size - 2) + 1) by lia.
    apply quot_range; lia.
  - intro Hr.
    destruct (to_int_in_range index (2 * size - 2) V F) as [Hi Hq].
    { unfold INT_MAX. lia. }
    { replace (2 * size - 2 + 1) with (2 * size - 1) by lia. exact Hr. }
    rewrite (ring_positions_of_int index size _ Hi) by (unfold INT_MAX; lia).
    eexists. eexists. split; [reflexivity|].
    destruct (Z.leb_spec size (Z.quot (scaled index) (2 ^ 149)));
      destruct (Z.leb_spec size (Z.quot (scaled index) (2 ^ 149) + 1)); lia.
Qed.

Lemma C10_ring_positions_in_bounds_witness :
  exists i1 i2 : Z,
    ring_positions (ratio 7 2 : float32) 4 = Some (i1, i2) /\ 0 <= i1 < 4 /\ 0 <= i2 < 4.
Proof.
  refine (proj2 (C10_ring_positions_in_bounds (ratio 7 2) 4 _ _ _) _).
  - reflexivity.
  - reflexivity.
  - lia.
  - vm_compute. split; reflexivity.
Defined.

(** C10 fails as stated: for a one-element buffer and [index = 1.5] the
    second position is 1, outside [0, 1); and for the negative index -0.5
    both positions, 0 and 1, are inside a four-element buffer. *)
Lemma C10_counterexample :
  ring_positions (ratio 3 2 : float32) 1 = Some (0, 1) /\
  ring_positions (ratio (-1) 2 : float32) 4 = Some (0, 1).
Proof. split; vm_compute; reflexivity. Qed.

Lemma buf_read_in_bounds {FO : FloatOps} (buf : list float) (i : Z) :
  0 <= i < Z.of_nat (length buf) ->
  exists b, nth_error buf (Z.to_nat i) = Some b /\ buf_read buf i = Some b.
Proof.
  intro Hi. unfold buf_read.
  destruct (Z.leb_spec 0 i); [|lia]. destruct (Z.ltb_spec i (Z.of_nat (length buf))); [|lia].
  cbn [andb]. destruct (nth_error buf (Z.to_nat i)) as [b|] eqn:E.
  - exists b. auto.
  - apply nth_error_None in E. lia.
Qed.

(** What the code computes on its whole defined range: the positions are
    reduced first, and [k] is taken from the reduced [i1]. *)
Lemma ring_interp_linear_reduced (buf : list float32) (index : float32) (size : Z) :
  Z.of_nat (length buf) = size -> 1 <= size < INT_MAX ->
  valid index -> is_finite index = true ->
  0 <= scaled index < (size + 1) * 2 ^ 149 -> scaled index < (2 * size - 1) * 2 ^ 149 ->
  exists b1 b2 : float32,
    nth_error buf (Z.to_nat (reduce_once size (floor32 index))) = Some b1 /\
    nth_error buf (Z.to_nat (reduce_once size (floor32 index + 1))) = Some b2 /\
    qx_ring_interp_linear buf index size
    = Some (fadd b1
              (fmul (fsub index (float_of_int (reduce_once size (floor32 index))))
                    (fsub b2 b1))).
Proof.
  intros Hlen Rs V F [I0 I1] I2. subst size.
  set (size := Z.of_nat (length buf)) in *.
  assert (P : 0 < 2 ^ 149) by (apply Z.pow_pos_nonneg; lia).
  destruct (to_int_in_range index size V F) as [Hi Hq].
  { unfold INT_MAX in *. lia. }
  { lia. }
  assert (Efl : Z.quot (scaled index) (2 ^ 149) = floor32 index)
    by (unfold floor32; apply Z.quot_div_nonneg; lia).
  rewrite Efl in Hi, Hq.
  assert (Hfl : floor32 index < 2 * size - 1).
  { unfold floor32. apply Z.div_lt_upper_bound; lia. }
  assert (Hp : ring_positions index size
               = Some (if size <=? floor32 index then floor32 index - size else floor32 index,
                       if size <=? floor32 index + 1 then floor32 index + 1 - size
                       else floor32 index + 1))
    by (apply (ring_positions_of_int index size _ Hi); unfold INT_MAX in *; lia).
  fold (reduce_once size (floor32 index)) in Hp.
  fold (reduce_once size (floor32 index + 1)) in Hp.
  assert (B1 : 0 <= reduce_once size (floor32 index) < size)
    by (unfold reduce_once; destruct (Z.leb_spec size (floor32 index)); lia).
  assert (B2 : 0 <= reduce_once size (floor32 index + 1) < size)
    by (unfold reduce_once; destruct (Z.leb_spec size (floor32 index + 1)); lia).
  destruct (buf_read_in_bounds buf _ B1) as (b1 & N1 & R1).
  destruct (buf_read_in_bounds buf _ B2) as (b2 & N2 & R2).
  exists b1, b2. split; [exact N1|]. split; [exact N2|].
  unfold qx_ring_interp_linear. rewrite Hp. cbn [bind].
  rewrite R1. cbn [bind]. rewrite R2. reflexivity.
Qed.

(** C8: for a buffer of [size] elements, [1 <= size < INT_MAX], and a
    finite index with [0 <= index < size], [qx_ring_interp_linear] returns
    [buf[i1] + k * (buf[i2] - buf[i1])] for [i1 = floor(index)],
    [i2 = i1 + 1] reduced by [size] once if [>= size], and the fractional
    part [k = index - i1]; for the buffer [1, 2, 3, 4] and index 3.5 this is
    2.5.  For [size <= index < size + 1] the code takes [k] from the reduced
    [i1] instead: at index 4.5 it returns [1 + 4.5 * (2 - 1) = 5.5], where
    the formula with [k = index - floor(index)] gives 1.5. *)
Theorem C8_ring_interp_linear :
  (forall (buf : list float32) (index : float32) (size : Z),
     Z.of_nat (length buf) = size -> 1 <= size < INT_MAX ->
     valid index -> is_finite index = true ->
     0 <= scaled index < size * 2 ^ 149 ->
     exists b1 b2 : float32,
       nth_error buf (Z.to_nat (floor32 index)) = Some b1 /\
       nth_error buf (Z.to_nat (reduce_once size (floor32 index + 1))) = Some b2 /\
       qx_ring_interp_linear buf index size
       = Some (fadd b1
                 (fmul (fsub index (float_of_int (floor32 index))) (fsub b2 b1)))) /\
  qx_ring_interp_linear (map of_int [1; 2; 3; 4] : list float32) (ratio 7 2) 4
  = Some (ratio 5 2) /\
  qx_ring_interp_linear (map of_int [1; 2; 3; 4] : list float32) (ratio 9 2) 4
  = Some (ratio 11 2) /\
  fadd (of_int 1 : float32)
       (fmul (fsub (ratio 9 2 : float32) (float_of_int (floor32 (ratio 9 2))))
             (fsub (of_int 2 : float32) (of_int 1)))
  = ratio 3 2.
Proof.
  split; [|split; [|split]]; [|vm_compute; reflexivity ..].
  intros buf index size Hlen Rs V F [I0 I1].
  assert (P : 0 < 2 ^ 149) by (apply Z.pow_pos_nonneg; lia).
  assert (Hfl : floor32 index < size).
  { unfold floor32. apply Z.div_lt_upper_bound; lia. }
  assert (E : reduce_once size (floor32 index) = floor32 index).
  { unfold reduce_once. destruct (Z.leb_spec size (floor32 index)); lia. }
  destruct (ring_interp_linear_reduced buf index size Hlen Rs V F) as (b1 & b2 & N1 & N2 & H).
  - split; [exact I0|]. apply Z.lt_trans with (size * 2 ^ 149); [exact I1|].
    apply Z.mul_lt_mono_pos_r; lia.
  - apply Z.lt_le_trans with (size * 2 ^ 149); [exact I1|].
    apply Z.mul_le_mono_nonneg_r; lia.
  - rewrite E in N1, H. exists b1, b2. auto.
Qed.

Lemma C8_ring_interp_linear_witness :
  exists b1 b2 : float32,
    nth_error (map of_int [1; 2; 3; 4]) (Z.to_nat (floor32 (ratio 7 2))) = Some b1 /\
    nth_error (map of_int [1; 2; 3; 4]) (Z.to_nat (reduce_once 4 (floor32 (ratio 7 2) + 1))) = Some b2 /\
    qx_ring_interp_linear (FO := binary32) (map of_int [1; 2; 3; 4]) (ratio 7 2) 4
    = Some (fadd b1
              (fmul (fsub (ratio 7 2 : float32) (float_of_int (floor32 (ratio 7 2))))
                    (fsub b2 b1))).
Proof.
  refine (proj1 C8_ring_interp_linear (map of_int [1; 2; 3; 4]) (ratio 7 2) 4 _ _ _ _ _).
  - reflexivity.
  - unfold INT_MAX. lia.
  - reflexivity.
  - reflexivity.
  - vm_compute. split; [intro H; discriminate H | reflexivity].
Defined.

(** ** Randomizer: determinism *)

Module RandomizerHFacts.
Import RandomizerH RandomizerHRuns.

Section Determinism.

Context {FO : FloatOps}.

Lemma randomizer_ext (r1 r2 : qx_randomizer) :
  seed r1 = seed r2 -> min r1 = min r2 -> max r1 = max r2 ->
  resolution r1 = resolution r2 -> range r1 = range r2 ->
  inv_max_uint r1 = inv_max_uint r2 -> max_steps r1 = max_steps r2 -> r1 = r2.
Proof. destruct r1, r2. cbn. intros -> -> -> -> -> -> ->. reflexivity. Qed.

Lemma caches_init mn mx res r : qx_randomizer_init mn mx res = Some r -> caches_ok r.
Proof.
  unfold qx_randomizer_init. destruct (steps_of (fsub mx mn) res) as [ms|] eqn:E; [|discriminate].
  cbn [bind]. intro H. injection H as <-. unfold caches_ok. cbn. auto.
Qed.

Lemma caches_do r c r' : caches_ok r -> rand_do r c = Some r' -> caches_ok r'.
Proof.
  intros (Hr & Hi & Hs). destruct c as [s|mn mx|res|]; cbn [rand_do].
  - intro H. injection H as <-. unfold caches_ok. cbn. auto.
  - unfold qx_randomizer_set_range.
    destruct (steps_of (fsub mx mn) (resolution r)) as [ms|] eqn:E; [|discriminate].
    cbn [bind]. intro H. injection H as <-. unfold caches_ok. cbn. auto.
  - unfold qx_randomizer_set_resolution.
    destruct (steps_of (range r) res) as [ms|] eqn:E; [|discriminate].
    cbn [bind]. intro H. injection H as <-. unfold caches_ok. cbn. auto.
  - unfold qx_randomizer_get_float.
    destruct (int_add (max_steps r) 1) as [n|]; [|discriminate]. cbn [bind].
    destruct (int_of_float _) as [st|]; [|discriminate]. cbn [bind fst].
    intro H. injection H as <-. unfold caches_ok. cbn. auto.
Qed.

Lemma caches_run cs : forall r r', caches_ok r -> rand_run r cs = Some r' -> caches_ok r'.
Proof.
  induction cs as [|c cs IH]; intros r r' Hok H.
  - cbn in H. injection H as <-. exact Hok.
  - cbn [rand_run] in H. destruct (rand_do r c) as [r1|] eqn:E; [|discriminate].
    cbn [bind] in H. apply (IH r1); [|exact H]. apply (caches_do r c); assumption.
Qed.

Lemma configured_caches r : configured r -> caches_ok r.
Proof.
  intros (mn & mx & res & r0 & cs & Hi & Hr).
  apply (caches_run cs r0); [|exact Hr]. apply (caches_init mn mx res). exact Hi.
Qed.

(** The configuration determines the whole state. *)
Lemma configured_state r1 r2 :
  configured r1 -> configured r2 ->
  seed r1 = seed r2 -> min r1 = min r2 -> max r1 = max r2 ->
  resolution r1 = resolution r2 -> r1 = r2.
Proof.
  intros C1 C2 Hs Hmn Hmx Hres.
  destruct (configured_caches r1 C1) as (R1 & I1 & S1).
  destruct (configured_caches r2 C2) as (R2 & I2 & S2).
  assert (Hrange : range r1 = range r2) by (rewrite R1, R2, Hmn, Hmx; reflexivity).
  apply randomizer_ext; try assumption.
  - rewrite I1, I2. reflexivity.
  - rewrite Hrange, Hres in S1. rewrite S1 in S2. injection S2 as ->. reflexivity.
Qed.

End Determinism.
End RandomizerHFacts.

Lemma randomizerC_ext {FO : FloatOps} (r1 r2 : RandomizerC.qx_randomizer) :
  RandomizerC.seed r1 = RandomizerC.seed r2 -> RandomizerC.min r1 = RandomizerC.min r2 ->
  RandomizerC.max r1 = RandomizerC.max r2 ->
  RandomizerC.resolution r1 = RandomizerC.resolution r2 -> r1 = r2.
Proof. destruct r1, r2. cbn. intros -> -> -> ->. reflexivity. Qed.

(** C6: two instances of the randomizer with the same seed, minimum,
    maximum and resolution return the same values draw for draw, in either
    arithmetic: for the header variant whenever both were set up through its
    API (so that the cached fields agree with the configuration), for the
    [.c] variant always.  Nothing but these four fields enters a draw. *)
Theorem C6_randomizer_deterministic :
  (forall (FO : FloatOps) (r1 r2 : RandomizerH.qx_randomizer),
     configured r1 -> configured r2 ->
     RandomizerH.seed r1 = RandomizerH.seed r2 ->
     RandomizerH.min r1 = RandomizerH.min r2 ->
     RandomizerH.max r1 = RandomizerH.max r2 ->
     RandomizerH.resolution r1 = RandomizerH.resolution r2 ->
     forall n, RandomizerHRuns.draws n r1 = RandomizerHRuns.draws n r2) /\
  (forall (FO : FloatOps) (r1 r2 : RandomizerC.qx_randomizer),
     RandomizerC.seed r1 = RandomizerC.seed r2 ->
     RandomizerC.min r1 = RandomizerC.min r2 ->
     RandomizerC.max r1 = RandomizerC.max r2 ->
     RandomizerC.resolution r1 = RandomizerC.resolution r2 ->
     forall n, RandomizerCRuns.draws n r1 = RandomizerCRuns.draws n r2).
Proof.
  split.
  - intros FO r1 r2 C1 C2 Hs Hmn Hmx Hres n.
    rewrite (RandomizerHFacts.configured_state r1 r2 C1 C2 Hs Hmn Hmx Hres). reflexivity.
  - intros FO r1 r2 Hs Hmn Hmx Hres n.
    rewrite (randomizerC_ext r1 r2 Hs Hmn Hmx Hres). reflexivity.
Qed.

Lemma seeded_randomizer_configured : configured seeded_randomizer.
Proof.
  exists 0%Q, 1%Q, (1 # 10)%Q,
    (RandomizerH.mk_randomizer (FO := exact) 856382025 0%Q 1%Q (1 # 10)%Q (1 - 0)%Q
       (1 / inject_Z UINT32_MAX)%Q 10),
    [RandomizerHRuns.call_set_seed 42].
  split; reflexivity.
Defined.

Lemma C6_randomizer_deterministic_witness :
  RandomizerHRuns.draws 3 seeded_randomizer = RandomizerHRuns.draws 3 seeded_randomizer.
Proof.
  exact (proj1 C6_randomizer_deterministic exact seeded_randomizer seeded_randomizer
           seeded_randomizer_configured seeded_randomizer_configured
           eq_refl eq_refl eq_refl eq_refl 3%nat).
Defined.

(** ** Randomizer: range of the draws, default resolution *)

Lemma SFmul_not_nan (a b : float32) :
  is_nan a = false -> is_finite b = true -> flt f0 b = true ->
  is_nan (SFmul prec emax a b) = false.
Proof.
  intros Na Fb Pb.
  destruct b as [sb|sb| |sb mb eb]; try discriminate.
  destruct a as [sa|sa| |sa ma ea]; try discriminate; cbn [SFmul]; try reflexivity.
  apply binary_round_aux_not_nan. lia.
Qed.

Lemma of_int_not_nan z : is_nan (of_int z) = false.
Proof. apply binary_normalize_not_nan. Qed.

Lemma randomizerC_draw_in_range (rand rand' : RandomizerC.qx_randomizer (FO := binary32))
      (v : float32) :
  fle (RandomizerC.min rand) (RandomizerC.max rand) = true ->
  is_finite (RandomizerC.min rand) = true ->
  flt f0 (RandomizerC.resolution rand) = true ->
  is_finite (RandomizerC.resolution rand) = true ->
  RandomizerC.qx_randomizer_get_float rand = Some (rand', v) ->
  fle (RandomizerC.min rand) v = true /\ fle v (RandomizerC.max rand) = true.
Proof.
  intros Hmm Fmin Pres Fres H.
  destruct (SFleb_not_nan _ _ Hmm) as [Nmin Nmax].
  unfold RandomizerC.qx_randomizer_get_float in H.
  destruct (int_of_float _) as [k|]; [|discriminate]. cbn [bind] in H.
  injection H as _ <-. unfold fgt. b32_ops.
  set (q := SFadd prec emax (RandomizerC.min rand)
              (SFmul prec emax (of_int k) (RandomizerC.resolution rand))).
  assert (Nq : is_nan q = false).
  { apply SFadd_not_nan; [exact Fmin|].
    apply SFmul_not_nan; [apply of_int_not_nan | exact Fres | exact Pres]. }
  destruct (SFltb q (RandomizerC.min rand)) eqn:L.
  - split; [apply SFleb_refl; exact Nmin | exact Hmm].
  - destruct (SFltb (RandomizerC.max rand) q) eqn:G.
    + split; [exact Hmm | apply SFleb_refl; exact Nmax].
    + split; apply SFltb_false_leb; assumption.
Qed.

Lemma randomizerC_init_resolution (mn mx res : float32) :
  (fle res f0 = true ->
   RandomizerC.resolution (RandomizerC.qx_randomizer_init mn mx res) = f1) /\
  (flt f0 res = true ->
   RandomizerC.resolution (RandomizerC.qx_randomizer_init mn mx res) = res).
Proof.
  cbn [RandomizerC.qx_randomizer_init RandomizerC.resolution]. split; intro H.
  - rewrite H. reflexivity.
  - b32_ops. unfold SFltb in H. unfold SFleb. rewrite (SFcompare_antisym _ res).
    destruct (SFcompare _ res) as [[| |]|]; try discriminate. reflexivity.
Qed.

(** C1: the draws of the [.c] randomizer lie in [min, max] (for
    [max >= min], [resolution > 0], both finite), while the header
    randomizer, on the range [0, 2.75] with resolution 1 and seed 1327,
    returns 3.0. *)
Theorem C1_randomizer_range :
  (forall (rand rand' : RandomizerC.qx_randomizer (FO := binary32)) (v : float32),
     fle (RandomizerC.min rand) (RandomizerC.max rand) = true ->
     is_finite (RandomizerC.min rand) = true ->
     flt f0 (RandomizerC.resolution rand) = true ->
     is_finite (RandomizerC.resolution rand) = true ->
     RandomizerC.qx_randomizer_get_float rand = Some (rand', v) ->
     fle (RandomizerC.min rand) v = true /\ fle v (RandomizerC.max rand) = true) /\
  overshooting_draw = Some (of_int 3) /\
  flt (ratio 11 4 : float32) (of_int 3) = true.
Proof.
  split; [exact randomizerC_draw_in_range|].
  split; vm_compute; reflexivity.
Qed.

(** C3: the [.c] randomizer stores 1.0 for a resolution [<= 0] and the
    given value for a resolution [> 0]; the header's [qx_randomizer_init]
    stores whatever it is given, -1.0 included, and its conversion to [int]
    is undefined for the resolution 0. *)
Theorem C3_resolution_default :
  (forall mn mx res : float32,
     (fle res f0 = true ->
      RandomizerC.resolution (RandomizerC.qx_randomizer_init mn mx res) = f1) /\
     (flt f0 res = true ->
      RandomizerC.resolution (RandomizerC.qx_randomizer_init mn mx res) = res)) /\
  (forall (mn mx res : float32) (r : RandomizerH.qx_randomizer),
     RandomizerH.qx_randomizer_init mn mx res = Some r -> RandomizerH.resolution r = res) /\
  header_init_resolution (of_int 0) (of_int 1) (of_int (-1)) = Some (of_int (-1)) /\
  header_init_resolution (of_int 0) (of_int 1) (of_int 0) = None.
Proof.
  split; [exact randomizerC_init_resolution|].
  split.
  - intros mn mx res r. unfold RandomizerH.qx_randomizer_init.
    destruct (RandomizerH.steps_of _ _); [|discriminate]. cbn [bind].
    intro H. injection H as <-. reflexivity.
  - split; vm_compute; reflexivity.
Qed.


Lemma C1_randomizer_range_witness :
  exists (rand' : RandomizerC.qx_randomizer (FO := binary32)) (v : float32),
    RandomizerC.qx_randomizer_get_float unit_randomizer = Some (rand', v) /\
    fle (RandomizerC.min unit_randomizer) v = true /\
    fle v (RandomizerC.max unit_randomizer) = true.
Proof.
  assert (E : exists (rand' : RandomizerC.qx_randomizer (FO := binary32)) (v : float32),
             RandomizerC.qx_randomizer_get_float unit_randomizer = Some (rand', v)).
  { unfold RandomizerC.qx_randomizer_get_float.
    match goal with
    | |- context [bind ?c _] =>
        assert (K : c = Some 5) by (vm_compute; reflexivity); rewrite K
    end.
    cbn [bind]. eexists. eexists. reflexivity. }
  destruct E as (rand' & v & E). exists rand', v. split; [exact E|].
  refine (proj1 C1_randomizer_range unit_randomizer rand' v _ _ _ _ E);
    vm_compute; reflexivity.
Defined.

Lemma C3_resolution_default_witness :
  RandomizerC.resolution
    (RandomizerC.qx_randomizer_init (FO := binary32) (of_int 0) (of_int 1) (of_int (-1)))
  = f1.
Proof.
  refine (proj1 (proj1 C3_resolution_default (of_int 0) (of_int 1) (of_int (-1))) _).
  vm_compute. reflexivity.
Defined.

(** ** binary32: products and quotients are well-formed and keep their sign *)

Lemma shr_fexp_gen (m e : Z) (l : location) :
  0 <= m ->
  snd (shr_fexp prec emax m e l) = e + Z.max 0 (fexp prec emax (Zdigits2 m + e) - e) /\
  shr_m (fst (shr_fexp prec emax m e l))
  = m / 2 ^ Z.max 0 (fexp prec emax (Zdigits2 m + e) - e).
Proof.
  intro Hm. unfold shr_fexp.
  set (n := fexp prec emax (Zdigits2 m + e) - e).
  assert (M0 : shr_m (shr_record_of_loc m l) = m) by (destruct l as [|[| |]]; reflexivity).
  unfold shr. destruct n as [|p|p] eqn:En; cbn [fst snd].
  - cbn. rewrite Z.div_1_r. split; [lia | exact M0].
  - replace (Z.max 0 (Zpos p)) with (Zpos p) by lia.
    pose proof (iter_shr_rel p (shr_record_of_loc m l) ltac:(rewrite M0; exact Hm))
      as (_ & H1 & _).
    rewrite M0 in H1. split; [reflexivity | exact H1].
  - cbn. rewrite Z.div_1_r. split; [lia | exact M0].
Qed.

Lemma Zdigits2_bounds (m : Z) :
  0 < m -> 2 ^ (Zdigits2 m - 1) <= m < 2 ^ Zdigits2 m.
Proof. destruct m as [|p|p]; try lia. intros _. apply digits2_bounds. Qed.

(** The result of rounding is zero, a canonical finite value or an
    infinity, of the sign given. *)
Lemma round_aux_cases (sx : bool) (mz ez : Z) (l : location) :
  0 <= mz -> ez <= fexp prec emax (Zdigits2 mz + ez) ->
  binary_round_aux prec emax sx mz ez l = S754_zero sx \/
  binary_round_aux prec emax sx mz ez l = S754_infinity sx \/
  exists (m : positive) (e : Z),
    binary_round_aux prec emax sx mz ez l = S754_finite sx m e /\
    valid (S754_finite sx m e).
Proof.
  intros Hm Hfexp.
  destruct (shr_fexp_gen mz ez l Hm) as (E & M).
  rewrite fexp_eq in Hfexp, E, M.
  set (d := Zdigits2 mz) in *.
  set (k := Z.max 0 (Z.max (d + ez - 24) (-149) - ez)) in *.
  assert (Hk : 0 <= k) by lia.
  assert (Pk : 0 < 2 ^ k) by (apply Z.pow_pos_nonneg; lia).
  unfold binary_round_aux.
  destruct (shr_fexp prec emax mz ez l) as [mrs' e'] eqn:S1.
  cbn [fst snd] in E, M.
  assert (He' : -149 <= e') by lia.
  assert (Hm' : 0 <= shr_m mrs') by (rewrite M; apply Z.div_pos; lia).
  (* the shape of the truncated mantissa *)
  assert (Shape : (shr_m mrs' = 0 /\ e' = -149) \/
                  (exists d', 1 <= d' <= 24 /\ (d' = 24 \/ e' = -149) /\
                              2 ^ (d' - 1) <= shr_m mrs' < 2 ^ d')).
  { destruct (Z.eq_dec mz 0) as [Z0|NZ].
    - left. subst mz. rewrite M. cbn in d. subst d. split; [reflexivity|]. lia.
    - assert (Pz : 0 < mz) by lia.
      pose proof (Zdigits2_bounds mz Pz) as Dz. fold d in Dz.
      assert (Hd : 0 < d).
      { unfold d. destruct mz; try lia. cbn. lia. }
      destruct (Z.ltb_spec k d) as [Lk|Gk].
      + right. exists (d - k). split; [lia|]. split; [lia|].
        rewrite M. replace (d - k - 1) with (d - k - 1) by lia.
        apply div_pow2_bounds; [lia | exact Dz].
      + left. split; [|lia]. rewrite M. apply Z.div_small. split; [lia|].
        apply Z.lt_le_trans with (2 ^ d); [lia|]. apply Z.pow_le_mono_r; lia. }
  assert (Fin : forall m1 d', 1 <= d' <= 24 -> (d' = 24 \/ e' = -149) ->
              2 ^ (d' - 1) <= Zpos m1 <= 2 ^ d' ->
              exists m'' e'',
                shr_fexp prec emax (Zpos m1) e' loc_Exact
                = (fst (shr_fexp prec emax (Zpos m1) e' loc_Exact), e'') /\
                shr_m (fst (shr_fexp prec emax (Zpos m1) e' loc_Exact)) = Zpos m'' /\
                canonical_mantissa prec emax m'' e'' = true).
  { intros m1 d' Hd' Hc Hb.
    destruct (renorm m1 e' d' He' Hd' Hc Hb) as (m'' & S2 & C2 & _ & _).
    exists m'', (snd (shr_fexp prec emax (Zpos m1) e' loc_Exact)).
    split; [apply surjective_pairing|]. split; assumption. }
  assert (Done : forall m1 d', 1 <= d' <= 24 -> (d' = 24 \/ e' = -149) ->
              2 ^ (d' - 1) <= Zpos m1 <= 2 ^ d' ->
              (let '(mrs'', e'') := shr_fexp prec emax (Zpos m1) e' loc_Exact in
               match shr_m mrs'' with
               | 0 => S754_zero sx
               | Zpos m => if e'' <=? emax - prec then S754_finite sx m e'' else S754_infinity sx
               | Zneg _ => S754_nan
               end) = S754_infinity sx \/
              exists m e,
              (let '(mrs'', e'') := shr_fexp prec emax (Zpos m1) e' loc_Exact in
               match shr_m mrs'' with
               | 0 => S754_zero sx
               | Zpos m => if e'' <=? emax - prec then S754_finite sx m e'' else S754_infinity sx
               | Zneg _ => S754_nan
               end) = S754_finite sx m e /\ valid (S754_finite sx m e)).
  { intros m1 d' Hd' Hc Hb.
    destruct (Fin m1 d' Hd' Hc Hb) as (m'' & e'' & S2 & M2 & C2).
    rewrite S2, M2.
    destruct (e'' <=? emax - prec) eqn:B.
    - right. exists m'', e''. split; [reflexivity|].
      unfold valid, valid_binary, bounded. rewrite C2, B. reflexivity.
    - left. reflexivity. }
  destruct Shape as [[Z0 E149]|(d' & Hd' & Hc & Hb)].
  - rewrite Z0.
    destruct (round_nearest_even_cases 0 (loc_of_shr_record mrs')) as [R|[R _]]; rewrite R.
    + left. rewrite E149. reflexivity.
    + right. apply (Done 1%positive 1); [lia | right; exact E149 | cbn; lia].
  - right.
    destruct (shr_m mrs') as [|m'|m'] eqn:Em'; [lia| |lia].
    destruct (round_nearest_even_cases (Zpos m') (loc_of_shr_record mrs')) as [R|[R _]]; rewrite R.
    + apply (Done m' d'); [lia | exact Hc | lia].
    + replace (Zpos m' + 1) with (Zpos (m' + 1)) by lia.
      apply (Done (m' + 1)%positive d'); [lia | exact Hc | lia].
Qed.

Lemma mul_round_ready (mx my : positive) (ex ey : Z) :
  canonical_mantissa prec emax mx ex = true ->
  canonical_mantissa prec emax my ey = true ->
  ex + ey <= fexp prec emax (Zdigits2 (Zpos (mx * my)) + (ex + ey)).
Proof.
  intros Cx Cy.
  destruct (canonical_facts mx ex Cx) as (Ex & Mx & Nx).
  destruct (canonical_facts my ey Cy) as (Ey & My & Ny).
  rewrite fexp_eq. cbn [Zdigits2].
  pose proof (digits2_bounds (mx * my)) as [_ Dhi].
  set (D := Zpos (digits2_pos (mx * my))) in *.
  assert (HD : 0 < D) by (unfold D; lia).
  assert (Low : forall n, 0 <= n -> 2 ^ n <= Zpos (mx * my) -> n < D).
  { intros n Hn Hle. apply (Z.pow_lt_mono_r_iff 2); lia. }
  destruct (Z.eq_dec ex (-149)) as [X|X]; destruct (Z.eq_dec ey (-149)) as [Y|Y]; try lia.
  - assert (2 ^ 23 <= Zpos my) by (apply Ny; lia).
    assert (23 < D).
    { apply Low; [lia|]. rewrite Pos2Z.inj_mul. nia. }
    lia.
  - assert (2 ^ 23 <= Zpos mx) by (apply Nx; lia).
    assert (23 < D).
    { apply Low; [lia|]. rewrite Pos2Z.inj_mul. nia. }
    lia.
  - assert (2 ^ 23 <= Zpos mx) by (apply Nx; lia).
    assert (2 ^ 23 <= Zpos my) by (apply Ny; lia).
    assert (46 < D).
    { apply Low; [lia|]. rewrite Pos2Z.inj_mul.
      change (2 ^ 46) with (2 ^ 23 * 2 ^ 23). apply Z.mul_le_mono_nonneg; lia. }
    lia.
Qed.

Lemma div_round_ready (m1 m2 : positive) (e1 e2 : Z) :
  let '(q, e', l) := SFdiv_core_binary prec emax (Zpos m1) e1 (Zpos m2) e2 in
  0 <= q /\ e' <= fexp prec emax (Zdigits2 q + e').
Proof.
  unfold SFdiv_core_binary. cbn [Zdigits2].
  pose proof (digits2_bounds m1) as [D1lo D1hi].
  pose proof (digits2_bounds m2) as [D2lo D2hi].
  set (d1 := Zpos (digits2_pos m1)) in *. set (d2 := Zpos (digits2_pos m2)) in *.
  assert (H1 : 0 < d1) by (unfold d1; lia). assert (H2 : 0 < d2) by (unfold d2; lia).
  rewrite fexp_eq.
  set (e' := Z.min (Z.max (d1 + e1 - (d2 + e2) - 24) (-149)) (e1 - e2)).
  set (s := e1 - e2 - e').
  assert (Hs : 0 <= s) by (unfold s, e'; lia).
  set (m' := match s with 0 => Zpos m1 | Zpos _ => Z.shiftl (Zpos m1) s | Zneg _ => 0 end).
  assert (Em' : m' = Zpos m1 * 2 ^ s).
  { unfold m'. destruct s as [|p|p] eqn:Es; [cbn; lia| |lia].
    apply Z.shiftl_mul_pow2. lia. }
  assert (Ps : 0 < 2 ^ s) by (apply Z.pow_pos_nonneg; lia).
  pose proof (Z_div_mod m' (Zpos m2) ltac:(lia)) as DM.
  destruct (Z.div_eucl m' (Zpos m2)) as [q r] eqn:Edm.
  destruct DM as [Eq Rr].
  assert (Hq : 0 <= q) by nia.
  split; [exact Hq|]. rewrite fexp_eq.
  destruct (Z.leb_spec e' (-149)) as [L|G]; [lia|].
  assert (Hs24 : 24 + d2 - d1 <= s) by (unfold s, e' in *; lia).
  assert (Q23 : 2 ^ 23 <= q).
  { assert (Hq' : q = m' / Zpos m2).
    { apply Z.div_unique with (r := r); [lia | lia]. }
    rewrite Hq'. apply Z.div_le_lower_bound; [lia|].
    rewrite Em'.
    apply Z.le_trans with (2 ^ d2 * 2 ^ 23); [nia|].
    apply Z.le_trans with (2 ^ (d1 - 1) * 2 ^ s); [|nia].
    rewrite <- !Z.pow_add_r by lia. apply Z.pow_le_mono_r; lia. }
  assert (Pq : 0 < q) by lia.
  pose proof (Zdigits2_bounds q Pq) as [_ Qhi].
  assert (23 < Zdigits2 q).
  { apply (Z.pow_lt_mono_r_iff 2); try lia.
    destruct q; try lia. cbn. lia. }
  lia.
Qed.

Lemma SFmul_valid (x y : float32) : valid x -> valid y -> valid (SFmul prec emax x y).
Proof.
  intros Vx Vy.
  destruct x as [sx|sx| |sx mx ex]; destruct y as [sy|sy| |sy my ey]; try reflexivity.
  cbn [SFmul].
  destruct (round_aux_cases (xorb sx sy) (Zpos (mx * my)) (ex + ey) loc_Exact)
    as [R|[R|(m & e & R & V)]]; try (rewrite R; try reflexivity; exact V).
  - lia.
  - apply mul_round_ready; eapply valid_canonical; eassumption.
Qed.

Lemma SFdiv_valid (x y : float32) : valid x -> valid y -> valid (SFdiv prec emax x y).
Proof.
  intros Vx Vy.
  destruct x as [sx|sx| |sx mx ex]; destruct y as [sy|sy| |sy my ey]; try reflexivity.
  cbn [SFdiv].
  pose proof (div_round_ready mx my ex ey) as H.
  destruct (SFdiv_core_binary prec emax (Zpos mx) ex (Zpos my) ey) as [[q e'] l].
  destruct H as [Hq He].
  destruct (round_aux_cases (xorb sx sy) q e' l Hq He)
    as [R|[R|(m & e & R & V)]]; rewrite R; try reflexivity; exact V.
Qed.

Lemma round_aux_sign (s : bool) (m e : Z) (l : location) :
  0 <= m ->
  0 <= cond_Zopp s (scaled (binary_round_aux prec emax s m e l)).
Proof.
  intros Hm. unfold binary_round_aux.
  destruct (shr_fexp prec emax m e l) as [mrs' e'].
  destruct (shr_fexp prec emax _ e' loc_Exact) as [mrs'' e''].
  destruct (shr_m mrs'') as [|p|p]; cbn [scaled cond_Zopp]; try (destruct s; cbn; lia).
  destruct (e'' <=? emax - prec); cbn [scaled].
  - assert (0 <= Zpos p * 2 ^ (e'' + 149)) by (apply Z.mul_nonneg_nonneg; [lia | apply Z.pow_nonneg; lia]).
    destruct s; cbn [cond_Zopp]; lia.
  - destruct s; cbn [cond_Zopp]; lia.
Qed.

Lemma SFmul_sign (x y : float32) :
  valid x -> valid y ->
  (0 <= scaled x * scaled y -> 0 <= scaled (SFmul prec emax x y)) /\
  (scaled x * scaled y <= 0 -> scaled (SFmul prec emax x y) <= 0).
Proof.
  intros Vx Vy.
  destruct x as [sx|sx| |sx mx ex]; destruct y as [sy|sy| |sy my ey];
    cbn [SFmul]; try (cbn [scaled]; lia).
  - (* inf * inf *)
    cbn [scaled]. destruct sx, sy; cbn [xorb cond_Zopp]; nia.
  - pose proof (valid_finite_emin _ _ _ Vy) as Ey. pose proof (finite_pos my ey Ey).
    cbn [scaled]. destruct sx, sy; cbn [xorb cond_Zopp]; nia.
  - pose proof (valid_finite_emin _ _ _ Vx) as Ex. pose proof (finite_pos mx ex Ex).
    cbn [scaled]. destruct sx, sy; cbn [xorb cond_Zopp]; nia.
  - pose proof (valid_finite_emin _ _ _ Vx) as Ex. pose proof (finite_pos mx ex Ex).
    pose proof (valid_finite_emin _ _ _ Vy) as Ey. pose proof (finite_pos my ey Ey).
    pose proof (round_aux_sign (xorb sx sy) (Zpos (mx * my)) (ex + ey) loc_Exact ltac:(lia)) as S.
    cbn [scaled]. destruct sx, sy; cbn [xorb cond_Zopp] in *; split; intro; try lia; nia.
Qed.

Lemma SFdiv_sign (x y : float32) :
  valid x -> valid y -> scaled y <> 0 ->
  (0 <= scaled x * scaled y -> 0 <= scaled (SFdiv prec emax x y)) /\
  (scaled x * scaled y <= 0 -> scaled (SFdiv prec emax x y) <= 0).
Proof.
  intros Vx Vy Ny.
  destruct x as [sx|sx| |sx mx ex]; destruct y as [sy|sy| |sy my ey];
    cbn [SFdiv]; try (cbn [scaled] in *; lia).
  - pose proof (valid_finite_emin _ _ _ Vy) as Ey. pose proof (finite_pos my ey Ey).
    cbn [scaled]. destruct sx, sy; cbn [xorb cond_Zopp]; nia.
  - pose proof (valid_finite_emin _ _ _ Vx) as Ex. pose proof (finite_pos mx ex Ex).
    pose proof (valid_finite_emin _ _ _ Vy) as Ey. pose proof (finite_pos my ey Ey).
    pose proof (div_round_ready mx my ex ey) as H1.
    destruct (SFdiv_core_binary prec emax (Zpos mx) ex (Zpos my) ey) as [[q e'] l].
    destruct H1 as [Hq _].
    pose proof (round_aux_sign (xorb sx sy) q e' l Hq) as S.
    cbn [scaled]. destruct sx, sy; cbn [xorb cond_Zopp] in *; split; intro; try lia; nia.
Qed.

Lemma SFdiv_not_nan (x y : float32) :
  is_nan x = false -> is_finite y = true -> SFeqb y (of_int 0) = false ->
  is_nan (SFdiv prec emax x y) = false.
Proof.
  intros Nx Fy Zy.
  destruct x as [sx|sx| |sx mx ex]; destruct y as [sy|sy| |sy my ey];
    try discriminate; try reflexivity.
  cbn [SFdiv].
  pose proof (div_round_ready mx my ex ey) as H1.
  destruct (SFdiv_core_binary prec emax (Zpos mx) ex (Zpos my) ey) as [[q e'] l].
  destruct H1 as [Hq _]. apply binary_round_aux_not_nan. exact Hq.
Qed.

(** ** qx_math.h: clamping *)

Lemma SFleb_not_ltb (x y : spec_float) : SFleb x y = true -> SFltb y x = false.
Proof.
  unfold SFleb, SFltb. rewrite (SFcompare_antisym x y).
  destruct (SFcompare x y) as [[| |]|]; cbn; congruence.
Qed.

Lemma clamp_sf (v mn mx : spec_float) :
  is_nan v = false -> SFleb mn mx = true ->
  let r := if SFltb v mn then mn else if SFltb mx v then mx else v in
  SFleb mn r = true /\ SFleb r mx = true /\
  (SFleb mn v = true -> SFleb v mx = true -> r = v).
Proof.
  intros Nv Hle. destruct (SFleb_not_nan _ _ Hle) as [Nmn Nmx]. cbv zeta.
  destruct (SFltb v mn) eqn:L1.
  - split; [apply SFleb_refl; exact Nmn|]. split; [exact Hle|].
    intros H _. apply SFleb_not_ltb in H. congruence.
  - destruct (SFltb mx v) eqn:L2.
    + split; [exact Hle|]. split; [apply SFleb_refl; exact Nmx|].
      intros _ H. apply SFleb_not_ltb in H. congruence.
    + split; [apply SFltb_false_leb; assumption|].
      split; [apply SFltb_false_leb; assumption | reflexivity].
Qed.

Lemma clamp_idem_sf (v mn mx : spec_float) :
  SFltb mx mn = false ->
  let clamp := fun v => if SFltb v mn then mn else if SFltb mx v then mx else v in
  clamp (clamp v) = clamp v.
Proof.
  intros H. cbv zeta beta.
  destruct (SFltb v mn) eqn:L1.
  - rewrite SFltb_irrefl, H. reflexivity.
  - destruct (SFltb mx v) eqn:L2.
    + rewrite H, SFltb_irrefl. reflexivity.
    + rewrite L1, L2. reflexivity.
Qed.

(** X1: [qx_clamp_float] returns a value of [[min, max]] whenever
    [min <= max] and the value is not NaN, and returns the value itself
    when it already lies in [[min, max]]. *)
Theorem X1_clamp_float_range :
  forall value min max : float32,
    is_nan value = false -> fle min max = true ->
    fle min (qx_clamp_float value min max) = true /\
    fle (qx_clamp_float value min max) max = true /\
    (fle min value = true -> fle value max = true ->
     qx_clamp_float value min max = value).
Proof. intros value mn mx Nv Hle. exact (clamp_sf value mn mx Nv Hle). Qed.

Lemma X1_clamp_float_range_witness :
  fle (of_int 0 : float32) (qx_clamp_float (of_int 7 : float32) (of_int 0) (of_int 5)) = true /\
  fle (qx_clamp_float (of_int 7 : float32) (of_int 0) (of_int 5)) (of_int 5 : float32) = true.
Proof.
  pose proof (X1_clamp_float_range (of_int 7 : float32) (of_int 0 : float32)
                (of_int 5 : float32) eq_refl eq_refl)
    as (H1 & H2 & _).
  split; assumption.
Defined.

(** X2: unless [max < min], clamping is idempotent (for every value,
    NaN and the infinities included); with [max < min] it is not. *)
Theorem X2_clamp_float_idempotent :
  (forall value min max : float32,
     flt max min = false ->
     qx_clamp_float (qx_clamp_float value min max) min max
     = qx_clamp_float value min max) /\
  (forall value min max : float32,
     flt max min = true -> flt value min = true ->
     qx_clamp_float value min max = min /\
     qx_clamp_float (qx_clamp_float value min max) min max = max).
Proof.
  split.
  - intros value mn mx H. exact (clamp_idem_sf value mn mx H).
  - intros value mn mx H L. unfold qx_clamp_float, fgt. b32_ops.
    rewrite L, SFltb_irrefl, H. split; reflexivity.
Qed.

Lemma X2_clamp_float_idempotent_witness :
  qx_clamp_float (qx_clamp_float (of_int 7 : float32) (of_int 0) (of_int 5)) (of_int 0) (of_int 5)
  = qx_clamp_float (of_int 7 : float32) (of_int 0) (of_int 5).
Proof.
  refine (proj1 X2_clamp_float_idempotent (of_int 7 : float32) (of_int 0 : float32)
            (of_int 5 : float32) _).
  reflexivity.
Defined.

(** X3: [qx_clamp_double], in binary64: the result lies in [[min, max]]
    whenever [min <= max] and the value is not NaN; a NaN value is
    returned as it is. *)
Theorem X3_clamp_double_range :
  forall value min max : float64,
    fle min max = true ->
    (is_nan value = false ->
     fle min (qx_clamp_double value min max) = true /\
     fle (qx_clamp_double value min max) max = true /\
     (fle min value = true -> fle value max = true ->
      qx_clamp_double value min max = value)) /\
    (is_nan value = true -> qx_clamp_double value min max = value).
Proof.
  intros value mn mx Hle. split.
  - intro Nv. exact (clamp_sf value mn mx Nv Hle).
  - intro Nv. destruct value; try discriminate.
    unfold qx_clamp_double, fgt. cbn [flt binary64]. destruct mx; reflexivity.
Qed.

Lemma X3_clamp_double_range_witness :
  qx_clamp_double (S754_nan : float64) (B64.of_int 0) (B64.of_int 5) = S754_nan.
Proof.
  refine (proj2 (X3_clamp_double_range (S754_nan : float64) (B64.of_int 0 : float64)
                  (B64.of_int 5 : float64) _) _);
    reflexivity.
Defined.

(** ** binary32: consequences of the rounding lemmas *)

Lemma scaled_zero_inv (r : float32) :
  valid r -> is_nan r = false -> scaled r = 0 -> exists s, r = S754_zero s.
Proof.
  intros V N S. destruct r as [s|s| |s m e]; try discriminate.
  - exists s. reflexivity.
  - exfalso. cbn [scaled] in S. assert (0 < 2 ^ 277) by (apply Z.pow_pos_nonneg; lia).
    destruct s; cbn [cond_Zopp] in S; lia.
  - exfalso. pose proof (finite_pos m e (valid_finite_emin _ _ _ V)).
    cbn [scaled] in S. destruct s; cbn [cond_Zopp] in S; lia.
Qed.

Lemma brackets_ge (x : float32) (V : Z) (r : float32) :
  valid x -> is_nan x = false -> scaled x <= V -> brackets V r -> scaled x <= scaled r.
Proof. intros Vx Nx H (_ & _ & B). apply (B x Vx Nx). exact H. Qed.

Lemma brackets_le (x : float32) (V : Z) (r : float32) :
  valid x -> is_nan x = false -> V <= scaled x -> brackets V r -> scaled r <= scaled x.
Proof. intros Vx Nx H (_ & _ & B). apply (B x Vx Nx). exact H. Qed.

Lemma brackets_sign (V : Z) (r : float32) :
  brackets V r ->
  (0 <= V -> 0 <= scaled r) /\ (V <= 0 -> scaled r <= 0) /\
  (0 < V -> 0 < scaled r) /\ (V < 0 -> scaled r < 0).
Proof.
  intro B.
  assert (V1 : valid (S754_finite false 1 (-149))) by reflexivity.
  assert (V2 : valid (S754_finite true 1 (-149))) by reflexivity.
  repeat split; intro H.
  - apply (brackets_ge (S754_zero false) V r); [reflexivity | reflexivity | exact H | exact B].
  - apply (brackets_le (S754_zero false) V r); [reflexivity | reflexivity | exact H | exact B].
  - pose proof (brackets_ge (S754_finite false 1 (-149)) V r V1 eq_refl) as K.
    cbn in K. specialize (K ltac:(lia) B). lia.
  - pose proof (brackets_le (S754_finite true 1 (-149)) V r V2 eq_refl) as K.
    cbn in K. specialize (K ltac:(lia) B). lia.
Qed.

Lemma brackets_zero_inv (r : float32) : brackets 0 r -> exists s, r = S754_zero s.
Proof.
  intro B. destruct (brackets_sign 0 r B) as (H1 & H2 & _).
  destruct B as (V & N & _). apply scaled_zero_inv; [exact V | exact N | lia].
Qed.

Lemma SFmul_finite_not_nan (a b : float32) :
  is_finite a = true -> is_finite b = true -> is_nan (SFmul prec emax a b) = false.
Proof.
  intros Fa Fb.
  destruct a as [sa|sa| |sa ma ea]; destruct b as [sb|sb| |sb mb eb];
    try discriminate; try reflexivity.
  cbn [SFmul]. apply binary_round_aux_not_nan. lia.
Qed.

Lemma valid_not_nan_cases (x : float32) :
  is_nan x = false -> is_finite x = true \/ exists s, x = S754_infinity s.
Proof.
  destruct x as [s|s| |s m e]; intro N; try discriminate; auto. right. exists s. reflexivity.
Qed.

Lemma finite_not_nan (x : float32) : is_finite x = true -> is_nan x = false.
Proof. destruct x; intro; try discriminate; reflexivity. Qed.

(** Adding a value that is not negative never gives less. *)
Lemma add_nonneg_ge (x p : float32) :
  valid x -> valid p -> is_finite x = true -> is_nan p = false -> 0 <= scaled p ->
  valid (SFadd prec emax x p) /\ is_nan (SFadd prec emax x p) = false /\
  scaled x <= scaled (SFadd prec emax x p).
Proof.
  intros Vx Vp Fx Np Sp.
  destruct (valid_not_nan_cases p Np) as [Fp|[s ->]].
  - pose proof (SFadd_brackets x p Vx Vp Fx Fp) as B.
    split; [apply B|]. split; [apply B|].
    apply (brackets_ge x (scaled x + scaled p) _ Vx); [apply finite_not_nan; exact Fx | lia | exact B].
  - destruct s.
    + exfalso. cbn in Sp. lia.
    + pose proof (scaled_bound x Vx).
      destruct x; try discriminate; cbn [SFadd]; repeat split; cbn [scaled cond_Zopp] in *; lia.
Qed.

Lemma add_nonpos_le (x p : float32) :
  valid x -> valid p -> is_finite x = true -> is_nan p = false -> scaled p <= 0 ->
  valid (SFadd prec emax x p) /\ is_nan (SFadd prec emax x p) = false /\
  scaled (SFadd prec emax x p) <= scaled x.
Proof.
  intros Vx Vp Fx Np Sp.
  destruct (valid_not_nan_cases p Np) as [Fp|[s ->]].
  - pose proof (SFadd_brackets x p Vx Vp Fx Fp) as B.
    split; [apply B|]. split; [apply B|].
    apply (brackets_le x (scaled x + scaled p) _ Vx); [apply finite_not_nan; exact Fx | lia | exact B].
  - destruct s.
    + pose proof (scaled_bound x Vx).
      destruct x; try discriminate; cbn [SFadd]; repeat split; cbn [scaled cond_Zopp] in *; lia.
    + exfalso. cbn in Sp. lia.
Qed.


(** ** qx_math.h: normalize and denormalize *)

Lemma SFleb_true_scaled (x y : float32) :
  valid x -> valid y -> SFleb x y = true -> scaled x <= scaled y.
Proof.
  intros Vx Vy H. destruct (SFleb_not_nan _ _ H) as [Nx Ny].
  rewrite (SFleb_scaled x y Vx Vy Nx Ny) in H. apply Z.leb_le. exact H.
Qed.

Lemma f0_zero : f0 (FO := binary32) = S754_zero false.
Proof. reflexivity. Qed.

(** X6: in binary32, for finite [min <= max] whose difference does not
    overflow and a finite [normalized >= 0], [qx_denormalize_float] never
    returns less than [min], and it returns [min] for [normalized = 0]. *)
Theorem X6_denormalize_lower_bound :
  forall n mn mx : float32,
    valid n -> valid mn -> valid mx ->
    is_finite n = true -> is_finite mn = true -> is_finite mx = true ->
    is_finite (fsub mx mn) = true ->
    fle f0 n = true -> fle mn mx = true ->
    fle mn (qx_denormalize_float n mn mx) = true /\
    feq (qx_denormalize_float f0 mn mx) mn = true.
Proof.
  intros n mn mx Vn Vmn Vmx Fn Fmn Fmx Fd Hn Hle.
  unfold qx_denormalize_float. b32_ops.
  pose proof (SFsub_brackets mx mn Vmx Vmn Fmx Fmn) as Bd.
  set (d := SFsub prec emax mx mn) in *.
  pose proof (SFleb_true_scaled mn mx Vmn Vmx Hle) as Smn.
  pose proof (SFleb_true_scaled _ n valid_f0 Vn Hn) as Sn. rewrite scaled_f0 in Sn.
  destruct (brackets_sign _ _ Bd) as (Sd & _). specialize (Sd ltac:(lia)).
  destruct Bd as (Vd & Nd & _).
  split.
  - pose proof (SFmul_valid n d Vn Vd) as Vp.
    pose proof (SFmul_finite_not_nan n d Fn Fd) as Np.
    destruct (SFmul_sign n d Vn Vd) as (Sp & _). specialize (Sp ltac:(nia)).
    destruct (add_nonneg_ge mn _ Vmn Vp Fmn Np Sp) as (Vr & Nr & Sr).
    rewrite (SFleb_scaled mn _ Vmn Vr (finite_not_nan _ Fmn) Nr). apply Z.leb_le. exact Sr.
  - rewrite f0_zero.
    destruct d as [sd|sd| |sd md ed]; try discriminate;
      destruct mn as [s|s| |s m e]; try discriminate; cbn [SFmul SFadd xorb].
    + destruct s, sd; reflexivity.
    + unfold SFeqb. rewrite SFcompare_refl; reflexivity.
    + destruct s, sd; reflexivity.
    + unfold SFeqb. rewrite SFcompare_refl; reflexivity.
Qed.

Lemma X6_denormalize_lower_bound_witness :
  fle (of_int 2 : float32) (qx_denormalize_float (ratio 1 4 : float32) (of_int 2) (of_int 6)) = true.
Proof.
  refine (proj1 (X6_denormalize_lower_bound (ratio 1 4 : float32) (of_int 2 : float32)
                   (of_int 6 : float32) _ _ _ _ _ _ _ _ _)); reflexivity.
Defined.

(** X7: in binary32, for finite arguments: when [min == max],
    [qx_normalize_float] divides by zero and its result is never a finite
    number (it is an infinity or NaN); when [min <> max], it maps [min]
    to zero. *)
Theorem X7_normalize_edges :
  forall v mn mx : float32,
    valid v -> valid mn -> valid mx ->
    is_finite v = true -> is_finite mn = true -> is_finite mx = true ->
    (feq mn mx = true -> is_finite (qx_normalize_float v mn mx) = false) /\
    (feq mn mx = false -> feq (qx_normalize_float mn mn mx) f0 = true).
Proof.
  intros v mn mx Vv Vmn Vmx Fv Fmn Fmx.
  pose proof (finite_not_nan _ Fmn) as Nmn. pose proof (finite_not_nan _ Fmx) as Nmx.
  unfold qx_normalize_float. b32_ops.
  pose proof (SFsub_brackets mx mn Vmx Vmn Fmx Fmn) as Bd.
  rewrite (SFeqb_scaled mn mx Vmn Vmx Nmn Nmx).
  split; intro E.
  - apply Z.eqb_eq in E. rewrite E, Z.sub_diag in Bd.
    destruct (brackets_zero_inv _ Bd) as [s ->].
    pose proof (SFsub_brackets v mn Vv Vmn Fv Fmn) as (_ & Na & _).
    destruct (SFsub prec emax v mn); try discriminate; reflexivity.
  - apply Z.eqb_neq in E.
    pose proof (SFsub_brackets mn mn Vmn Vmn Fmn Fmn) as Ba. rewrite Z.sub_diag in Ba.
    destruct (brackets_zero_inv _ Ba) as [s ->].
    destruct (brackets_sign _ _ Bd) as (_ & _ & Pd & Qd).
    destruct Bd as (_ & Nd & _).
    destruct (SFsub prec emax mx mn) as [sd|sd| |sd md ed]; try discriminate.
    + exfalso. cbn [scaled] in *. lia.
    + destruct s, sd; reflexivity.
    + destruct s, sd; reflexivity.
Qed.

Lemma X7_normalize_edges_witness :
  is_finite (qx_normalize_float (of_int 3 : float32) (of_int 2) (of_int 2)) = false.
Proof.
  refine (proj1 (X7_normalize_edges (of_int 3 : float32) (of_int 2 : float32)
                   (of_int 2 : float32) _ _ _ _ _ _) _); reflexivity.
Defined.

(** ** qx_math.h: what [qx_wrapf] returns in binary32 *)

Lemma SFadd_valid (x y : float32) : valid x -> valid y -> valid (SFadd prec emax x y).
Proof.
  intros Vx Vy.
  destruct (is_finite x) eqn:Fx; destruct (is_finite y) eqn:Fy.
  - apply (SFadd_brackets x y Vx Vy Fx Fy).
  - destruct x as [s|s| |s m e]; destruct y as [s'|s'| |s' m' e']; try discriminate;
      try reflexivity; try assumption.
  - destruct x as [s|s| |s m e]; destruct y as [s'|s'| |s' m' e']; try discriminate;
      try reflexivity; try assumption.
  - destruct x as [s|s| |s m e]; destruct y as [s'|s'| |s' m' e']; try discriminate;
      try reflexivity; destruct s, s'; reflexivity.
Qed.

Lemma SFsub_valid (x y : float32) : valid x -> valid y -> valid (SFsub prec emax x y).
Proof.
  intros Vx Vy.
  destruct (is_finite x) eqn:Fx; destruct (is_finite y) eqn:Fy.
  - apply (SFsub_brackets x y Vx Vy Fx Fy).
  - destruct x as [s|s| |s m e]; destruct y as [s'|s'| |s' m' e']; try discriminate;
      try reflexivity; try assumption.
  - destruct x as [s|s| |s m e]; destruct y as [s'|s'| |s' m' e']; try discriminate;
      try reflexivity; try assumption.
  - destruct x as [s|s| |s m e]; destruct y as [s'|s'| |s' m' e']; try discriminate;
      try reflexivity; destruct s, s'; reflexivity.
Qed.

Lemma SFleb_false_ltb (x y : float32) :
  is_nan x = false -> is_nan y = false -> SFleb x y = false -> SFltb y x = true.
Proof.
  intros Nx Ny. unfold SFleb, SFltb. rewrite (SFcompare_antisym x y).
  destruct (SFcompare x y) as [[| |]|] eqn:E; cbn; try congruence.
  intros _. exfalso. apply SFcompare_nan in E. destruct E; congruence.
Qed.

(** Subtracting something not greater leaves a value that is not negative. *)
Lemma sub_le_nonneg (x m : float32) :
  valid x -> valid m -> SFleb m x = true -> 0 <= scaled (SFsub prec emax x m).
Proof.
  intros Vx Vm H. pose proof (SFleb_true_scaled m x Vm Vx H) as S.
  destruct (SFleb_not_nan _ _ H) as [Nm Nx].
  destruct (is_finite x) eqn:Fx; destruct (is_finite m) eqn:Fm.
  - pose proof (SFsub_brackets x m Vx Vm Fx Fm) as B.
    apply (brackets_sign _ _ B). lia.
  - pose proof (scaled_bound x Vx). assert (0 < 2 ^ 277) by (apply Z.pow_pos_nonneg; lia).
    destruct m as [s|s| |s m' e']; try discriminate.
    destruct x as [sx|sx| |sx mx ex]; try discriminate;
      destruct s; cbn [SFsub scaled cond_Zopp negb] in *; try lia.
    pose proof (finite_bound _ _ _ Vx). destruct sx; cbn [cond_Zopp] in *; lia.
  - pose proof (scaled_bound m Vm). assert (0 < 2 ^ 277) by (apply Z.pow_pos_nonneg; lia).
    destruct x as [s|s| |s m' e']; try discriminate.
    destruct m as [sx|sx| |sx mx ex]; try discriminate;
      destruct s; cbn [SFsub scaled cond_Zopp negb] in *; try lia.
    pose proof (finite_bound _ _ _ Vm). destruct sx; cbn [cond_Zopp] in *; lia.
  - destruct x as [s|s| |s m' e']; try discriminate.
    destruct m as [sx|sx| |sx mx ex]; try discriminate.
    assert (0 < 2 ^ 277) by (apply Z.pow_pos_nonneg; lia).
    destruct s, sx; cbn [SFsub scaled cond_Zopp negb] in *; lia.
Qed.

Lemma wrap_up_result (fuel : nat) : forall x max y : float32,
  valid x -> valid max -> wrap_up fuel x max = Some y ->
  valid y /\ flt y f0 = false.
Proof.
  induction fuel as [|n IH]; intros x max y Vx Vm H; [discriminate|].
  cbn [wrap_up] in H. destruct (flt x f0) eqn:L.
  - apply (IH _ _ _ (SFadd_valid x max Vx Vm) Vm H).
  - injection H as <-. split; assumption.
Qed.

Lemma wrap_down_result (fuel : nat) : forall x max y : float32,
  valid x -> valid max -> 0 <= scaled x -> wrap_down fuel x max = Some y ->
  valid y /\ 0 <= scaled y /\ fge y max = false.
Proof.
  induction fuel as [|n IH]; intros x max y Vx Vm Sx H; [discriminate|].
  cbn [wrap_down] in H. destruct (fge x max) eqn:L.
  - apply (IH _ _ _ (SFsub_valid x max Vx Vm) Vm); [|exact H].
    apply sub_le_nonneg; assumption.
  - injection H as <-. repeat split; assumption.
Qed.

Lemma wrapf_in_range (fuel : nat) (x max y : float32) :
  valid x -> valid max -> is_nan max = false ->
  qx_wrapf fuel x max = Some y -> is_nan y = false ->
  fle f0 y = true /\ flt y max = true.
Proof.
  intros Vx Vm Nm H Ny.
  unfold qx_wrapf, bind in H.
  destruct (wrap_up fuel x max) as [x'|] eqn:U; [|discriminate].
  destruct (wrap_up_result fuel x max x' Vx Vm U) as [Vx' Lx'].
  assert (Sx' : 0 <= scaled x').
  { destruct (is_nan x') eqn:Nx'.
    - destruct x'; try discriminate; cbn [scaled]; lia.
    - b32_ops. rewrite (SFltb_scaled x' _ Vx' valid_f0 Nx' eq_refl), scaled_f0 in Lx'.
      apply Z.ltb_ge in Lx'. exact Lx'. }
  destruct (wrap_down_result fuel x' max y Vx' Vm Sx' H) as (Vy & Sy & Ly).
  split.
  - b32_ops. rewrite (SFleb_scaled _ y valid_f0 Vy eq_refl Ny), scaled_f0.
    apply Z.leb_le. exact Sy.
  - unfold fge in Ly. b32_ops. apply SFleb_false_ltb; assumption.
Qed.

(** X8: in binary32, whatever the fuel and the arguments, a result of
    [qx_wrapf] that is not NaN lies in [[0, max)] (for a [max] that is not
    NaN); with a NaN [max] the call returns at once, NaN for a negative
    [x] and [x] itself otherwise. *)
Theorem X8_wrapf_result_in_range :
  (forall (fuel : nat) (x max y : float32),
     valid x -> valid max -> is_nan max = false ->
     qx_wrapf fuel x max = Some y -> is_nan y = false ->
     fle f0 y = true /\ flt y max = true) /\
  (forall x : float32,
     qx_wrapf 2 x S754_nan = Some (if flt x f0 then S754_nan else x)).
Proof.
  split.
  - intros fuel x max y. apply wrapf_in_range.
  - intro x. unfold qx_wrapf. cbn [wrap_up]. destruct (flt x f0) eqn:L.
    + replace (fadd x S754_nan) with (S754_nan : float32)
        by (destruct x; reflexivity).
      reflexivity.
    + cbn [bind wrap_down]. replace (fge x S754_nan) with false; [reflexivity|].
      unfold fge. b32_ops. destruct x; reflexivity.
Qed.

Lemma X8_wrapf_result_in_range_witness :
  fle f0 (ratio 1 2 : float32) = true /\ flt (ratio 1 2 : float32) (of_int 1) = true.
Proof.
  refine (proj1 X8_wrapf_result_in_range 2%nat (ratio 3 2 : float32) (of_int 1 : float32)
            (ratio 1 2 : float32) _ _ _ _ _); reflexivity.
Defined.

(** X9: in binary32, [qx_wrapf] returns a value that already lies in
    [[0, max)] unchanged, at the first test of each loop; so wrapping a
    result of [qx_wrapf] again changes nothing. *)
Theorem X9_wrapf_idempotent :
  (forall (fuel : nat) (x max : float32),
     fle f0 x = true -> flt x max = true -> qx_wrapf (S fuel) x max = Some x) /\
  (forall (fuel : nat) (x max y : float32),
     valid x -> valid max -> is_nan max = false ->
     qx_wrapf fuel x max = Some y -> is_nan y = false ->
     qx_wrapf 1 y max = Some y).
Proof.
  assert (Fix : forall (fuel : nat) (x max : float32),
     fle f0 x = true -> flt x max = true -> qx_wrapf (S fuel) x max = Some x).
  { intros fuel x max H0 H1. unfold qx_wrapf. cbn [wrap_up].
    replace (flt x f0) with false by (symmetry; apply SFleb_not_ltb; exact H0).
    cbn [bind wrap_down]. unfold fge.
    replace (fle max x) with false; [reflexivity|].
    symmetry. b32_ops. unfold SFleb, SFltb in *. rewrite (SFcompare_antisym x max).
    destruct (SFcompare x max) as [[| |]|]; cbn; congruence. }
  split; [exact Fix|].
  intros fuel x max y Vx Vm Nm H Ny.
  destruct (wrapf_in_range fuel x max y Vx Vm Nm H Ny) as [H0 H1].
  apply Fix; assumption.
Qed.

Lemma X9_wrapf_idempotent_witness :
  qx_wrapf (FO := binary32) 1 (ratio 1 2) (of_int 1) = Some (ratio 1 2).
Proof.
  refine (proj1 X9_wrapf_idempotent 0%nat (ratio 1 2 : float32) (of_int 1 : float32) _ _);
    reflexivity.
Defined.

(** ** qx_math.h: ring-buffer interpolation at a sample position *)

Lemma of_int_exact (index : float32) (i : Z) :
  valid index -> is_finite index = true -> scaled index = i * 2 ^ 149 ->
  valid (of_int i) /\ is_finite (of_int i) = true /\ scaled (of_int i) = scaled index.
Proof.
  intros V F S. pose proof (finite_not_nan _ F) as N.
  pose proof (binary_normalize_brackets i 0 false ltac:(lia)) as B.
  change (binary_normalize prec emax i 0 false) with (of_int i) in B.
  change (0 + 149) with 149 in B. rewrite <- S in B.
  pose proof (brackets_ge index _ _ V N (Z.le_refl _) B) as H1.
  pose proof (brackets_le index _ _ V N (Z.le_refl _) B) as H2.
  destruct B as (Vi & Ni & _).
  split; [exact Vi|]. split; [|lia].
  apply finite_of_scaled; [exact Ni|].
  assert (E : scaled (of_int i) = scaled index) by lia. rewrite E.
  pose proof (scaled_bound index V).
  destruct index as [s|s| |s m e]; try discriminate.
  - cbn. lia.
  - pose proof (finite_bound _ _ _ V). cbn [scaled]. destruct s; cbn [cond_Zopp]; lia.
Qed.

(** X10: in binary32, at an index that is an integer [i] with
    [0 <= i < size], [qx_ring_interp_linear] returns the sample [buf[i]]
    (a value equal to it) provided the difference of the two neighbouring
    samples is finite; when that difference is infinite or NaN (also by
    overflow of two finite samples) the result is NaN. *)
Theorem X10_ring_interp_at_sample :
  forall (buf : list float32) (index : float32) (size i : Z) (b1 b2 : float32),
    Z.of_nat (length buf) = size -> 1 <= size < INT_MAX ->
    valid index -> is_finite index = true ->
    scaled index = i * 2 ^ 149 -> 0 <= i < size ->
    nth_error buf (Z.to_nat i) = Some b1 ->
    nth_error buf (Z.to_nat (reduce_once size (i + 1))) = Some b2 ->
    exists r : float32,
      qx_ring_interp_linear buf index size = Some r /\
      (is_finite (fsub b2 b1) = true -> feq r b1 = true) /\
      (is_finite (fsub b2 b1) = false -> is_nan r = true).
Proof.
  intros buf index size i b1 b2 Hlen Hs V F S Hi R1 R2.
  assert (P : 0 < 2 ^ 149) by (apply Z.pow_pos_nonneg; lia).
  destruct (to_int_in_range index size V F) as [Hq _].
  { unfold INT_MAX in *. lia. }
  { rewrite S. nia. }
  rewrite S, Z.quot_mul in Hq by lia.
  assert (RP : ring_positions index size = Some (i, reduce_once size (i + 1))).
  { rewrite (ring_positions_of_int index size i Hq); try (unfold INT_MAX in *; lia).
    unfold reduce_once. destruct (Z.leb_spec size i); [lia|]. reflexivity. }
  unfold qx_ring_interp_linear. rewrite RP. cbn [bind].
  assert (I2 : 0 <= reduce_once size (i + 1) < size).
  { unfold reduce_once. destruct (Z.leb_spec size (i + 1)); lia. }
  destruct (buf_read_in_bounds buf i ltac:(lia)) as (c1 & N1 & B1).
  destruct (buf_read_in_bounds buf (reduce_once size (i + 1)) ltac:(lia)) as (c2 & N2 & B2).
  rewrite R1 in N1. injection N1 as <-. rewrite R2 in N2. injection N2 as <-.
  rewrite B1, B2. cbn [bind].
  destruct (of_int_exact index i V F S) as (Vi & Fi & Si).
  pose proof (SFsub_brackets index (of_int i) V Vi F Fi) as Bk.
  rewrite Si, Z.sub_diag in Bk. destruct (brackets_zero_inv _ Bk) as [s Ek].
  b32_ops. rewrite Ek.
  eexists. split; [reflexivity|]. split; intro Fd.
  - destruct (SFsub prec emax b2 b1) as [sd|sd| |sd md ed] eqn:Ed; try discriminate.
    + destruct b1 as [s1|s1| |s1 m1 e1].
      * cbn [SFmul SFadd]. destruct s1, (xorb s sd); reflexivity.
      * destruct b2 as [s2|s2| |s2 m2 e2]; try discriminate; destruct s1, s2; discriminate.
      * destruct b2; discriminate.
      * cbn [SFmul SFadd]. unfold SFeqb. rewrite SFcompare_refl; reflexivity.
    + destruct b1 as [s1|s1| |s1 m1 e1].
      * cbn [SFmul SFadd]. destruct s1, (xorb s sd); reflexivity.
      * destruct b2 as [s2|s2| |s2 m2 e2]; try discriminate; destruct s1, s2; discriminate.
      * destruct b2; discriminate.
      * cbn [SFmul SFadd]. unfold SFeqb. rewrite SFcompare_refl; reflexivity.
  - destruct (SFsub prec emax b2 b1) as [sd|sd| |sd md ed] eqn:Ed; try discriminate;
      cbn [SFmul]; destruct b1; reflexivity.
Qed.

Lemma X10_ring_interp_at_sample_witness :
  exists r : float32,
    qx_ring_interp_linear (map of_int [1; 2; 3; 4] : list float32) (of_int 3) 4 = Some r /\
    (is_finite (fsub (of_int 1 : float32) (of_int 4)) = true -> feq r (of_int 4) = true) /\
    (is_finite (fsub (of_int 1 : float32) (of_int 4)) = false -> is_nan r = true).
Proof.
  refine (X10_ring_interp_at_sample (map of_int [1; 2; 3; 4] : list float32)
            (of_int 3 : float32) 4 3 (of_int 4 : float32) (of_int 1 : float32)
            _ _ _ _ _ _ _ _); try reflexivity.
  - unfold INT_MAX. lia.
  - lia.
Defined.

(** ** binary32: sign bits of products and quotients *)

Lemma round_aux_sign_of (s : bool) (m e : Z) (l : location) :
  0 <= m -> sign_of (binary_round_aux prec emax s m e l) = s.
Proof.
  intros Hm. pose proof (binary_round_aux_not_nan s m e l Hm) as N. revert N.
  unfold binary_round_aux.
  destruct (shr_fexp prec emax m e l) as [mrs' e'].
  destruct (shr_fexp prec emax _ e' loc_Exact) as [mrs'' e''].
  destruct (shr_m mrs'') as [|p|p]; try reflexivity; try discriminate.
  destruct (e'' <=? emax - prec); reflexivity.
Qed.

Lemma SFmul_sign_of (x y : float32) :
  is_nan (SFmul prec emax x y) = false ->
  sign_of (SFmul prec emax x y) = xorb (sign_of x) (sign_of y).
Proof.
  destruct x as [sx|sx| |sx mx ex]; destruct y as [sy|sy| |sy my ey];
    try discriminate; try reflexivity.
  intros _. cbn [SFmul sign_of]. apply round_aux_sign_of. lia.
Qed.

Lemma SFdiv_sign_of (x y : float32) :
  is_nan (SFdiv prec emax x y) = false ->
  sign_of (SFdiv prec emax x y) = xorb (sign_of x) (sign_of y).
Proof.
  destruct x as [sx|sx| |sx mx ex]; destruct y as [sy|sy| |sy my ey];
    try discriminate; try reflexivity.
  intros _. cbn [SFdiv sign_of].
  pose proof (div_round_ready mx my ex ey) as H1.
  destruct (SFdiv_core_binary prec emax (Zpos mx) ex (Zpos my) ey) as [[q e'] l].
  destruct H1 as [Hq _]. apply round_aux_sign_of. exact Hq.
Qed.

Lemma sign_of_scaled (x : float32) :
  valid x ->
  (sign_of x = false -> 0 <= scaled x) /\ (sign_of x = true -> scaled x <= 0) /\
  (0 < scaled x -> sign_of x = false) /\ (scaled x < 0 -> sign_of x = true).
Proof.
  intro V. assert (0 < 2 ^ 277) by (apply Z.pow_pos_nonneg; lia).
  destruct x as [s|s| |s m e]; cbn [sign_of scaled].
  - repeat split; intros; try lia.
  - destruct s; cbn [cond_Zopp]; repeat split; intros; try lia; try discriminate; reflexivity.
  - repeat split; intros; try lia; try discriminate.
  - pose proof (finite_pos m e (valid_finite_emin _ _ _ V)).
    destruct s; cbn [cond_Zopp]; repeat split; intros; try lia; try discriminate; reflexivity.
Qed.

Lemma SFmul_not_nan_nonzero (a b : float32) :
  is_nan a = false -> is_finite b = true -> SFeqb b (of_int 0) = false ->
  is_nan (SFmul prec emax a b) = false.
Proof.
  intros Na Fb Zb.
  destruct b as [sb|sb| |sb mb eb]; try discriminate.
  destruct a as [sa|sa| |sa ma ea]; try discriminate; cbn [SFmul]; try reflexivity.
  apply binary_round_aux_not_nan. lia.
Qed.

Lemma SFdiv_one_not_nan (b : float32) :
  is_nan b = false -> is_nan (SFdiv prec emax (of_int 1) b) = false.
Proof.
  intro Nb. change (of_int 1) with (S754_finite false 8388608 (-23)).
  destruct b as [sb|sb| |sb mb eb]; try discriminate; try reflexivity.
  cbn [SFdiv].
  pose proof (div_round_ready 8388608 mb (-23) eb) as H1.
  destruct (SFdiv_core_binary prec emax (Zpos 8388608) (-23) (Zpos mb) eb) as [[q e'] l].
  destruct H1 as [Hq _]. apply binary_round_aux_not_nan. exact Hq.
Qed.

(** ** qx_fader.h: the step computed by [qx_fader_init] *)

Lemma valid_of_int z : valid (of_int z).
Proof. apply (binary_normalize_brackets z 0 false). lia. Qed.

Lemma init_step_facts (fadeTime sample_rate : float32) :
  valid fadeTime -> valid sample_rate ->
  is_nan fadeTime = false -> is_finite sample_rate = true ->
  feq sample_rate f0 = false ->
  valid (fstep (qx_fader_init fadeTime sample_rate)) /\
  is_nan (fstep (qx_fader_init fadeTime sample_rate)) = false /\
  (flt f0 sample_rate = true ->
   sign_of (fstep (qx_fader_init fadeTime sample_rate)) = false).
Proof.
  intros Vt Vr Nt Fr Zr.
  unfold qx_fader_init. cbn [fstep]. b32_ops.
  match goal with |- context [if ?b then _ else _] => destruct b eqn:L end.
  - repeat split; reflexivity.
  - set (a := SFdiv prec emax fadeTime (of_int 1000)).
    assert (Na : is_nan a = false) by (apply SFdiv_not_nan; [exact Nt | reflexivity | reflexivity]).
    assert (Va : valid a) by (apply SFdiv_valid; [exact Vt | apply valid_of_int]).
    set (b := SFmul prec emax a sample_rate).
    assert (Nb : is_nan b = false) by (apply SFmul_not_nan_nonzero; assumption).
    assert (Vb : valid b) by (apply SFmul_valid; assumption).
    split; [apply SFdiv_valid; [apply valid_f1 | exact Vb]|].
    split; [apply SFdiv_one_not_nan; exact Nb|].
    intro Pr.
    rewrite SFdiv_sign_of by (apply SFdiv_one_not_nan; exact Nb).
    unfold b. rewrite SFmul_sign_of by exact Nb.
    unfold a. rewrite SFdiv_sign_of by exact Na.
    assert (St : sign_of fadeTime = false).
    { apply (sign_of_scaled fadeTime Vt).
      apply SFleb_false_ltb in L; [|exact Nt | reflexivity].
      rewrite (SFltb_scaled _ fadeTime valid_f0 Vt eq_refl Nt), scaled_f0 in L.
      apply Z.ltb_lt in L. exact L. }
    assert (Sr : sign_of sample_rate = false).
    { apply (sign_of_scaled sample_rate Vr).
      rewrite (SFltb_scaled _ sample_rate valid_f0 Vr eq_refl (finite_not_nan _ Fr)), scaled_f0 in Pr.
      apply Z.ltb_lt in Pr. exact Pr. }
    rewrite St, Sr. reflexivity.
Qed.

(** X12: for every [fadeTime] that is not NaN and every finite nonzero
    [sample_rate], the step computed by [qx_fader_init] is not NaN (it may
    be zero or infinite), so that [0 <= fade <= 1] holds after every
    sequence of [qx_fader_enable] and [qx_fader_fade] calls. *)
Theorem X12_fader_init_keeps_unit_interval :
  forall (fadeTime sample_rate : float32) (cs : list fader_call),
    valid fadeTime -> valid sample_rate ->
    is_nan fadeTime = false -> is_finite sample_rate = true ->
    feq sample_rate f0 = false ->
    is_nan (fstep (fader_run (qx_fader_init fadeTime sample_rate) cs)) = false /\
    unit_interval (fade (fader_run (qx_fader_init fadeTime sample_rate) cs)) = true.
Proof.
  intros fadeTime sample_rate cs Vt Vr Nt Fr Zr.
  destruct (init_step_facts fadeTime sample_rate Vt Vr Nt Fr Zr) as (_ & N & _).
  split.
  - rewrite fstep_run. exact N.
  - apply run_unit_interval; [reflexivity | exact N].
Qed.

Lemma X12_fader_init_keeps_unit_interval_witness :
  unit_interval
    (fade (fader_run (qx_fader_init (FO := binary32) (of_int 10) (of_int 48000))
                     [call_enable true; call_fade (of_int 1 : float32)])) = true.
Proof.
  refine (proj2 (X12_fader_init_keeps_unit_interval (of_int 10 : float32) (of_int 48000 : float32)
                   [call_enable true; call_fade (of_int 1 : float32)] _ _ _ _ _));
    reflexivity.
Defined.

(** ** qx_fader.h: a fader that was not enabled, and the instant fade *)

Lemma SFltb_not_eqb (x y : float32) : SFltb x y = true -> SFeqb y x = false.
Proof.
  unfold SFltb, SFeqb. rewrite (SFcompare_antisym x y).
  destruct (SFcompare x y) as [[| |]|]; cbn; congruence.
Qed.

Lemma idle_fade (g : qx_fader (FO := binary32)) (v : float32) :
  fade g = S754_zero false -> enabled g = false ->
  is_nan (fstep g) = false -> sign_of (fstep g) = false ->
  fst (qx_fader_fade g v) = g /\ snd (qx_fader_fade g v) = fmul v f0.
Proof.
  intros Hf He Hn Hs.
  assert (E : fade (fst (qx_fader_fade g v)) = S754_zero false).
  { unfold qx_fader_fade. cbn [fst fade]. rewrite Hf, He. b32_ops.
    destruct (fstep g) as [s|s| |s m e]; try discriminate; cbn [sign_of] in Hs; subst s;
      reflexivity. }
  split.
  - apply fader_ext; [rewrite E, Hf; reflexivity | reflexivity | reflexivity].
  - change (snd (qx_fader_fade g v)) with (fmul v (fade (fst (qx_fader_fade g v)))).
    rewrite E. reflexivity.
Qed.

(** X13: for a [fadeTime] that is not NaN and a finite positive
    [sample_rate], a fader that was initialised and never enabled stays
    as it is under [qx_fader_fade]: [fade] remains [0] and every sample is
    returned multiplied by [0]. *)
Theorem X13_fader_idle_is_silent :
  forall (fadeTime sample_rate : float32) (vals : list float32) (v : float32),
    valid fadeTime -> valid sample_rate ->
    is_nan fadeTime = false -> is_finite sample_rate = true ->
    flt f0 sample_rate = true ->
    fader_fades (qx_fader_init fadeTime sample_rate) vals = qx_fader_init fadeTime sample_rate /\
    snd (qx_fader_fade (fader_fades (qx_fader_init fadeTime sample_rate) vals) v) = fmul v f0.
Proof.
  intros fadeTime sample_rate vals v Vt Vr Nt Fr Pr.
  assert (Zr : feq sample_rate f0 = false) by (apply SFltb_not_eqb; exact Pr).
  destruct (init_step_facts fadeTime sample_rate Vt Vr Nt Fr Zr) as (_ & N & S).
  specialize (S Pr).
  set (f := qx_fader_init fadeTime sample_rate) in *.
  assert (Idle : forall w, fst (qx_fader_fade f w) = f /\ snd (qx_fader_fade f w) = fmul w f0).
  { intro w. apply idle_fade; [reflexivity | reflexivity | exact N | exact S]. }
  assert (Stay : fader_fades f vals = f).
  { induction vals as [|w ws IH]; [reflexivity|].
    cbn [fader_fades fold_left]. rewrite (proj1 (Idle w)). exact IH. }
  split; [exact Stay|]. rewrite Stay. apply Idle.
Qed.

Lemma X13_fader_idle_is_silent_witness :
  snd (qx_fader_fade
         (fader_fades (qx_fader_init (FO := binary32) (of_int 10) (of_int 48000))
                      [of_int 1 : float32; of_int 1 : float32])
         (of_int 1 : float32))
  = fmul (of_int 1 : float32) f0.
Proof.
  refine (proj2 (X13_fader_idle_is_silent (of_int 10 : float32) (of_int 48000 : float32)
                   [of_int 1 : float32; of_int 1 : float32] (of_int 1 : float32) _ _ _ _ _));
    reflexivity.
Defined.

(** X14: with [fadeTime <= 0] the fade is instant: the step is [1], the
    first [qx_fader_fade] after [qx_fader_enable(true)] sets [fade] to [1]
    and returns [val * 1], and the first one after
    [qx_fader_enable(false)] sets [fade] to [0] and returns [val * 0]. *)
Theorem X14_fader_instant_fade :
  forall fadeTime sample_rate val : float32,
    fle fadeTime f0 = true ->
    fstep (qx_fader_init fadeTime sample_rate) = f1 /\
    fade (fst (qx_fader_fade (qx_fader_enable (qx_fader_init fadeTime sample_rate) true) val))
    = f1 /\
    snd (qx_fader_fade (qx_fader_enable (qx_fader_init fadeTime sample_rate) true) val)
    = fmul val f1 /\
    fade (fst (qx_fader_fade (qx_fader_enable (qx_fader_init fadeTime sample_rate) false) val))
    = f0 /\
    snd (qx_fader_fade (qx_fader_enable (qx_fader_init fadeTime sample_rate) false) val)
    = fmul val f0.
Proof.
  intros fadeTime sample_rate val L.
  assert (S : fstep (qx_fader_init fadeTime sample_rate) = f1).
  { unfold qx_fader_init. cbn [fstep]. rewrite L. reflexivity. }
  split; [exact S|].
  unfold qx_fader_fade, qx_fader_enable. cbn [fst snd fade fstep enabled]. rewrite S.
  repeat split.
Qed.

Lemma X14_fader_instant_fade_witness :
  snd (qx_fader_fade
         (qx_fader_enable (qx_fader_init (FO := binary32) (of_int 0) (of_int 48000)) true)
         (of_int 3 : float32))
  = fmul (of_int 3 : float32) f1.
Proof.
  refine (proj1 (proj2 (proj2 (X14_fader_instant_fade (of_int 0 : float32)
                                 (of_int 48000 : float32) (of_int 3 : float32) _)))).
  reflexivity.
Defined.

(** ** qx_smoother.h: a smoother without a new target *)

Lemma fresh_smoother_next (initial : float32) (n : N) :
  qx_smoother_next (qx_smoother_init initial n) = (qx_smoother_init initial n, initial).
Proof.
  destruct (is_nan initial) eqn:Ni.
  - destruct initial; try discriminate. reflexivity.
  - apply (next_at_target (qx_smoother_init initial n)).
    cbn [qx_smoother_init current target]. b32_ops.
    unfold SFeqb. rewrite SFcompare_refl; [reflexivity | exact Ni].
Qed.

Lemma fresh_smoother_nexts (initial : float32) (n : N) (k : nat) :
  smoother_nexts k (qx_smoother_init initial n) = qx_smoother_init initial n.
Proof.
  induction k as [|k IH]; [reflexivity|].
  cbn [smoother_nexts]. rewrite fresh_smoother_next. exact IH.
Qed.

Lemma fresh_smoother_outputs (initial : float32) (n : N) (k : nat) :
  smoother_outputs k (qx_smoother_init initial n) = repeat initial k.
Proof.
  induction k as [|k IH]; [reflexivity|].
  cbn [smoother_outputs repeat]. rewrite fresh_smoother_next. cbn [fst snd].
  f_equal. exact IH.
Qed.

(** X16: in binary32, a smoother that was initialised and given no new
    target is steady: every [qx_smoother_next] returns the initial value
    and leaves the smoother as it is, [qx_smoother_get] included; this
    holds for every initial value, NaN and the infinities too. *)
Theorem X16_smoother_fresh_is_steady :
  forall (initial : float32) (n : N) (k : nat),
    smoother_nexts k (qx_smoother_init initial n) = qx_smoother_init initial n /\
    smoother_outputs k (qx_smoother_init initial n) = repeat initial k /\
    qx_smoother_get (smoother_nexts k (qx_smoother_init initial n)) = initial.
Proof.
  intros initial n k.
  split; [apply fresh_smoother_nexts|]. split; [apply fresh_smoother_outputs|].
  rewrite fresh_smoother_nexts. reflexivity.
Qed.

(** ** qx_smoother.h: in binary32 the ramp stays between start and target *)


Lemma finite_scaled_bound (x : float32) :
  valid x -> is_finite x = true -> - 2 ^ 277 < scaled x < 2 ^ 277.
Proof.
  intros V F. assert (0 < 2 ^ 277) by (apply Z.pow_pos_nonneg; lia).
  destruct x as [s|s| |s m e]; try discriminate.
  - cbn. lia.
  - pose proof (finite_bound _ _ _ V). pose proof (finite_pos m e (valid_finite_emin _ _ _ V)).
    cbn [scaled]. destruct s; cbn [cond_Zopp]; lia.
Qed.

Lemma of_size_facts (n : N) :
  (1 <= n)%N -> (n < 2 ^ 64)%N ->
  valid (of_int (Z.of_N n)) /\ is_finite (of_int (Z.of_N n)) = true /\
  0 < scaled (of_int (Z.of_N n)).
Proof.
  intros H1 H2.
  pose proof (binary_normalize_brackets (Z.of_N n) 0 false ltac:(lia)) as B.
  change (binary_normalize prec emax (Z.of_N n) 0 false) with (of_int (Z.of_N n)) in B.
  change (0 + 149) with 149 in B.
  assert (P : 0 < 2 ^ 149) by (apply Z.pow_pos_nonneg; lia).
  assert (Hn : 1 <= Z.of_N n < 2 ^ 64).
  { split; [lia|]. change (2 ^ 64) with (Z.of_N (2 ^ 64)). lia. }
  destruct (brackets_sign _ _ B) as (_ & _ & Pos & _). specialize (Pos ltac:(nia)).
  assert (Vb : valid (S754_finite false 8388608 41)) by reflexivity.
  pose proof (brackets_le (S754_finite false 8388608 41) (Z.of_N n * 2 ^ 149)
                (of_int (Z.of_N n)) Vb eq_refl) as Up.
  cbn [scaled cond_Zopp] in Up. change (41 + 149) with 190 in Up.
  change (Zpos 8388608 * 2 ^ 190) with (2 ^ 64 * 2 ^ 149) in Up.
  specialize (Up ltac:(nia) B).
  destruct B as (V & N & _).
  split; [exact V|]. split; [|exact Pos].
  apply finite_of_scaled; [exact N|].
  assert (2 ^ 64 * 2 ^ 149 < 2 ^ 277) by (rewrite <- Z.pow_add_r by lia; apply Z.pow_lt_mono_r; lia).
  lia.
Qed.

Section Ramp32Smoother.

Variables t d : float32.
Hypothesis t_valid : valid t.
Hypothesis t_finite : is_finite t = true.
Hypothesis d_valid : valid d.
Hypothesis d_not_nan : is_nan d = false.

Lemma ramping_up_next (lo : Z) (s : qx_smoother (FO := binary32)) :
  0 <= scaled d -> - 2 ^ 277 < lo ->
  ramping_up t d lo s ->
  ramping_up t d lo (fst (qx_smoother_next s)) /\
  scaled (current s) <= scaled (current (fst (qx_smoother_next s))).
Proof.
  intros Sd Hlo (Ht & Hd & Vc & Nc & Lc & Uc).
  pose proof (finite_scaled_bound t t_valid t_finite) as Bt.
  assert (Fc : is_finite (current s) = true) by (apply finite_of_scaled; [exact Nc | lia]).
  unfold qx_smoother_next. rewrite Ht, Hd.
  destruct (feq (current s) t) eqn:E.
  - cbn [fst]. split; [|lia]. unfold ramping_up. repeat split; assumption.
  - cbn [fst current target sstep]. unfold fgt. b32_ops.
    destruct (add_nonneg_ge (current s) d Vc d_valid Fc d_not_nan Sd) as (V1 & N1 & S1).
    set (c1 := SFadd prec emax (current s) d) in *.
    assert (L0 : SFltb d (f0 (FO := binary32)) = false).
    { rewrite (SFltb_scaled d _ d_valid valid_f0 d_not_nan eq_refl), scaled_f0.
      apply Z.ltb_ge. exact Sd. }
    rewrite L0. cbn [andb]. rewrite orb_false_r.
    destruct (SFltb (f0 (FO := binary32)) d && SFltb t c1) eqn:Over.
    + split; [|lia]. unfold ramping_up. cbn [current target sstep].
      repeat split; try assumption; try lia. apply finite_not_nan. exact t_finite.
    + assert (S1t : scaled c1 <= scaled t).
      { apply andb_false_iff in Over. destruct Over as [Z|G].
        - rewrite (SFltb_scaled _ d valid_f0 d_valid eq_refl d_not_nan), scaled_f0 in Z.
          apply Z.ltb_ge in Z. assert (Z0 : scaled d = 0) by lia.
          destruct (scaled_zero_inv d d_valid d_not_nan Z0) as [sd Ed].
          assert (Fd : is_finite d = true) by (rewrite Ed; reflexivity).
          pose proof (SFadd_brackets (current s) d Vc d_valid Fc Fd) as B.
          rewrite Z0, Z.add_0_r in B.
          pose proof (brackets_le (current s) _ _ Vc Nc (Z.le_refl _) B). fold c1 in H. lia.
        - rewrite (SFltb_scaled t c1 t_valid V1 (finite_not_nan _ t_finite) N1) in G.
          apply Z.ltb_ge in G. exact G. }
      split; [|exact S1]. unfold ramping_up. cbn [current target sstep].
      repeat split; try assumption; lia.
Qed.

Lemma ramping_up_nexts (lo : Z) (k : nat) : forall s : qx_smoother (FO := binary32),
  0 <= scaled d -> - 2 ^ 277 < lo ->
  ramping_up t d lo s -> ramping_up t d lo (smoother_nexts k s).
Proof.
  induction k as [|k IH]; intros s Sd Hlo R; [exact R|].
  cbn [smoother_nexts]. apply IH; try assumption.
  apply (ramping_up_next lo s Sd Hlo R).
Qed.

Lemma ramping_down_next (hi : Z) (s : qx_smoother (FO := binary32)) :
  scaled d <= 0 -> hi < 2 ^ 277 ->
  ramping_down t d hi s ->
  ramping_down t d hi (fst (qx_smoother_next s)) /\
  scaled (current (fst (qx_smoother_next s))) <= scaled (current s).
Proof.
  intros Sd Hhi (Ht & Hd & Vc & Nc & Lc & Uc).
  pose proof (finite_scaled_bound t t_valid t_finite) as Bt.
  assert (Fc : is_finite (current s) = true) by (apply finite_of_scaled; [exact Nc | lia]).
  unfold qx_smoother_next. rewrite Ht, Hd.
  destruct (feq (current s) t) eqn:E.
  - cbn [fst]. split; [|lia]. unfold ramping_down. repeat split; assumption.
  - cbn [fst current target sstep]. unfold fgt. b32_ops.
    destruct (add_nonpos_le (current s) d Vc d_valid Fc d_not_nan Sd) as (V1 & N1 & S1).
    set (c1 := SFadd prec emax (current s) d) in *.
    assert (L0 : SFltb (f0 (FO := binary32)) d = false).
    { rewrite (SFltb_scaled _ d valid_f0 d_valid eq_refl d_not_nan), scaled_f0.
      apply Z.ltb_ge. exact Sd. }
    rewrite L0. cbn [andb orb].
    destruct (SFltb d (f0 (FO := binary32)) && SFltb c1 t) eqn:Over.
    + split; [|lia]. unfold ramping_down. cbn [current target sstep].
      repeat split; try assumption; try lia. apply finite_not_nan. exact t_finite.
    + assert (S1t : scaled t <= scaled c1).
      { apply andb_false_iff in Over. destruct Over as [Z|G].
        - rewrite (SFltb_scaled d _ d_valid valid_f0 d_not_nan eq_refl), scaled_f0 in Z.
          apply Z.ltb_ge in Z. assert (Z0 : scaled d = 0) by lia.
          destruct (scaled_zero_inv d d_valid d_not_nan Z0) as [sd Ed].
          assert (Fd : is_finite d = true) by (rewrite Ed; reflexivity).
          pose proof (SFadd_brackets (current s) d Vc d_valid Fc Fd) as B.
          rewrite Z0, Z.add_0_r in B.
          pose proof (brackets_ge (current s) _ _ Vc Nc (Z.le_refl _) B). fold c1 in H. lia.
        - rewrite (SFltb_scaled c1 t V1 t_valid N1 (finite_not_nan _ t_finite)) in G.
          apply Z.ltb_ge in G. exact G. }
      split; [|exact S1]. unfold ramping_down. cbn [current target sstep].
      repeat split; try assumption; lia.
Qed.

Lemma ramping_down_nexts (hi : Z) (k : nat) : forall s : qx_smoother (FO := binary32),
  scaled d <= 0 -> hi < 2 ^ 277 ->
  ramping_down t d hi s -> ramping_down t d hi (smoother_nexts k s).
Proof.
  induction k as [|k IH]; intros s Sd Hhi R; [exact R|].
  cbn [smoother_nexts]. apply IH; try assumption.
  apply (ramping_down_next hi s Sd Hhi R).
Qed.

End Ramp32Smoother.

Lemma next_returns_current {FO : FloatOps} (s : qx_smoother) :
  snd (qx_smoother_next s) = qx_smoother_get (fst (qx_smoother_next s)).
Proof. unfold qx_smoother_next, qx_smoother_get. destruct (feq _ _); reflexivity. Qed.

Lemma set_target_step_facts (s : qx_smoother (FO := binary32)) (t : float32) :
  valid (current s) -> valid t -> is_finite (current s) = true -> is_finite t = true ->
  (1 <= frames s)%N -> (frames s < 2 ^ 64)%N ->
  valid (sstep (qx_smoother_set_target s t)) /\
  is_nan (sstep (qx_smoother_set_target s t)) = false /\
  (scaled (current s) <= scaled t -> 0 <= scaled (sstep (qx_smoother_set_target s t))) /\
  (scaled t <= scaled (current s) -> scaled (sstep (qx_smoother_set_target s t)) <= 0).
Proof.
  intros Vc Vt Fc Ft F1 F2. cbn [qx_smoother_set_target sstep]. b32_ops.
  pose proof (SFsub_brackets t (current s) Vt Vc Ft Fc) as Bx.
  destruct (brackets_sign _ _ Bx) as (X0 & X1 & _).
  destruct Bx as (Vx & Nx & _).
  destruct (of_size_facts (frames s) F1 F2) as (Vy & Fy & Py).
  set (x := SFsub prec emax t (current s)) in *.
  set (y := of_int (Z.of_N (frames s))) in *.
  split; [apply SFdiv_valid; assumption|].
  split.
  { apply SFdiv_not_nan; [exact Nx | exact Fy|]. apply of_int_pos_nonzero. lia. }
  destruct (SFdiv_sign x y Vx Vy ltac:(lia)) as [Dp Dn].
  split; intro H.
  - apply Dp. specialize (X0 ltac:(lia)). nia.
  - apply Dn. specialize (X1 ltac:(lia)). nia.
Qed.

(** X18: in binary32, for a finite current value and a finite target
    [t], after [qx_smoother_set_target(t)] every value produced by
    [qx_smoother_next] lies between the starting value and [t], and the
    values move monotonically towards [t] (they never move away from it,
    though they may stop short of it). *)
Theorem X18_smoother_stays_between :
  forall (s : qx_smoother (FO := binary32)) (t : float32) (k : nat),
    valid (current s) -> valid t ->
    is_finite (current s) = true -> is_finite t = true ->
    (1 <= frames s)%N -> (frames s < 2 ^ 64)%N ->
    (fle (current s) t = true ->
     fle (current s) (qx_smoother_get (smoother_nexts k (qx_smoother_set_target s t))) = true /\
     fle (qx_smoother_get (smoother_nexts k (qx_smoother_set_target s t))) t = true /\
     fle (qx_smoother_get (smoother_nexts k (qx_smoother_set_target s t)))
         (snd (qx_smoother_next (smoother_nexts k (qx_smoother_set_target s t)))) = true) /\
    (fle t (current s) = true ->
     fle t (qx_smoother_get (smoother_nexts k (qx_smoother_set_target s t))) = true /\
     fle (qx_smoother_get (smoother_nexts k (qx_smoother_set_target s t))) (current s) = true /\
     fle (snd (qx_smoother_next (smoother_nexts k (qx_smoother_set_target s t))))
         (qx_smoother_get (smoother_nexts k (qx_smoother_set_target s t))) = true).
Proof.
  intros s t k Vc Vt Fc Ft F1 F2.
  destruct (set_target_step_facts s t Vc Vt Fc Ft F1 F2) as (Vd & Nd & Dup & Ddown).
  pose proof (finite_scaled_bound _ Vc Fc) as Bc.
  pose proof (finite_not_nan _ Fc) as Nc. pose proof (finite_not_nan _ Ft) as Nt.
  set (s0 := qx_smoother_set_target s t) in *.
  set (d := sstep s0) in *.
  rewrite !next_returns_current. unfold qx_smoother_get.
  split; intro H.
  - pose proof (SFleb_true_scaled _ _ Vc Vt H) as Hs.
    assert (R0 : ramping_up t d (scaled (current s)) s0).
    { unfold ramping_up. repeat split; try assumption; try reflexivity; lia. }
    pose proof (ramping_up_nexts t d Vt Ft Vd Nd (scaled (current s)) k s0
                  (Dup Hs) ltac:(lia) R0) as Rk.
    destruct (ramping_up_next t d Vt Ft Vd Nd (scaled (current s)) _
                (Dup Hs) ltac:(lia) Rk) as [Rk' Mono].
    destruct Rk as (_ & _ & Vk & Nk & Lk & Uk).
    destruct Rk' as (_ & _ & Vk' & Nk' & _ & _).
    b32_ops.
    rewrite (SFleb_scaled _ _ Vc Vk Nc Nk), (SFleb_scaled _ _ Vk Vt Nk Nt),
      (SFleb_scaled _ _ Vk Vk' Nk Nk').
    repeat split; apply Z.leb_le; assumption.
  - pose proof (SFleb_true_scaled _ _ Vt Vc H) as Hs.
    assert (R0 : ramping_down t d (scaled (current s)) s0).
    { unfold ramping_down. repeat split; try assumption; try reflexivity; lia. }
    pose proof (ramping_down_nexts t d Vt Ft Vd Nd (scaled (current s)) k s0
                  (Ddown Hs) ltac:(lia) R0) as Rk.
    destruct (ramping_down_next t d Vt Ft Vd Nd (scaled (current s)) _
                (Ddown Hs) ltac:(lia) Rk) as [Rk' Mono].
    destruct Rk as (_ & _ & Vk & Nk & Lk & Uk).
    destruct Rk' as (_ & _ & Vk' & Nk' & _ & _).
    b32_ops.
    rewrite (SFleb_scaled _ _ Vt Vk Nt Nk), (SFleb_scaled _ _ Vk Vc Nk Nc),
      (SFleb_scaled _ _ Vk' Vk Nk' Nk).
    repeat split; apply Z.leb_le; assumption.
Qed.

Lemma X18_smoother_stays_between_witness :
  fle (of_int 5 : float32)
      (qx_smoother_get
         (smoother_nexts 2 (qx_smoother_set_target (qx_smoother_init (FO := binary32) (of_int 5) 4)
                                                   (of_int 9)))) = true.
Proof.
  refine (proj1 (proj1 (X18_smoother_stays_between
                          (qx_smoother_init (FO := binary32) (of_int 5) 4)
                          (of_int 9 : float32) 2 _ _ _ _ _ _) _));
    try reflexivity.
  discriminate.
Defined.

(** ** The randomizers: the generator *)

Lemma next_seed_mod (s : Z) :
  RandomizerC.qx_randomizer_next_seed s = (1664525 * s + 1013904223) mod 2 ^ 32.
Proof.
  unfold RandomizerC.qx_randomizer_next_seed, RandomizerC.LCG_A, RandomizerC.LCG_C,
    RandomizerC.LCG_M, wrap32.
  change 4294967295 with (Z.ones 32). rewrite Z.land_ones by lia.
  rewrite Z.mod_mod by lia. rewrite Zplus_mod_idemp_l. reflexivity.
Qed.

Lemma header_seed_mod (s : Z) :
  wrap32 (wrap32 (s * 1664525) + 1013904223) = (1664525 * s + 1013904223) mod 2 ^ 32.
Proof.
  unfold wrap32. rewrite Zplus_mod_idemp_l. f_equal. lia.
Qed.

Lemma lcg_prev_next (s : Z) :
  0 <= s < 2 ^ 32 -> lcg_prev ((1664525 * s + 1013904223) mod 2 ^ 32) = s.
Proof.
  intro Hs. unfold lcg_prev.
  set (x := 1664525 * s + 1013904223).
  assert (E : x mod 2 ^ 32 = x - 2 ^ 32 * (x / 2 ^ 32)).
  { pose proof (Z.div_mod x (2 ^ 32) ltac:(discriminate)) as E.
    rewrite E at 2. ring. }
  rewrite E. set (q := x / 2 ^ 32). unfold x.
  replace (4276115653 * (1664525 * s + 1013904223 - 2 ^ 32 * q - 1013904223))
    with (s + (1657219 * s - 4276115653 * q) * 2 ^ 32) by ring.
  rewrite Z.mod_add by discriminate. apply Z.mod_small. exact Hs.
Qed.

Lemma lcg_next_prev (y : Z) :
  0 <= y < 2 ^ 32 -> (1664525 * lcg_prev y + 1013904223) mod 2 ^ 32 = y.
Proof.
  intro Hy. unfold lcg_prev.
  set (x := 4276115653 * (y - 1013904223)).
  assert (E : x mod 2 ^ 32 = x - 2 ^ 32 * (x / 2 ^ 32)).
  { pose proof (Z.div_mod x (2 ^ 32) ltac:(discriminate)) as E.
    rewrite E at 2. ring. }
  rewrite E. set (q := x / 2 ^ 32). unfold x.
  replace (1664525 * (4276115653 * (y - 1013904223) - 2 ^ 32 * q) + 1013904223)
    with (y + (1657219 * (y - 1013904223) - 1664525 * q) * 2 ^ 32) by ring.
  rewrite Z.mod_add by discriminate. apply Z.mod_small. exact Hy.
Qed.

(** X19: the generator step [qx_randomizer_next_seed] is a permutation of
    the [uint32_t] values: it has the inverse [lcg_prev], so distinct
    seeds always have distinct successors. *)
Theorem X19_next_seed_is_permutation :
  (forall s, 0 <= s < 2 ^ 32 ->
     0 <= RandomizerC.qx_randomizer_next_seed s < 2 ^ 32 /\
     lcg_prev (RandomizerC.qx_randomizer_next_seed s) = s) /\
  (forall y, 0 <= y < 2 ^ 32 ->
     0 <= lcg_prev y < 2 ^ 32 /\
     RandomizerC.qx_randomizer_next_seed (lcg_prev y) = y) /\
  (forall s1 s2, 0 <= s1 < 2 ^ 32 -> 0 <= s2 < 2 ^ 32 ->
     RandomizerC.qx_randomizer_next_seed s1 = RandomizerC.qx_randomizer_next_seed s2 ->
     s1 = s2).
Proof.
  assert (P : 0 < 2 ^ 32) by reflexivity.
  split; [|split].
  - intros s Hs. rewrite next_seed_mod. split; [apply Z.mod_pos_bound; exact P|].
    apply lcg_prev_next. exact Hs.
  - intros y Hy. split; [unfold lcg_prev; apply Z.mod_pos_bound; exact P|].
    rewrite next_seed_mod. apply lcg_next_prev. exact Hy.
  - intros s1 s2 H1 H2 E. rewrite !next_seed_mod in E.
    rewrite <- (lcg_prev_next s1 H1), <- (lcg_prev_next s2 H2), E. reflexivity.
Qed.

Lemma X19_next_seed_is_permutation_witness :
  0 <= RandomizerC.qx_randomizer_next_seed 305419896 < 2 ^ 32 /\
  lcg_prev (RandomizerC.qx_randomizer_next_seed 305419896) = 305419896.
Proof.
  refine (proj1 X19_next_seed_is_permutation 305419896 _). split; [discriminate | reflexivity].
Defined.

(** X20: both randomizers run the same generator: whatever the floats,
    a draw replaces the seed by [(1664525 * seed + 1013904223) mod 2^32]
    (the mask [& LCG_M] of radomizer.c changes nothing), so from equal
    seeds the two variants reach equal seeds. *)
Theorem X20_same_generator :
  forall (FO : FloatOps) (rc : RandomizerC.qx_randomizer) (rh : RandomizerH.qx_randomizer)
         (pc : RandomizerC.qx_randomizer * float) (ph : RandomizerH.qx_randomizer * float),
    RandomizerC.qx_randomizer_get_float rc = Some pc ->
    RandomizerH.qx_randomizer_get_float rh = Some ph ->
    RandomizerC.seed (fst pc) = (1664525 * RandomizerC.seed rc + 1013904223) mod 2 ^ 32 /\
    RandomizerH.seed (fst ph) = (1664525 * RandomizerH.seed rh + 1013904223) mod 2 ^ 32 /\
    (RandomizerC.seed rc = RandomizerH.seed rh ->
     RandomizerC.seed (fst pc) = RandomizerH.seed (fst ph)).
Proof.
  intros FO rc rh pc ph Hc Hh.
  assert (Ec : RandomizerC.seed (fst pc)
               = (1664525 * RandomizerC.seed rc + 1013904223) mod 2 ^ 32).
  { unfold RandomizerC.qx_randomizer_get_float in Hc.
    destruct (int_of_float _) as [k|]; [|discriminate].
    cbn [bind] in Hc. injection Hc as <-. cbn [fst RandomizerC.seed].
    apply next_seed_mod. }
  assert (Eh : RandomizerH.seed (fst ph)
               = (1664525 * RandomizerH.seed rh + 1013904223) mod 2 ^ 32).
  { unfold RandomizerH.qx_randomizer_get_float in Hh.
    destruct (int_add _ _) as [n|]; [|discriminate]. cbn [bind] in Hh.
    destruct (int_of_float _) as [k|]; [|discriminate].
    cbn [bind] in Hh. injection Hh as <-. cbn [fst RandomizerH.seed].
    apply header_seed_mod. }
  split; [exact Ec|]. split; [exact Eh|].
  intro E. rewrite Ec, Eh, E. reflexivity.
Qed.

Lemma X20_same_generator_witness :
  RandomizerC.seed (fst (RandomizerC.mk_randomizer (FO := exact) 0%Q 1%Q 1%Q 1015568748, 0%Q))
  = (1664525 * RandomizerC.seed (RandomizerC.mk_randomizer (FO := exact) 0%Q 1%Q 1%Q 1)
     + 1013904223) mod 2 ^ 32.
Proof.
  refine (proj1 (X20_same_generator exact
                   (RandomizerC.mk_randomizer (FO := exact) 0%Q 1%Q 1%Q 1)
                   (RandomizerH.mk_randomizer (FO := exact) 1 0%Q 1%Q 1%Q 1%Q 0%Q 1)
                   (RandomizerC.mk_randomizer (FO := exact) 0%Q 1%Q 1%Q 1015568748, 0%Q)
                   (RandomizerH.mk_randomizer (FO := exact) 1015568748 0%Q 1%Q 1%Q 1%Q 0%Q 1, 0%Q)
                   _ _)).
  - reflexivity.
  - reflexivity.
Defined.

(** ** qx_randomizer.h: the cached fields and the values drawn *)

(** X21: after [qx_randomizer_init] and any sequence of
    [qx_randomizer_set_seed], [qx_randomizer_set_range],
    [qx_randomizer_set_resolution] and [qx_randomizer_get_float] calls
    (none of them undefined), the cached fields agree with the
    configuration: [range = max - min],
    [inv_max_uint = 1.0f / (float)UINT32_MAX] and
    [max_steps = (int)(range / resolution + 0.5f)]. *)
Theorem X21_header_caches_coherent :
  forall (FO : FloatOps) (mn mx res : float) (r0 r : RandomizerH.qx_randomizer)
         (cs : list RandomizerHRuns.rand_call),
    RandomizerH.qx_randomizer_init mn mx res = Some r0 ->
    RandomizerHRuns.rand_run r0 cs = Some r ->
    RandomizerH.range r = fsub (RandomizerH.max r) (RandomizerH.min r) /\
    RandomizerH.inv_max_uint r = fdiv f1 (float_of_int UINT32_MAX) /\
    int_of_float (fadd (fdiv (RandomizerH.range r) (RandomizerH.resolution r)) fhalf)
    = Some (RandomizerH.max_steps r).
Proof.
  intros FO mn mx res r0 r cs Hi Hr.
  apply (RandomizerHFacts.caches_run cs r0 r); [|exact Hr].
  apply (RandomizerHFacts.caches_init mn mx res). exact Hi.
Qed.

Lemma X21_header_caches_coherent_witness :
  RandomizerH.range
    (RandomizerH.mk_randomizer (FO := exact) 7 0%Q 1%Q (1 # 10)%Q 1%Q
       (1 / inject_Z UINT32_MAX)%Q 10)
  = fsub (FloatOps := exact) 1%Q 0%Q.
Proof.
  refine (proj1 (X21_header_caches_coherent exact (0%Q : rational) (1%Q : rational)
                   ((1 # 10)%Q : rational)
                   (RandomizerH.mk_randomizer (FO := exact) 856382025 0%Q 1%Q (1 # 10)%Q
                      (1 - 0)%Q (1 / inject_Z UINT32_MAX)%Q 10)
                   (RandomizerH.mk_randomizer (FO := exact) 7 0%Q 1%Q (1 # 10)%Q 1%Q
                      (1 / inject_Z UINT32_MAX)%Q 10)
                   [RandomizerHRuns.call_set_seed 7] _ _)).
  - reflexivity.
  - reflexivity.
Defined.

Lemma of_int_sign (z : Z) : 0 <= z -> sign_of (of_int z) = false.
Proof.
  intro Hz. unfold of_int, binary_normalize. destruct z as [|p|p]; [reflexivity| |lia].
  unfold binary_round. destruct (shl_align p 0 _) as [mz ez].
  apply round_aux_sign_of. lia.
Qed.

Lemma of_int_small_facts (z : Z) :
  0 <= z < 2 ^ 64 ->
  valid (of_int z) /\ is_finite (of_int z) = true /\ sign_of (of_int z) = false /\
  0 <= scaled (of_int z).
Proof.
  intro Hz. split; [apply valid_of_int|].
  assert (F : is_finite (of_int z) = true).
  { destruct (Z.eq_dec z 0) as [->|NZ]; [reflexivity|].
    destruct (of_size_facts (Z.to_N z)) as (_ & F & _).
    - lia.
    - change (2 ^ 64)%N with (Z.to_N (2 ^ 64)). lia.
    - rewrite Z2N.id in F by lia. exact F. }
  split; [exact F|]. split; [apply of_int_sign; lia|].
  apply (sign_of_scaled _ (valid_of_int z)). apply of_int_sign. lia.
Qed.

Lemma to_int_sign (x : float32) (i : Z) :
  sign_of x = false -> to_int x = Some i -> 0 <= i.
Proof.
  intros S H. destruct x as [s|s| |s m e]; try discriminate.
  - injection H as <-. lia.
  - cbn [sign_of] in S. subst s. cbn [to_int] in H.
    apply int_checked_some in H. destruct H as [-> _].
    unfold trunc_mag. destruct e as [|p|p].
    + apply Z.shiftl_nonneg. lia.
    + apply Z.shiftl_nonneg. lia.
    + apply Z.shiftr_nonneg. lia.
Qed.

Lemma inv_max_uint_value :
  fdiv (FloatOps := binary32) f1 (float_of_int UINT32_MAX) = S754_finite false 8388608 (-55).
Proof. vm_compute. reflexivity. Qed.

(** X22: in binary32, a draw of the header randomizer with
    [max_steps >= 0] is [min + j * resolution] for an integer step [j]
    with [0 <= j <= max_steps] (the seed only selects [j]); for a finite
    [min] and a finite [resolution >= 0] the draw is therefore never less
    than [min]. *)
Theorem X22_header_draw_on_grid :
  forall (rand rand' : RandomizerH.qx_randomizer (FO := binary32)) (v : float32),
    RandomizerH.inv_max_uint rand = fdiv f1 (float_of_int UINT32_MAX) ->
    0 <= RandomizerH.max_steps rand ->
    RandomizerH.qx_randomizer_get_float rand = Some (rand', v) ->
    (exists j : Z,
       0 <= j <= RandomizerH.max_steps rand /\
       v = fadd (RandomizerH.min rand)
                (fmul (float_of_int j) (RandomizerH.resolution rand))) /\
    (valid (RandomizerH.min rand) -> valid (RandomizerH.resolution rand) ->
     is_finite (RandomizerH.min rand) = true ->
     is_finite (RandomizerH.resolution rand) = true ->
     fle f0 (RandomizerH.resolution rand) = true ->
     fle (RandomizerH.min rand) v = true).
Proof.
  intros rand rand' v Hinv Hms H.
  unfold RandomizerH.qx_randomizer_get_float in H.
  destruct (int_add (RandomizerH.max_steps rand) 1) as [n|] eqn:En; [|discriminate].
  cbn [bind] in H.
  apply int_checked_some in En. destruct En as [En Rn].
  set (seed' := wrap32 (wrap32 (RandomizerH.seed rand * 1664525) + 1013904223)) in *.
  assert (Hseed : 0 <= seed' < 2 ^ 32) by (unfold seed', wrap32; apply Z.mod_pos_bound; reflexivity).
  rewrite Hinv, inv_max_uint_value in H.
  b32_ops.
  destruct (of_int_small_facts seed' ltac:(lia)) as (Vs & Fs & Ss & _).
  set (normalized := SFmul prec emax (of_int seed') (S754_finite false 8388608 (-55))) in *.
  assert (Nn : is_nan normalized = false) by (apply SFmul_finite_not_nan; [exact Fs | reflexivity]).
  assert (Sn : sign_of normalized = false).
  { unfold normalized. rewrite SFmul_sign_of by exact Nn. rewrite Ss. reflexivity. }
  assert (Hn : 1 <= n <= INT_MAX) by (unfold INT_MIN, INT_MAX in *; lia).
  destruct (of_int_small_facts n ltac:(unfold INT_MAX in *; lia)) as (Vn & Fn & Sgn & _).
  set (q := SFmul prec emax normalized (of_int n)) in *.
  assert (Nq : is_nan q = false).
  { apply SFmul_not_nan_nonzero; [exact Nn | exact Fn|]. apply of_int_pos_nonzero. lia. }
  assert (Sq : sign_of q = false).
  { unfold q. rewrite SFmul_sign_of by exact Nq. rewrite Sn, Sgn. reflexivity. }
  destruct (to_int q) as [step|] eqn:Eq; [|discriminate].
  cbn [bind] in H. injection H as _ Hv.
  pose proof (to_int_sign q step Sq Eq) as Hstep.
  set (j := if RandomizerH.max_steps rand <? step then RandomizerH.max_steps rand else step) in *.
  assert (Hj : 0 <= j <= RandomizerH.max_steps rand).
  { unfold j. destruct (Z.ltb_spec (RandomizerH.max_steps rand) step); lia. }
  split.
  - exists j. split; [exact Hj | symmetry; exact Hv].
  - intros Vmin Vres Fmin Fres Pres. subst v.
    destruct (of_int_small_facts j ltac:(unfold INT_MAX in *; lia)) as (Vj & Fj & _ & Pj).
    pose proof (SFleb_true_scaled _ _ valid_f0 Vres Pres) as Sr. rewrite scaled_f0 in Sr.
    set (p := SFmul prec emax (of_int j) (RandomizerH.resolution rand)).
    assert (Vp : valid p) by (apply SFmul_valid; assumption).
    assert (Np : is_nan p = false) by (apply SFmul_finite_not_nan; assumption).
    destruct (SFmul_sign (of_int j) (RandomizerH.resolution rand) Vj Vres) as [Pp _].
    specialize (Pp ltac:(nia)).
    destruct (add_nonneg_ge (RandomizerH.min rand) p Vmin Vp Fmin Np Pp) as (Vr & Nr & Sr').
    rewrite (SFleb_scaled _ _ Vmin Vr (finite_not_nan _ Fmin) Nr).
    apply Z.leb_le. exact Sr'.
Qed.

Lemma X22_header_draw_on_grid_witness :
  exists j : Z,
    0 <= j <= 4 /\
    (ratio 1 4 : float32) = fadd (of_int 0 : float32) (fmul (float_of_int j) (ratio 1 4 : float32)).
Proof.
  refine (proj1 (X22_header_draw_on_grid
                   (RandomizerH.mk_randomizer (FO := binary32) 1 (of_int 0) (of_int 1)
                      (ratio 1 4) (of_int 1) (fdiv f1 (float_of_int UINT32_MAX)) 4)
                   (RandomizerH.mk_randomizer (FO := binary32) 1015568748 (of_int 0) (of_int 1)
                      (ratio 1 4) (of_int 1) (fdiv f1 (float_of_int UINT32_MAX)) 4)
                   (ratio 1 4 : float32) _ _ _)).
  - reflexivity.
  - cbn. lia.
  - reflexivity.
Defined.

(** ** radomizer.c: an inverted range *)

Lemma of_int_finite (z : Z) : - 2 ^ 64 <= z <= 2 ^ 64 -> is_finite (of_int z) = true.
Proof.
  intro Hz.
  pose proof (binary_normalize_brackets z 0 false ltac:(lia)) as B.
  change (binary_normalize prec emax z 0 false) with (of_int z) in B.
  change (0 + 149) with 149 in B.
  assert (P : 0 < 2 ^ 149) by (apply Z.pow_pos_nonneg; lia).
  assert (Vb : valid (S754_finite false 8388608 41)) by reflexivity.
  assert (Vc : valid (S754_finite true 8388608 41)) by reflexivity.
  pose proof (brackets_le (S754_finite false 8388608 41) (z * 2 ^ 149) (of_int z) Vb eq_refl) as Up.
  pose proof (brackets_ge (S754_finite true 8388608 41) (z * 2 ^ 149) (of_int z) Vc eq_refl) as Lo.
  cbn [scaled cond_Zopp] in Up, Lo. change (41 + 149) with 190 in Up, Lo.
  change (Zpos 8388608 * 2 ^ 190) with (2 ^ 64 * 2 ^ 149) in Up, Lo.
  specialize (Up ltac:(nia) B). specialize (Lo ltac:(nia) B).
  destruct B as (_ & N & _).
  apply finite_of_scaled; [exact N|].
  assert (2 ^ 64 * 2 ^ 149 < 2 ^ 277) by (rewrite <- Z.pow_add_r by lia; apply Z.pow_lt_mono_r; lia).
  lia.
Qed.

(** X23: in binary32, when the range of the radomizer.c randomizer is
    inverted ([max < min], with finite [min] and [resolution]), every
    draw is exactly [min] or exactly [max]: the two clamping tests never
    let a value between the bounds through. *)
Theorem X23_randomizerC_inverted_range :
  forall (rand rand' : RandomizerC.qx_randomizer (FO := binary32)) (v : float32),
    valid (RandomizerC.min rand) -> valid (RandomizerC.max rand) ->
    valid (RandomizerC.resolution rand) ->
    is_finite (RandomizerC.min rand) = true ->
    is_finite (RandomizerC.resolution rand) = true ->
    flt (RandomizerC.max rand) (RandomizerC.min rand) = true ->
    RandomizerC.qx_randomizer_get_float rand = Some (rand', v) ->
    v = RandomizerC.min rand \/ v = RandomizerC.max rand.
Proof.
  intros rand rand' v Vmin Vmax Vres Fmin Fres Inv H.
  unfold RandomizerC.qx_randomizer_get_float in H.
  destruct (int_of_float _) as [k|] eqn:Ek; [|discriminate].
  cbn [bind] in H. injection H as _ Hv. subst v.
  assert (Rk : INT_MIN <= k <= INT_MAX).
  { b32_ops. destruct (SFadd prec emax _ half) as [s|s| |s m e]; try discriminate.
    - injection Ek as <-. unfold INT_MIN, INT_MAX. lia.
    - cbn [to_int] in Ek. apply int_checked_some in Ek. destruct Ek as [-> R]. exact R. }
  unfold fgt. b32_ops.
  set (p := SFmul prec emax (of_int k) (RandomizerC.resolution rand)).
  assert (Fk : is_finite (of_int k) = true)
    by (apply of_int_finite; unfold INT_MIN, INT_MAX in *; lia).
  assert (Vp : valid p) by (apply SFmul_valid; [apply valid_of_int | exact Vres]).
  assert (Np : is_nan p = false) by (apply SFmul_finite_not_nan; assumption).
  set (q := SFadd prec emax (RandomizerC.min rand) p).
  assert (Vq : valid q) by (apply SFadd_valid; assumption).
  assert (Nq : is_nan q = false) by (apply SFadd_not_nan; assumption).
  pose proof (finite_not_nan _ Fmin) as Nmin.
  destruct (SFltb_not_nan _ _ Inv) as [Nmax _].
  destruct (SFltb q (RandomizerC.min rand)) eqn:L; [left; reflexivity|].
  right.
  rewrite (SFltb_scaled _ _ Vq Vmin Nq Nmin) in L. apply Z.ltb_ge in L.
  rewrite (SFltb_scaled _ _ Vmax Vmin Nmax Nmin) in Inv. apply Z.ltb_lt in Inv.
  rewrite (SFltb_scaled _ _ Vmax Vq Nmax Nq).
  replace (scaled (RandomizerC.max rand) <? scaled q) with true; [reflexivity|].
  symmetry. apply Z.ltb_lt. lia.
Qed.

Lemma X23_randomizerC_inverted_range_witness :
  (of_int 0 : float32) = of_int 1 \/ (of_int 0 : float32) = of_int 0.
Proof.
  refine (X23_randomizerC_inverted_range
            (RandomizerC.mk_randomizer (FO := binary32) (of_int 1) (of_int 0) (of_int 1) 1)
            (RandomizerC.mk_randomizer (FO := binary32) (of_int 1) (of_int 0) (of_int 1)
               1015568748)
            (of_int 0 : float32) _ _ _ _ _ _ _); reflexivity.
Defined.

(** ** binary32: the value of a rounded product *)

Lemma shr_fexp_loc (m e : Z) (l : location) :
  0 <= m ->
  loc_of_shr_record (fst (shr_fexp prec emax m e l)) <> loc_Exact ->
  l <> loc_Exact \/ m mod 2 ^ Z.max 0 (fexp prec emax (Zdigits2 m + e) - e) <> 0.
Proof.
  intros Hm. unfold shr_fexp.
  set (n := fexp prec emax (Zdigits2 m + e) - e).
  destruct l as [|c]; [|intros _; left; discriminate].
  cbn [shr_record_of_loc]. unfold shr. destruct n as [|p|p] eqn:En; cbn [fst].
  - intro H. exfalso. apply H. reflexivity.
  - replace (Z.max 0 (Zpos p)) with (Zpos p) by lia.
    pose proof (iter_shr_rel p {| shr_m := m; shr_r := false; shr_s := false |}
                  ltac:(simpl; lia)) as (_ & _ & H2).
    cbn [shr_m shr_r shr_s] in H2.
    intro H. right. intro Hmod. apply H.
    destruct (H2 Hmod eq_refl eq_refl) as [Hr Hs].
    destruct (iter_pos shr_1 p _) as [m' r' s']. cbn in *. subst. reflexivity.
  - intro H. exfalso. apply H. reflexivity.
Qed.

(** The value of [binary_round_aux]: the truncated mantissa [m'] on the
    grid [2^e'], rounded to [m1 = m'] or [m' + 1], saturating at the
    infinity. *)
Lemma round_aux_value (sx : bool) (mz ez : Z) (l : location) :
  0 <= mz -> ez <= fexp prec emax (Zdigits2 mz + ez) ->
  exists m' m1 k : Z,
    k = Z.max 0 (fexp prec emax (Zdigits2 mz + ez) - ez) /\
    -149 <= ez + k /\ m' = mz / 2 ^ k /\
    m1 = round_nearest_even m' (loc_of_shr_record (fst (shr_fexp prec emax mz ez l))) /\
    (m1 = m' \/ (m1 = m' + 1 /\ (l <> loc_Exact \/ mz mod 2 ^ k <> 0))) /\
    ((m' = 0 /\ ez + k = -149) \/
     (exists p, m' = Zpos p /\ canonical_mantissa prec emax p (ez + k) = true)) /\
    valid (binary_round_aux prec emax sx mz ez l) /\
    is_nan (binary_round_aux prec emax sx mz ez l) = false /\
    scaled (binary_round_aux prec emax sx mz ez l)
    = cond_Zopp sx (Z.min (m1 * 2 ^ (ez + k + 149)) (2 ^ 277)) /\
    (Z.even m1 = true -> mant_even (binary_round_aux prec emax sx mz ez l) = true).
Proof.
  intros Hm Hfexp.
  destruct (shr_fexp_gen mz ez l Hm) as (E & M).
  pose proof (shr_fexp_loc mz ez l Hm) as X.
  rewrite fexp_eq in Hfexp, E, M, X.
  set (d := Zdigits2 mz) in *.
  set (k := Z.max 0 (Z.max (d + ez - 24) (-149) - ez)) in *.
  assert (Hk : 0 <= k) by lia.
  assert (Ek : k = Z.max 0 (fexp prec emax (Zdigits2 mz + ez) - ez))
    by (rewrite fexp_eq; reflexivity).
  assert (Pk : 0 < 2 ^ k) by (apply Z.pow_pos_nonneg; lia).
  assert (P277 : 0 < 2 ^ 277) by (apply Z.pow_pos_nonneg; lia).
  unfold binary_round_aux.
  destruct (shr_fexp prec emax mz ez l) as [mrs' e'] eqn:S1.
  cbn [fst snd] in E, M, X. subst e'.
  assert (He' : -149 <= ez + k) by lia.
  assert (PG : 0 < 2 ^ (ez + k + 149)) by (apply Z.pow_pos_nonneg; lia).
  assert (Shape : (shr_m mrs' = 0 /\ ez + k = -149) \/
                  (exists d', 1 <= d' <= 24 /\ (d' = 24 \/ ez + k = -149) /\
                              2 ^ (d' - 1) <= shr_m mrs' < 2 ^ d')).
  { destruct (Z.eq_dec mz 0) as [Z0|NZ].
    - left. subst mz. rewrite M. cbn in d. subst d. split; [reflexivity|]. lia.
    - assert (Pz : 0 < mz) by lia.
      pose proof (Zdigits2_bounds mz Pz) as Dz. fold d in Dz.
      assert (Hd : 0 < d).
      { unfold d. destruct mz; try lia. cbn. lia. }
      destruct (Z.ltb_spec k d) as [Lk|Gk].
      + right. exists (d - k). split; [lia|]. split; [lia|].
        rewrite M. apply div_pow2_bounds; [lia | exact Dz].
      + left. split; [|lia]. rewrite M. apply Z.div_small. split; [lia|].
        apply Z.lt_le_trans with (2 ^ d); [lia|]. apply Z.pow_le_mono_r; lia. }
  (* the result of the second, renormalising shift *)
  assert (Done : forall (m1 : positive) d', 1 <= d' <= 24 -> (d' = 24 \/ ez + k = -149) ->
              2 ^ (d' - 1) <= Zpos m1 <= 2 ^ d' ->
              let r := (let '(mrs'', e'') := shr_fexp prec emax (Zpos m1) (ez + k) loc_Exact in
                        match shr_m mrs'' with
                        | 0 => S754_zero sx
                        | Zpos m => if e'' <=? emax - prec then S754_finite sx m e''
                                    else S754_infinity sx
                        | Zneg _ => S754_nan
                        end) in
              valid r /\ is_nan r = false /\
              scaled r = cond_Zopp sx (Z.min (Zpos m1 * 2 ^ (ez + k + 149)) (2 ^ 277)) /\
              (Z.even (Zpos m1) = true -> mant_even r = true)).
  { intros m1 d' Hd' Hc Hb.
    destruct (renorm m1 (ez + k) d' He' Hd' Hc Hb) as (m'' & S2 & C2 & E2 & V2).
    destruct (shr_fexp_spec m1 (ez + k)) as (E3 & _ & _).
    destruct (shr_fexp prec emax (Zpos m1) (ez + k) loc_Exact) as [mrs'' e''].
    cbn [fst snd] in S2, C2, E2, V2, E3. cbv zeta. rewrite S2.
    assert (Par : Z.even (Zpos m1) = true -> Z.even (Zpos m'') = true).
    { intro Ev. destruct (Z.eq_dec e'' (ez + k)) as [Ee|Ne].
      - rewrite Ee in V2. apply Z.mul_cancel_r in V2; [|lia]. rewrite V2. exact Ev.
      - destruct (canonical_facts _ _ C2) as (_ & U2 & N2).
        specialize (N2 ltac:(lia)).
        assert (S : 2 ^ (e'' + 149) = 2 ^ (e'' - (ez + k)) * 2 ^ (ez + k + 149)).
        { rewrite <- Z.pow_add_r by lia. f_equal. lia. }
        rewrite S, Z.mul_assoc in V2. apply Z.mul_cancel_r in V2; [|lia].
        assert (T : 2 ^ 1 <= 2 ^ (e'' - (ez + k))) by (apply Z.pow_le_mono_r; lia).
        change (2 ^ 1) with 2 in T.
        assert (H24 : 2 ^ d' <= 2 ^ 24) by (apply Z.pow_le_mono_r; lia).
        change (2 ^ 24) with 16777216 in *. change (2 ^ 23) with 8388608 in *.
        assert (Zpos m'' = 8388608) by nia.
        rewrite H. reflexivity. }
    destruct (Z.leb_spec e'' (emax - prec)) as [B|B].
    - assert (Vr : valid (S754_finite sx m'' e'')).
      { unfold valid, valid_binary, bounded. rewrite C2. apply Z.leb_le. exact B. }
      split; [exact Vr|]. split; [reflexivity|].
      split; [|exact Par].
      pose proof (finite_bound _ _ _ Vr). cbn [scaled]. rewrite V2. f_equal. lia.
    - split; [reflexivity|]. split; [reflexivity|].
      split; [|reflexivity].
      cbn [scaled]. f_equal. rewrite <- V2.
      destruct (canonical_facts _ _ C2) as (_ & _ & N2).
      change (emax - prec) with 104 in B. specialize (N2 ltac:(lia)).
      assert (2 ^ 254 <= 2 ^ (e'' + 149)) by (apply Z.pow_le_mono_r; lia).
      assert (0 < 2 ^ 254) by (apply Z.pow_pos_nonneg; lia).
      assert (2 ^ 277 <= Zpos m'' * 2 ^ (e'' + 149)).
      { change (2 ^ 277) with (2 ^ 23 * 2 ^ 254).
        apply Z.mul_le_mono_nonneg; lia. }
      lia. }
  destruct Shape as [[Z0 E149]|(d' & Hd' & Hc & Hb)].
  - rewrite Z0.
    destruct (round_nearest_even_cases 0 (loc_of_shr_record mrs')) as [R|[R NX]]; rewrite R.
    + exists 0, 0, k. rewrite E149.
      split; [exact Ek|]. split; [lia|]. split; [rewrite <- M; exact (eq_sym Z0)|].
      split; [cbn [fst]; symmetry; exact R|].
      split; [left; reflexivity|]. split; [left; split; [reflexivity | reflexivity]|].
      split; [reflexivity|]. split; [reflexivity|].
      split; [cbn; destruct sx; reflexivity | reflexivity].
    + exists 0, 1, k.
      split; [exact Ek|]. split; [lia|]. split; [rewrite <- M; exact (eq_sym Z0)|].
      split; [cbn [fst]; symmetry; exact R|].
      split; [right; split; [reflexivity | exact (X NX)]|].
      split; [left; split; [reflexivity | exact E149]|].
      apply (Done 1%positive 1); [lia | right; exact E149 | cbn; lia].
  - destruct (shr_m mrs') as [|m'|m'] eqn:Em'; [lia| |lia].
    assert (C' : canonical_mantissa prec emax m' (ez + k) = true)
      by (apply canonical_intro with (d := d'); lia).
    destruct (round_nearest_even_cases (Zpos m') (loc_of_shr_record mrs')) as [R|[R NX]]; rewrite R.
    + exists (Zpos m'), (Zpos m'), k.
      split; [exact Ek|]. split; [lia|]. split; [exact M|].
      split; [cbn [fst]; symmetry; exact R|].
      split; [left; reflexivity|]. split; [right; exists m'; split; [reflexivity | exact C']|].
      apply (Done m' d'); [lia | exact Hc | lia].
    + exists (Zpos m'), (Zpos m' + 1), k.
      split; [exact Ek|]. split; [lia|]. split; [exact M|].
      split; [cbn [fst]; symmetry; exact R|].
      split; [right; split; [reflexivity | exact (X NX)]|].
      split; [right; exists m'; split; [reflexivity | exact C']|].
      replace (Zpos m' + 1) with (Zpos (m' + 1)) by lia.
      apply (Done (m' + 1)%positive d'); [lia | exact Hc | lia].
Qed.

(** No well-formed float lies strictly between two neighbours of the grid. *)
Lemma gap_all (m' e' : Z) (b : float32) :
  ((m' = 0 /\ e' = -149) \/
   (exists p, m' = Zpos p /\ canonical_mantissa prec emax p e' = true)) ->
  valid b -> is_nan b = false ->
  (scaled b < (m' + 1) * 2 ^ (e' + 149) -> scaled b <= m' * 2 ^ (e' + 149)) /\
  (m' * 2 ^ (e' + 149) < scaled b -> (m' + 1) * 2 ^ (e' + 149) <= scaled b).
Proof.
  intros Hm Vb Nb.
  assert (P277 : 0 < 2 ^ 277) by (apply Z.pow_pos_nonneg; lia).
  destruct Hm as [[-> ->]|(p & -> & C')].
  - change (2 ^ (-149 + 149)) with 1. lia.
  - destruct (canonical_facts _ _ C') as (A' & _ & _).
    pose proof (finite_pos p e' A') as PL.
    assert (PG : 0 < 2 ^ (e' + 149)) by (apply Z.pow_pos_nonneg; lia).
    destruct b as [sb|sb| |sb mb eb]; try discriminate; cbn [scaled].
    + split; intro; nia.
    + destruct sb; cbn [cond_Zopp].
      * split; intro; nia.
      * change (2 ^ 277) with (Zpos 8388608 * 2 ^ (105 + 149)).
        apply grid_gap; [exact canonical_inf | exact C'].
    + pose proof (valid_canonical _ _ _ Vb) as Cb.
      pose proof (finite_pos mb eb (valid_finite_emin _ _ _ Vb)) as Pb.
      destruct sb; cbn [cond_Zopp].
      * split; intro; nia.
      * apply grid_gap; assumption.
Qed.

Lemma round_aux_brackets_q (mz ez : Z) (l : location) (W A N : Z) :
  0 <= mz -> ez <= fexp prec emax (Zdigits2 mz + ez) ->
  0 < W -> 0 < A ->
  (forall k, 0 <= k -> -149 <= ez + k -> 2 ^ (ez + k + 149) * W = 2 ^ k * A) ->
  A * mz <= N < A * (mz + 1) ->
  (l <> loc_Exact -> A * mz < N) ->
  brackets_q W N (binary_round_aux prec emax false mz ez l).
Proof.
  intros Hm Hfexp HW HA Hgrid [Nlo Nhi] Hstrict.
  destruct (round_aux_value false mz ez l Hm Hfexp)
    as (m' & m1 & k & Ek & He' & Em' & _ & Hm1 & Hcan & Vr & Nr & Sr & _).
  assert (Hk : 0 <= k) by lia.
  cbn [cond_Zopp] in Sr.
  specialize (Hgrid k Hk He').
  set (G := 2 ^ (ez + k + 149)) in *.
  assert (PG : 0 < G) by (apply Z.pow_pos_nonneg; lia).
  assert (Pk : 0 < 2 ^ k) by (apply Z.pow_pos_nonneg; lia).
  assert (P277 : 0 < 2 ^ 277) by (apply Z.pow_pos_nonneg; lia).
  pose proof (Z.div_mod mz (2 ^ k) ltac:(lia)) as Hdiv. rewrite <- Em' in Hdiv.
  pose proof (Z.mod_pos_bound mz (2 ^ k) Pk) as Hrem.
  set (rem := mz mod 2 ^ k) in *.
  assert (Hm'0 : 0 <= m').
  { rewrite Em'. apply Z.div_pos; lia. }
  (* the exact value lies between the two grid neighbours *)
  assert (Lo : m' * G * W <= N).
  { replace (m' * G * W) with (A * (2 ^ k * m')) by (rewrite <- Z.mul_assoc, Hgrid; ring).
    apply Z.le_trans with (A * mz); [|exact Nlo].
    apply Z.mul_le_mono_nonneg_l; lia. }
  assert (Hi : N < (m' + 1) * G * W).
  { replace ((m' + 1) * G * W) with (A * (2 ^ k * (m' + 1))) by (rewrite <- Z.mul_assoc, Hgrid; ring).
    apply Z.lt_le_trans with (A * (mz + 1)); [exact Nhi|].
    apply Z.mul_le_mono_nonneg_l; lia. }
  assert (Up : m1 = m' + 1 -> m' * G * W < N).
  { intro E1. destruct Hm1 as [E0|[_ [HL|HR]]]; [lia| |].
    - replace (m' * G * W) with (A * (2 ^ k * m')) by (rewrite <- Z.mul_assoc, Hgrid; ring).
      apply Z.le_lt_trans with (A * mz); [|apply Hstrict; exact HL].
      apply Z.mul_le_mono_nonneg_l; lia.
    - replace (m' * G * W) with (A * (2 ^ k * m')) by (rewrite <- Z.mul_assoc, Hgrid; ring).
      apply Z.lt_le_trans with (A * mz); [|exact Nlo].
      apply Z.mul_lt_mono_pos_l; [exact HA|]. fold rem in HR. lia. }
  split; [exact Vr|]. split; [exact Nr|].
  intros b Vb Nb. rewrite Sr.
  destruct (gap_all m' (ez + k) b Hcan Vb Nb) as [Gdn Gup]. fold G in Gdn, Gup.
  pose proof (scaled_bound b Vb) as Bb.
  split; intro H.
  - assert (scaled b < (m' + 1) * G).
    { apply (Z.mul_lt_mono_pos_r W); [exact HW|]. lia. }
    specialize (Gdn ltac:(assumption)).
    assert (m' * G <= m1 * G) by (destruct Hm1 as [->|[-> _]]; nia).
    lia.
  - assert (L : m' * G <= scaled b).
    { apply (Z.mul_le_mono_pos_r _ _ W); [exact HW|]. lia. }
    destruct Hm1 as [->|[E1 _]]; [lia|].
    assert (m' * G < scaled b).
    { apply (Z.mul_lt_mono_pos_r W); [exact HW|]. specialize (Up E1). lia. }
    specialize (Gup ltac:(assumption)). rewrite E1. lia.
Qed.

Lemma brackets_q_opp (W N : Z) (r : float32) :
  brackets_q W N r -> brackets_q W (- N) (SFopp r).
Proof.
  intros (V & Nn & B). split; [apply valid_opp; exact V|].
  split; [rewrite is_nan_opp; exact Nn|].
  intros b Vb Nb. rewrite scaled_opp.
  destruct (B (SFopp b) (proj2 (valid_opp b) Vb) ltac:(rewrite is_nan_opp; exact Nb)) as [B1 B2].
  rewrite scaled_opp in B1, B2. split; intro H.
  - assert (scaled r <= - scaled b) by (apply B2; lia). lia.
  - assert (- scaled b <= scaled r) by (apply B1; lia). lia.
Qed.

(** The product of two finite floats is one of the two neighbours of the
    exact product. *)
Lemma SFmul_brackets (x y : float32) :
  valid x -> valid y -> is_finite x = true -> is_finite y = true ->
  brackets_q (2 ^ 149) (scaled x * scaled y) (SFmul prec emax x y).
Proof.
  intros Vx Vy Fx Fy.
  assert (P : 0 < 2 ^ 149) by (apply Z.pow_pos_nonneg; lia).
  assert (Zero : forall s, brackets_q (2 ^ 149) 0 (S754_zero s)).
  { intro s. split; [reflexivity|]. split; [reflexivity|].
    intros b _ _. cbn [scaled]. split; intro; nia. }
  destruct x as [sx|sx| |sx mx ex]; destruct y as [sy|sy| |sy my ey]; try discriminate;
    cbn [SFmul]; try (cbn [scaled]; rewrite ?Z.mul_0_l, ?Z.mul_0_r; apply Zero).
  pose proof (valid_canonical _ _ _ Vx) as Cx. pose proof (valid_canonical _ _ _ Vy) as Cy.
  pose proof (valid_finite_emin _ _ _ Vx) as Ex. pose proof (valid_finite_emin _ _ _ Vy) as Ey.
  assert (Pos : brackets_q (2 ^ 149)
                  ((Zpos mx * 2 ^ (ex + 149)) * (Zpos my * 2 ^ (ey + 149)))
                  (binary_round_aux prec emax false (Zpos (mx * my)) (ex + ey) loc_Exact)).
  { apply (round_aux_brackets_q (Zpos (mx * my)) (ex + ey) loc_Exact (2 ^ 149)
             (2 ^ (ex + 149) * 2 ^ (ey + 149))).
    - lia.
    - apply mul_round_ready; assumption.
    - exact P.
    - apply Z.mul_pos_pos; apply Z.pow_pos_nonneg; lia.
    - intros k Hk He. rewrite <- !Z.pow_add_r by lia. f_equal. lia.
    - rewrite Pos2Z.inj_mul.
      assert (0 < 2 ^ (ex + 149) * 2 ^ (ey + 149))
        by (apply Z.mul_pos_pos; apply Z.pow_pos_nonneg; lia).
      split; [apply Z.eq_le_incl; ring|].
      replace (Zpos mx * 2 ^ (ex + 149) * (Zpos my * 2 ^ (ey + 149)))
        with (2 ^ (ex + 149) * 2 ^ (ey + 149) * (Zpos mx * Zpos my)) by ring.
      apply Z.mul_lt_mono_pos_l; lia.
    - intro H. exfalso. apply H. reflexivity. }
  cbn [scaled].
  destruct sx, sy; cbn [xorb cond_Zopp].
  - replace (- (Zpos mx * 2 ^ (ex + 149)) * - (Zpos my * 2 ^ (ey + 149)))
      with ((Zpos mx * 2 ^ (ex + 149)) * (Zpos my * 2 ^ (ey + 149))) by ring.
    exact Pos.
  - rewrite round_aux_opp.
    replace (- (Zpos mx * 2 ^ (ex + 149)) * (Zpos my * 2 ^ (ey + 149)))
      with (- ((Zpos mx * 2 ^ (ex + 149)) * (Zpos my * 2 ^ (ey + 149)))) by ring.
    apply brackets_q_opp. exact Pos.
  - rewrite round_aux_opp.
    replace (Zpos mx * 2 ^ (ex + 149) * - (Zpos my * 2 ^ (ey + 149)))
      with (- ((Zpos mx * 2 ^ (ex + 149)) * (Zpos my * 2 ^ (ey + 149)))) by ring.
    apply brackets_q_opp. exact Pos.
  - exact Pos.
Qed.

(** ** qx_fader.h: the faded sample *)

Lemma clamp_valid (v lo hi : float32) :
  valid v -> valid lo -> valid hi -> valid (qx_clamp_float v lo hi).
Proof.
  intros Vv Vlo Vhi. unfold qx_clamp_float.
  destruct (flt v lo); [exact Vlo|]. destruct (fgt v hi); assumption.
Qed.

Lemma fade_valid_step (f : qx_fader (FO := binary32)) (v : float32) :
  valid (fade f) -> valid (fstep f) -> valid (fade (fst (qx_fader_fade f v))).
Proof.
  intros Vf Vs. unfold qx_fader_fade. cbn [fst fade].
  apply clamp_valid; [|exact valid_f0 | exact valid_f1].
  b32_ops. apply SFadd_valid; [exact Vf|].
  destruct (enabled f); [exact Vs | apply valid_opp; exact Vs].
Qed.

Lemma fade_valid_run (cs : list fader_call) : forall f : qx_fader (FO := binary32),
  valid (fade f) -> valid (fstep f) ->
  valid (fade (fader_run f cs)) /\ valid (fstep (fader_run f cs)).
Proof.
  induction cs as [|c cs IH]; intros f Vf Vs; [split; assumption|].
  cbn [fader_run fold_left]. apply IH.
  - destruct c as [en|v]; cbn [fader_do].
    + destruct en; [exact valid_f0 | exact valid_f1].
    + apply fade_valid_step; assumption.
  - destruct c as [en|v]; exact Vs.
Qed.

(** A sample multiplied by a gain of [[0, 1]] is not amplified. *)
Lemma mul_unit_gain (val g : float32) :
  valid val -> is_finite val = true -> valid g -> unit_interval g = true ->
  valid (SFmul prec emax val g) /\ is_nan (SFmul prec emax val g) = false /\
  (0 <= scaled val -> 0 <= scaled (SFmul prec emax val g) <= scaled val) /\
  (scaled val <= 0 -> scaled val <= scaled (SFmul prec emax val g) <= 0) /\
  (scaled g = 2 ^ 149 -> scaled (SFmul prec emax val g) = scaled val) /\
  (scaled g = 0 -> scaled (SFmul prec emax val g) = 0).
Proof.
  intros Vv Fv Vg Ug.
  pose proof (unit_interval_finite g Ug) as Fg.
  apply (unit_interval_scaled g Vg) in Ug. destruct Ug as (Ng & G0 & G1).
  pose proof (SFmul_brackets val g Vv Vg Fv Fg) as (Vr & Nr & B).
  pose proof (finite_not_nan _ Fv) as Nv.
  assert (P : 0 < 2 ^ 149) by (apply Z.pow_pos_nonneg; lia).
  destruct (B val Vv Nv) as [Bv1 Bv2].
  destruct (B (S754_zero false) eq_refl eq_refl) as [Bz1 Bz2]. cbn [scaled] in Bz1, Bz2.
  split; [exact Vr|]. split; [exact Nr|].
  split; [|split; [|split]].
  - intro H. split; [apply Bz1; nia | apply Bv2; nia].
  - intro H. split; [apply Bv1; nia | apply Bz2; nia].
  - intro E. rewrite E in *.
    assert (scaled val <= scaled (SFmul prec emax val g)) by (apply Bv1; lia).
    assert (scaled (SFmul prec emax val g) <= scaled val) by (apply Bv2; lia).
    lia.
  - intro E. rewrite E in *.
    assert (0 <= scaled (SFmul prec emax val g)) by (apply Bz1; lia).
    assert (scaled (SFmul prec emax val g) <= 0) by (apply Bz2; lia).
    lia.
Qed.

(** X24: in binary32, for a fader initialised with a [fadeTime] that is
    not NaN and a finite nonzero [sample_rate], and after any sequence of
    calls, [qx_fader_fade] never amplifies a finite sample and never
    changes its sign: the result lies between [0] and [val]; it equals
    [val] when the fade has reached 1 and is zero when the fade is 0. *)
Theorem X24_fader_never_amplifies :
  forall (fadeTime sample_rate : float32) (cs : list fader_call) (val : float32),
    valid fadeTime -> valid sample_rate ->
    is_nan fadeTime = false -> is_finite sample_rate = true ->
    feq sample_rate f0 = false ->
    valid val -> is_finite val = true ->
    let f := fader_run (qx_fader_init fadeTime sample_rate) cs in
    let out := snd (qx_fader_fade f val) in
    (fle f0 val = true -> fle f0 out = true /\ fle out val = true) /\
    (fle val f0 = true -> fle val out = true /\ fle out f0 = true) /\
    (feq (fade (fst (qx_fader_fade f val))) f1 = true -> feq out val = true) /\
    (feq (fade (fst (qx_fader_fade f val))) f0 = true -> feq out f0 = true).
Proof.
  intros fadeTime sample_rate cs val Vt Vr Nt Fr Zr Vv Fv f out.
  destruct (init_step_facts fadeTime sample_rate Vt Vr Nt Fr Zr) as (Vs & Ns & _).
  destruct (fade_valid_run cs (qx_fader_init fadeTime sample_rate) valid_f0 Vs) as [Vf Vfs].
  fold f in Vf, Vfs.
  assert (Uf : unit_interval (fade f) = true).
  { apply run_unit_interval; [reflexivity | exact Ns]. }
  assert (Nfs : is_nan (fstep f) = false) by (unfold f; rewrite fstep_run; exact Ns).
  set (g := fade (fst (qx_fader_fade f val))).
  assert (Vg : valid g) by (apply fade_valid_step; assumption).
  assert (Ug : unit_interval g = true) by (apply fade_unit_interval; assumption).
  assert (Eout : out = SFmul prec emax val g) by reflexivity.
  destruct (mul_unit_gain val g Vv Fv Vg Ug) as (Vo & No & Hpos & Hneg & H1 & H0).
  rewrite <- Eout in Vo, No, Hpos, Hneg, H1, H0.
  pose proof (finite_not_nan _ Fv) as Nv.
  pose proof (proj1 (unit_interval_scaled g Vg) Ug) as (Ng & _).
  b32_ops.
  rewrite !(SFleb_scaled _ _ valid_f0 Vv eq_refl Nv), !(SFleb_scaled _ _ Vv valid_f0 Nv eq_refl),
    !(SFleb_scaled _ _ valid_f0 Vo eq_refl No), !(SFleb_scaled _ _ Vo valid_f0 No eq_refl),
    !(SFleb_scaled _ _ Vo Vv No Nv), !(SFleb_scaled _ _ Vv Vo Nv No),
    !(SFeqb_scaled _ _ Vg valid_f1 Ng eq_refl), !(SFeqb_scaled _ _ Vg valid_f0 Ng eq_refl),
    !(SFeqb_scaled _ _ Vo Vv No Nv), !(SFeqb_scaled _ _ Vo valid_f0 No eq_refl),
    scaled_f0, scaled_f1.
  split; [|split; [|split]].
  - intro H. apply Z.leb_le in H. specialize (Hpos H). split; apply Z.leb_le; lia.
  - intro H. apply Z.leb_le in H. specialize (Hneg H). split; apply Z.leb_le; lia.
  - intro H. apply Z.eqb_eq in H. apply Z.eqb_eq. apply H1. exact H.
  - intro H. apply Z.eqb_eq in H. apply Z.eqb_eq. apply H0. exact H.
Qed.

Lemma X24_fader_never_amplifies_witness :
  fle (snd (qx_fader_fade
              (fader_run (qx_fader_init (FO := binary32) (of_int 10) (of_int 48000))
                         [call_enable true; call_fade (of_int 1 : float32)])
              (of_int 3 : float32)))
      (of_int 3 : float32) = true.
Proof.
  refine (proj2 (proj1 (X24_fader_never_amplifies (of_int 10 : float32) (of_int 48000 : float32)
                          [call_enable true; call_fade (of_int 1 : float32)]
                          (of_int 3 : float32) _ _ _ _ _ _ _) _));
    reflexivity.
Defined.

(** ** qx_randomizer.h: a draw is defined *)

Lemma of_int_upper (z : Z) (b : float32) :
  valid b -> is_nan b = false -> z * 2 ^ 149 <= scaled b -> scaled (of_int z) <= scaled b.
Proof.
  intros Vb Nb H.
  pose proof (binary_normalize_brackets z 0 false ltac:(lia)) as B.
  change (binary_normalize prec emax z 0 false) with (of_int z) in B.
  change (0 + 149) with 149 in B.
  apply (brackets_le b _ _ Vb Nb H B).
Qed.

(** X25: in binary32, a draw of the header randomizer never executes
    undefined behaviour when [0 <= max_steps <= 2^31 - 129] (and
    [inv_max_uint] is as [qx_randomizer_init] sets it): the addition
    [max_steps + 1] does not overflow and the step converted to [int] is
    in range, for every seed and every [min] and [resolution]. *)
Theorem X25_header_draw_is_defined :
  forall rand : RandomizerH.qx_randomizer (FO := binary32),
    RandomizerH.inv_max_uint rand = fdiv f1 (float_of_int UINT32_MAX) ->
    0 <= RandomizerH.max_steps rand <= 2 ^ 31 - 129 ->
    exists (rand' : RandomizerH.qx_randomizer (FO := binary32)) (v : float32),
      RandomizerH.qx_randomizer_get_float rand = Some (rand', v).
Proof.
  intros rand Hinv Hms.
  assert (P : 0 < 2 ^ 149) by (apply Z.pow_pos_nonneg; lia).
  unfold RandomizerH.qx_randomizer_get_float.
  set (n := RandomizerH.max_steps rand + 1).
  assert (Hn : 1 <= n <= 2 ^ 31 - 128) by (unfold n; lia).
  assert (En : int_add (RandomizerH.max_steps rand) 1 = Some n).
  { unfold int_add. fold n. apply in_int_range. unfold INT_MIN, INT_MAX. lia. }
  rewrite En. cbn [bind].
  set (seed' := wrap32 (wrap32 (RandomizerH.seed rand * 1664525) + 1013904223)) in *.
  assert (Hseed : 0 <= seed' < 2 ^ 32) by (unfold seed', wrap32; apply Z.mod_pos_bound; reflexivity).
  rewrite Hinv, inv_max_uint_value. b32_ops.
  (* (float) seed <= 2^32 *)
  destruct (of_int_small_facts seed' ltac:(lia)) as (Vs & Fs & _ & Ps).
  assert (Us : scaled (of_int seed') <= 2 ^ 181).
  { assert (Vb : valid (S754_finite false 8388608 9)) by reflexivity.
    pose proof (of_int_upper seed' (S754_finite false 8388608 9) Vb eq_refl) as U.
    cbn [scaled cond_Zopp] in U. change (Zpos 8388608 * 2 ^ (9 + 149)) with (2 ^ 32 * 2 ^ 149) in U.
    change (2 ^ 181) with (2 ^ 32 * 2 ^ 149). apply U. nia. }
  (* normalized <= 1 *)
  set (inv := S754_finite false 8388608 (-55)) in *.
  assert (Vi : valid inv) by reflexivity.
  pose proof (SFmul_brackets (of_int seed') inv Vs Vi Fs eq_refl) as (Vn & Nn & Bn).
  set (normalized := SFmul prec emax (of_int seed') inv) in *.
  assert (Si : scaled inv = 2 ^ 117) by reflexivity. rewrite Si in Bn.
  assert (Sn : 0 <= scaled normalized <= 2 ^ 149).
  { split.
    - apply (Bn (S754_zero false) eq_refl eq_refl). cbn [scaled]. nia.
    - pose proof (proj2 (Bn _ valid_f1 eq_refl)) as U. rewrite scaled_f1 in U. apply U.
      apply Z.le_trans with (2 ^ 181 * 2 ^ 117); [nia|].
      rewrite <- !Z.pow_add_r by lia. apply Z.pow_le_mono_r; lia. }
  assert (P277 : 2 ^ 149 < 2 ^ 277) by (apply Z.pow_lt_mono_r; lia).
  assert (Fn : is_finite normalized = true) by (apply finite_of_scaled; [exact Nn | lia]).
  (* (float) n <= 2^31 - 128 *)
  destruct (of_int_small_facts n ltac:(lia)) as (Vk & Fk & _ & Pk).
  assert (Uk : scaled (of_int n) <= (2 ^ 31 - 128) * 2 ^ 149).
  { assert (Vb : valid (S754_finite false 16777215 7)) by reflexivity.
    pose proof (of_int_upper n (S754_finite false 16777215 7) Vb eq_refl) as U.
    cbn [scaled cond_Zopp] in U.
    change (Zpos 16777215 * 2 ^ (7 + 149)) with ((2 ^ 31 - 128) * 2 ^ 149) in U.
    apply U. nia. }
  (* the product is at most (float) n *)
  pose proof (SFmul_brackets normalized (of_int n) Vn Vk Fn Fk) as (Vq & Nq & Bq).
  set (q := SFmul prec emax normalized (of_int n)) in *.
  assert (Sq : 0 <= scaled q <= (2 ^ 31 - 128) * 2 ^ 149).
  { split.
    - apply (Bq (S754_zero false) eq_refl eq_refl). cbn [scaled]. nia.
    - apply Z.le_trans with (scaled (of_int n)); [|exact Uk].
      apply (Bq (of_int n) Vk (finite_not_nan _ Fk)). nia. }
  assert (Fq : is_finite q = true).
  { apply finite_of_scaled; [exact Nq|].
    assert ((2 ^ 31 - 128) * 2 ^ 149 < 2 ^ 277).
    { apply Z.lt_trans with (2 ^ 31 * 2 ^ 149); [nia|].
      rewrite <- Z.pow_add_r by lia. apply Z.pow_lt_mono_r; lia. }
    lia. }
  destruct (to_int_in_range q (2 ^ 31 - 128) Vq Fq) as [Eq _].
  { unfold INT_MAX. lia. }
  { nia. }
  cbn [int_of_float binary32] in Eq. rewrite Eq. cbn [bind].
  eexists. eexists. reflexivity.
Qed.

Lemma X25_header_draw_is_defined_witness :
  exists (rand' : RandomizerH.qx_randomizer (FO := binary32)) (v : float32),
    RandomizerH.qx_randomizer_get_float
      (RandomizerH.mk_randomizer (FO := binary32) 1 (of_int 0) (of_int 1)
         (ratio 1 4) (of_int 1) (fdiv f1 (float_of_int UINT32_MAX)) 4)
    = Some (rand', v).
Proof.
  refine (X25_header_draw_is_defined
            (RandomizerH.mk_randomizer (FO := binary32) 1 (of_int 0) (of_int 1)
               (ratio 1 4) (of_int 1) (fdiv f1 (float_of_int UINT32_MAX)) 4) _ _).
  - reflexivity.
  - cbn. lia.
Defined.

(** ** binary32: the value of a rounded quotient *)

Lemma brackets_q_scale (W N W' N' : Z) (r : float32) :
  0 < W -> 0 < W' -> N * W' = N' * W ->
  brackets_q W N r -> brackets_q W' N' r.
Proof.
  intros HW HW' E (V & Nn & B). split; [exact V|]. split; [exact Nn|].
  intros b Vb Nb. destruct (B b Vb Nb) as [B1 B2].
  split; intro H.
  - apply B1. apply (Z.mul_le_mono_pos_r _ _ W'); [exact HW'|].
    rewrite E. replace (scaled b * W * W') with (scaled b * W' * W) by ring.
    apply Z.mul_le_mono_nonneg_r; lia.
  - apply B2. apply (Z.mul_le_mono_pos_r _ _ W'); [exact HW'|].
    rewrite E. replace (scaled b * W * W') with (scaled b * W' * W) by ring.
    apply Z.mul_le_mono_nonneg_r; lia.
Qed.

Lemma new_location_exact (nb k : Z) : new_location nb k <> loc_Exact -> k <> 0.
Proof.
  unfold new_location, new_location_even, new_location_odd.
  intros H E. subst k. apply H. destruct (Z.even nb); reflexivity.
Qed.

Lemma div_core_brackets (mx my : positive) (ex ey : Z) :
  -149 <= ex -> -149 <= ey ->
  let '(q, e', l) := SFdiv_core_binary prec emax (Zpos mx) ex (Zpos my) ey in
  brackets_q (Zpos my * 2 ^ (ey + 149)) (Zpos mx * 2 ^ (ex + 149) * 2 ^ 149)
             (binary_round_aux prec emax false q e' l).
Proof.
  intros Ex Ey.
  pose proof (div_round_ready mx my ex ey) as Ready.
  unfold SFdiv_core_binary in *. cbn [Zdigits2] in *.
  set (d1 := Zpos (digits2_pos mx)) in *. set (d2 := Zpos (digits2_pos my)) in *.
  set (e' := Z.min (fexp prec emax (d1 + ex - (d2 + ey))) (ex - ey)) in *.
  set (s := ex - ey - e') in *.
  assert (Hs : 0 <= s) by (unfold s, e'; lia).
  set (m' := match s with 0 => Zpos mx | Zpos _ => Z.shiftl (Zpos mx) s | Zneg _ => 0 end) in *.
  assert (Em' : m' = Zpos mx * 2 ^ s).
  { unfold m'. destruct s as [|p|p] eqn:Es; [cbn; lia| |lia].
    apply Z.shiftl_mul_pow2. lia. }
  pose proof (Z_div_mod m' (Zpos my) ltac:(lia)) as DM.
  destruct (Z.div_eucl m' (Zpos my)) as [q r] eqn:Edm.
  destruct DM as [Eq Rr]. destruct Ready as [Hq Hfexp].
  set (u := Z.max 0 (- (e' + 149))).
  assert (Hu : 0 <= u /\ 0 <= e' + 149 + u) by (unfold u; lia).
  set (T := 2 ^ (e' + 149 + u)).
  assert (PT : 0 < T) by (apply Z.pow_pos_nonneg; lia).
  assert (Pu : 0 < 2 ^ u) by (apply Z.pow_pos_nonneg; lia).
  assert (B : brackets_q (Zpos my * 2 ^ u) (m' * T)
                (binary_round_aux prec emax false q e' (new_location (Zpos my) r))).
  { apply (round_aux_brackets_q q e' _ (Zpos my * 2 ^ u) (Zpos my * T)).
    - exact Hq.
    - exact Hfexp.
    - lia.
    - lia.
    - intros k Hk He. unfold T.
      replace (2 ^ (e' + k + 149) * (Zpos my * 2 ^ u))
        with (Zpos my * (2 ^ (e' + k + 149) * 2 ^ u)) by ring.
      replace (2 ^ k * (Zpos my * 2 ^ (e' + 149 + u)))
        with (Zpos my * (2 ^ k * 2 ^ (e' + 149 + u))) by ring.
      rewrite <- !Z.pow_add_r by lia. do 2 f_equal. lia.
    - rewrite Eq. split.
      + replace (Zpos my * T * q) with (Zpos my * q * T) by ring.
        apply Z.mul_le_mono_nonneg_r; lia.
      + replace (Zpos my * T * (q + 1)) with ((Zpos my * q + Zpos my) * T) by ring.
        apply Z.mul_lt_mono_pos_r; lia.
    - intro NX. apply new_location_exact in NX. rewrite Eq.
      replace (Zpos my * T * q) with (Zpos my * q * T) by ring.
      apply Z.mul_lt_mono_pos_r; lia. }
  assert (HW : 0 < Zpos my * 2 ^ u) by lia.
  assert (HW' : 0 < Zpos my * 2 ^ (ey + 149))
    by (apply Z.mul_pos_pos; [lia | apply Z.pow_pos_nonneg; lia]).
  apply (brackets_q_scale (Zpos my * 2 ^ u) (m' * T) _ _ _ HW HW'); [|exact B].
  rewrite Em'. unfold T.
  replace (Zpos mx * 2 ^ s * 2 ^ (e' + 149 + u) * (Zpos my * 2 ^ (ey + 149)))
    with (Zpos mx * Zpos my * (2 ^ s * 2 ^ (e' + 149 + u) * 2 ^ (ey + 149))) by ring.
  replace (Zpos mx * 2 ^ (ex + 149) * 2 ^ 149 * (Zpos my * 2 ^ u))
    with (Zpos mx * Zpos my * (2 ^ (ex + 149) * 2 ^ 149 * 2 ^ u)) by ring.
  rewrite <- !Z.pow_add_r by lia. do 2 f_equal. unfold s. lia.
Qed.

(** The quotient of a finite float by a positive finite float is one of
    the two neighbours of the exact quotient. *)
Lemma SFdiv_brackets (x y : float32) :
  valid x -> valid y -> is_finite x = true -> is_finite y = true -> 0 < scaled y ->
  brackets_q (scaled y) (scaled x * 2 ^ 149) (SFdiv prec emax x y).
Proof.
  intros Vx Vy Fx Fy Py.
  destruct y as [sy|sy| |sy my ey]; try discriminate.
  destruct sy.
  { exfalso. pose proof (finite_pos my ey (valid_finite_emin _ _ _ Vy)).
    cbn [scaled cond_Zopp] in Py. lia. }
  pose proof (valid_finite_emin _ _ _ Vy) as Ey.
  destruct x as [sx|sx| |sx mx ex]; try discriminate.
  - cbn [SFdiv scaled]. split; [reflexivity|]. split; [reflexivity|].
    intros b _ _. cbn [scaled cond_Zopp] in *. split; intro; nia.
  - pose proof (valid_finite_emin _ _ _ Vx) as Ex.
    pose proof (div_core_brackets mx my ex ey Ex Ey) as B.
    cbn [SFdiv scaled cond_Zopp].
    destruct (SFdiv_core_binary prec emax (Zpos mx) ex (Zpos my) ey) as [[q e'] l].
    destruct sx; cbn [xorb cond_Zopp].
    + rewrite round_aux_opp.
      replace (- (Zpos mx * 2 ^ (ex + 149)) * 2 ^ 149)
        with (- (Zpos mx * 2 ^ (ex + 149) * 2 ^ 149)) by ring.
      apply brackets_q_opp. exact B.
    + exact B.
Qed.

(** ** radomizer.c: a draw is defined *)

Lemma pow2_facts (j : Z) :
  -126 <= j <= 127 ->
  valid (pow2 j) /\ is_nan (pow2 j) = false /\ scaled (pow2 j) = 2 ^ (j + 149).
Proof.
  intro Hj. unfold pow2. split; [|split; [reflexivity|]].
  - unfold valid, valid_binary, bounded. apply andb_true_intro. split.
    + apply canonical_intro with (d := 24); [cbn; lia | lia].
    + apply Z.leb_le. change (emax - prec) with 104. lia.
  - cbn [scaled cond_Zopp]. change (Zpos 8388608) with (2 ^ 23).
    rewrite <- Z.pow_add_r by lia. f_equal. lia.
Qed.

(** X26: in binary32, a draw of the radomizer.c randomizer never
    executes undefined behaviour when [min <= max], both bounds are at
    most [2^j] in magnitude ([-100 <= j <= 100]) and the resolution is at
    least [2^(j-26)]: the conversion of the step count to [int] is in
    range for every seed. *)
Theorem X26_randomizerC_draw_is_defined :
  forall (rand : RandomizerC.qx_randomizer (FO := binary32)) (j : Z),
    -100 <= j <= 100 ->
    valid (RandomizerC.min rand) -> valid (RandomizerC.max rand) ->
    valid (RandomizerC.resolution rand) ->
    is_finite (RandomizerC.resolution rand) = true ->
    fle (RandomizerC.min rand) (RandomizerC.max rand) = true ->
    - 2 ^ (j + 149) <= scaled (RandomizerC.min rand) ->
    scaled (RandomizerC.max rand) <= 2 ^ (j + 149) ->
    2 ^ (j - 26 + 149) <= scaled (RandomizerC.resolution rand) ->
    exists (rand' : RandomizerC.qx_randomizer (FO := binary32)) (v : float32),
      RandomizerC.qx_randomizer_get_float rand = Some (rand', v).
Proof.
  intros rand j Hj Vmin Vmax Vres Fres Hle Lmin Umax Lres.
  set (mn := RandomizerC.min rand) in *. set (mx := RandomizerC.max rand) in *.
  set (res := RandomizerC.resolution rand) in *.
  set (E := 2 ^ (j + 149)) in *.
  assert (PE : 0 < E) by (apply Z.pow_pos_nonneg; lia).
  assert (P : 0 < 2 ^ 149) by (apply Z.pow_pos_nonneg; lia).
  assert (E26 : E = 2 ^ 26 * 2 ^ (j - 26 + 149)).
  { unfold E. rewrite <- Z.pow_add_r by lia. f_equal. lia. }
  assert (Eres : E <= 2 ^ 26 * scaled res) by (rewrite E26; apply Z.mul_le_mono_nonneg_l; lia).
  assert (Pres : 0 < scaled res).
  { assert (0 < 2 ^ (j - 26 + 149)) by (apply Z.pow_pos_nonneg; lia). lia. }
  assert (Big : 16 * E < 2 ^ 277).
  { unfold E. change 16 with (2 ^ 4). rewrite <- Z.pow_add_r by lia.
    apply Z.pow_lt_mono_r; lia. }
  destruct (pow2_facts (j + 1) ltac:(lia)) as (V1 & N1 & S1).
  destruct (pow2_facts (j + 2) ltac:(lia)) as (V2 & N2 & S2).
  destruct (pow2_facts (j + 3) ltac:(lia)) as (V3 & N3 & S3).
  destruct (pow2_facts 29 ltac:(lia)) as (V29 & N29 & S29).
  destruct (pow2_facts 30 ltac:(lia)) as (V30 & N30 & S30).
  replace (2 ^ (j + 1 + 149)) with (2 * E) in S1
    by (unfold E; replace (j + 1 + 149) with (1 + (j + 149)) by lia; rewrite (Z.pow_add_r 2 1 (j + 149)) by lia; reflexivity).
  replace (2 ^ (j + 2 + 149)) with (4 * E) in S2
    by (unfold E; replace (j + 2 + 149) with (2 + (j + 149)) by lia; rewrite (Z.pow_add_r 2 2 (j + 149)) by lia; reflexivity).
  replace (2 ^ (j + 3 + 149)) with (8 * E) in S3
    by (unfold E; replace (j + 3 + 149) with (3 + (j + 149)) by lia; rewrite (Z.pow_add_r 2 3 (j + 149)) by lia; reflexivity).
  clearbody E.
  pose proof (SFleb_true_scaled _ _ Vmin Vmax Hle) as Smm.
  destruct (SFleb_not_nan _ _ Hle) as [Nmin Nmax].
  assert (Fmin : is_finite mn = true) by (apply finite_of_scaled; [exact Nmin | lia]).
  assert (Fmax : is_finite mx = true) by (apply finite_of_scaled; [exact Nmax | lia]).
  unfold RandomizerC.qx_randomizer_get_float. fold mn mx res.
  set (seed' := RandomizerC.qx_randomizer_next_seed (RandomizerC.seed rand)).
  assert (Hseed : 0 <= seed' < 2 ^ 32).
  { unfold seed'. rewrite next_seed_mod. apply Z.mod_pos_bound. reflexivity. }
  b32_ops.
  (* normalized, in [0, 1] *)
  destruct (of_int_small_facts seed' ltac:(lia)) as (Vs & Fs & _ & Ps).
  assert (Us : scaled (of_int seed') <= 2 ^ 181).
  { assert (Vb : valid (S754_finite false 8388608 9)) by reflexivity.
    pose proof (of_int_upper seed' (S754_finite false 8388608 9) Vb eq_refl) as U.
    cbn [scaled cond_Zopp] in U. change (Zpos 8388608 * 2 ^ (9 + 149)) with (2 ^ 32 * 2 ^ 149) in U.
    change (2 ^ 181) with (2 ^ 32 * 2 ^ 149). apply U. nia. }
  change (of_int UINT32_MAX) with (S754_finite false 8388608 9).
  set (b0 := S754_finite false 8388608 9).
  assert (Sb0 : scaled b0 = 2 ^ 181) by reflexivity.
  pose proof (SFdiv_brackets (of_int seed') b0 Vs eq_refl Fs eq_refl ltac:(rewrite Sb0; lia))
    as (Vn & Nn & Bn).
  rewrite Sb0 in Bn.
  set (normalized := SFdiv prec emax (of_int seed') b0) in *.
  assert (Sn : 0 <= scaled normalized <= 2 ^ 149).
  { split.
    - apply (Bn (S754_zero false) eq_refl eq_refl). cbn [scaled]. nia.
    - pose proof (proj2 (Bn _ valid_f1 eq_refl)) as U. rewrite scaled_f1 in U. apply U. nia. }
  assert (P277 : 2 ^ 149 < 2 ^ 277) by (apply Z.pow_lt_mono_r; lia).
  assert (Fn : is_finite normalized = true) by (apply finite_of_scaled; [exact Nn | lia]).
  (* range, in [0, 2^(j+1)] *)
  pose proof (SFsub_brackets mx mn Vmax Vmin Fmax Fmin) as Brange.
  set (range := SFsub prec emax mx mn) in *.
  assert (Srange : 0 <= scaled range <= 2 * E).
  { split; [apply (brackets_sign _ _ Brange); lia|].
    rewrite <- S1. apply (brackets_le _ (scaled mx - scaled mn) range V1 N1); [rewrite S1; lia | exact Brange]. }
  destruct Brange as (Vrange & Nrange & _).
  assert (Frange : is_finite range = true) by (apply finite_of_scaled; [exact Nrange | lia]).
  (* normalized * range, in [0, 2^(j+1)] *)
  pose proof (SFmul_brackets normalized range Vn Vrange Fn Frange) as (Vx & Nx & Bx).
  set (x := SFmul prec emax normalized range) in *.
  assert (Sx : 0 <= scaled x <= 2 * E).
  { split.
    - apply (Bx (S754_zero false) eq_refl eq_refl). cbn [scaled]. nia.
    - rewrite <- S1. apply (Bx _ V1 N1). rewrite S1. nia. }
  assert (Fx : is_finite x = true) by (apply finite_of_scaled; [exact Nx | lia]).
  (* value = min + x *)
  pose proof (SFadd_brackets mn x Vmin Vx Fmin Fx) as Bvalue.
  set (value := SFadd prec emax mn x) in *.
  assert (Svalue : scaled mn <= scaled value <= 4 * E).
  { split; [apply (brackets_ge mn (scaled mn + scaled x) value Vmin Nmin); [lia | exact Bvalue]|].
    rewrite <- S2. apply (brackets_le _ (scaled mn + scaled x) value V2 N2); [rewrite S2; lia | exact Bvalue]. }
  destruct Bvalue as (Vvalue & Nvalue & _).
  assert (Fvalue : is_finite value = true) by (apply finite_of_scaled; [exact Nvalue | lia]).
  (* value - min *)
  pose proof (SFsub_brackets value mn Vvalue Vmin Fvalue Fmin) as Ba.
  set (a := SFsub prec emax value mn) in *.
  assert (Sa : 0 <= scaled a <= 8 * E).
  { split; [apply (brackets_sign _ _ Ba); lia|].
    rewrite <- S3. apply (brackets_le _ (scaled value - scaled mn) a V3 N3); [rewrite S3; lia | exact Ba]. }
  destruct Ba as (Va & Na & _).
  assert (Fa : is_finite a = true) by (apply finite_of_scaled; [exact Na | lia]).
  (* steps *)
  pose proof (SFdiv_brackets a res Va Vres Fa Fres Pres) as (Vst & Nst & Bst).
  set (steps := SFdiv prec emax a res) in *.
  assert (Sst : 0 <= scaled steps <= 2 ^ (29 + 149)).
  { split.
    - apply (Bst (S754_zero false) eq_refl eq_refl). cbn [scaled]. nia.
    - rewrite <- S29. apply (Bst _ V29 N29). rewrite S29.
      change (2 ^ (29 + 149)) with (2 ^ 29 * 2 ^ 149).
      replace (2 ^ 29 * 2 ^ 149 * scaled res) with (8 * (2 ^ 26 * scaled res) * 2 ^ 149)
        by (change (2 ^ 29) with (8 * 2 ^ 26); ring).
      apply Z.mul_le_mono_nonneg_r; lia. }
  assert (B178 : 2 ^ (29 + 149) < 2 ^ 277) by (apply Z.pow_lt_mono_r; lia).
  assert (Fst : is_finite steps = true) by (apply finite_of_scaled; [exact Nst | lia]).
  (* steps + 0.5 *)
  assert (Vh : valid half) by reflexivity.
  pose proof (SFadd_brackets steps half Vst Vh Fst eq_refl) as Bt.
  change (scaled half) with (2 ^ 148) in Bt.
  set (t := SFadd prec emax steps half) in *.
  assert (St : 0 <= scaled t <= 2 ^ (30 + 149)).
  { split; [apply (brackets_sign _ _ Bt); lia|].
    rewrite <- S30. apply (brackets_le _ (scaled steps + 2 ^ 148) t V30 N30); [|exact Bt].
    rewrite S30. change (2 ^ (30 + 149)) with (2 ^ (29 + 149) + 2 ^ (29 + 149)).
    assert (2 ^ 148 <= 2 ^ (29 + 149)) by (apply Z.pow_le_mono_r; lia). lia. }
  destruct Bt as (Vt & Nt & _).
  assert (B179 : 2 ^ (30 + 149) < 2 ^ 277) by (apply Z.pow_lt_mono_r; lia).
  assert (Ft : is_finite t = true) by (apply finite_of_scaled; [exact Nt | lia]).
  destruct (to_int_in_range t (2 ^ 30) Vt Ft) as [Et _].
  { unfold INT_MAX. lia. }
  { change (2 ^ (30 + 149)) with (2 ^ 30 * 2 ^ 149) in St. nia. }
  cbn [int_of_float binary32] in Et. rewrite Et. cbn [bind].
  eexists. eexists. reflexivity.
Qed.

Lemma X26_randomizerC_draw_is_defined_witness :
  exists (rand' : RandomizerC.qx_randomizer (FO := binary32)) (v : float32),
    RandomizerC.qx_randomizer_get_float unit_randomizer = Some (rand', v).
Proof.
  refine (X26_randomizerC_draw_is_defined unit_randomizer 0 _ _ _ _ _ _ _ _ _);
    try reflexivity; try discriminate.
  lia.
Defined.

(** ** binary32: round to nearest, ties to even *)

Lemma iter_pos_nat {A : Type} (f : A -> A) (p : positive) : forall x,
  iter_pos f p x = Nat.iter (Pos.to_nat p) f x.
Proof.
  assert (Sw : forall n y, Nat.iter n f (f y) = f (Nat.iter n f y)).
  { induction n as [|n IHn]; intro y; simpl; [reflexivity | rewrite IHn; reflexivity]. }
  induction p as [p IH|p IH|]; intro x; cbn [iter_pos].
  - rewrite !IH, Pos2Nat.inj_xI.
    replace (S (2 * Pos.to_nat p)) with (S (Pos.to_nat p + Pos.to_nat p)) by lia.
    simpl Nat.iter. rewrite Nat.iter_add, !Sw. reflexivity.
  - rewrite !IH, Pos2Nat.inj_xO.
    replace (2 * Pos.to_nat p)%nat with (Pos.to_nat p + Pos.to_nat p)%nat by lia.
    rewrite Nat.iter_add. reflexivity.
  - reflexivity.
Qed.

Lemma shr_1_fields (a : shr_record) :
  0 <= shr_m a ->
  shr_m (shr_1 a) = shr_m a / 2 /\ shr_r (shr_1 a) = Z.odd (shr_m a) /\
  shr_s (shr_1 a) = shr_r a || shr_s a.
Proof.
  destruct a as [m r s]. cbn [shr_m shr_r shr_s]. intro Hm.
  destruct m as [|p|p]; [| |lia].
  - repeat split.
  - destruct p as [p|p|]; cbn [shr_1 shr_m shr_r shr_s].
    + split; [|split; reflexivity].
      change (Zpos p~1) with (2 * Zpos p + 1).
      apply Z.div_unique with (r := 1); lia.
    + split; [|split; reflexivity].
      change (Zpos p~0) with (2 * Zpos p).
      apply Z.div_unique with (r := 0); lia.
    + repeat split.
Qed.

Lemma odd_mod2 (x : Z) : Z.odd x = true <-> x mod 2 = 1.
Proof.
  rewrite Zmod_odd. destruct (Z.odd x); split; intro; try reflexivity; try discriminate.
Qed.

(** After [n + 1] shifts, the round bit is bit [n] of the mantissa and the
    sticky bit tells whether a lower bit is set. *)
Lemma shr_iter_loc (M : Z) (n : nat) :
  0 <= M ->
  let a := Nat.iter (S n) shr_1 {| shr_m := M; shr_r := false; shr_s := false |} in
  shr_m a = M / 2 ^ (Z.of_nat n + 1) /\
  shr_r a = Z.odd (M / 2 ^ Z.of_nat n) /\
  shr_s a = negb (M mod 2 ^ Z.of_nat n =? 0).
Proof.
  intro HM. induction n as [|n IH].
  - change (Nat.iter 1 shr_1 {| shr_m := M; shr_r := false; shr_s := false |})
      with (shr_1 {| shr_m := M; shr_r := false; shr_s := false |}).
    destruct (shr_1_fields {| shr_m := M; shr_r := false; shr_s := false |} HM)
      as (A & B & C). cbn [shr_m shr_r shr_s] in *.
    cbv zeta. rewrite A, B, C. change (2 ^ (Z.of_nat 0 + 1)) with 2.
    change (2 ^ Z.of_nat 0) with 1. rewrite Z.div_1_r, Z.mod_1_r. repeat split.
  - cbv zeta in *. destruct IH as (A & B & C).
    set (a := Nat.iter (S n) shr_1 {| shr_m := M; shr_r := false; shr_s := false |}) in *.
    change (Nat.iter (S (S n)) shr_1 {| shr_m := M; shr_r := false; shr_s := false |})
      with (shr_1 a).
    assert (Pn : 0 < 2 ^ Z.of_nat n) by (apply Z.pow_pos_nonneg; lia).
    assert (Ha : 0 <= shr_m a) by (rewrite A; apply Z.div_pos; [lia | apply Z.pow_pos_nonneg; lia]).
    destruct (shr_1_fields a Ha) as (A' & B' & C').
    rewrite A', B', C', A, B, C.
    replace (Z.of_nat (S n)) with (Z.of_nat n + 1) by lia.
    assert (E1 : 2 ^ (Z.of_nat n + 1) = 2 ^ Z.of_nat n * 2)
      by (rewrite Z.pow_add_r by lia; reflexivity).
    split; [|split; [reflexivity|]].
    + rewrite (Z.pow_add_r 2 (Z.of_nat n + 1) 1) by lia. change (2 ^ 1) with 2.
      rewrite Z.div_div by lia. reflexivity.
    + rewrite E1. rewrite Z.rem_mul_r by lia.
      pose proof (Z.mod_pos_bound M (2 ^ Z.of_nat n) Pn) as Hr.
      pose proof (Z.mod_pos_bound (M / 2 ^ Z.of_nat n) 2 ltac:(lia)) as Hb.
      destruct (Z.odd (M / 2 ^ Z.of_nat n)) eqn:O.
      * apply odd_mod2 in O. rewrite O. cbn [orb].
        symmetry. apply negb_true_iff. apply Z.eqb_neq. lia.
      * assert (O' : (M / 2 ^ Z.of_nat n) mod 2 = 0).
        { destruct (Z.eq_dec ((M / 2 ^ Z.of_nat n) mod 2) 1) as [E|E].
          - apply odd_mod2 in E. congruence.
          - lia. }
        rewrite O'. cbn [orb]. rewrite Z.mul_0_r, Z.add_0_r. reflexivity.
Qed.

(** The choice made by [round_nearest_even] after a shift by [k] bits of
    an exact mantissa [M]: by the remainder [M mod 2^k] against half. *)
Lemma rne_choice (M e n : Z) :
  0 <= M ->
  let k := Z.max 0 n in
  let mrs := fst (shr {| shr_m := M; shr_r := false; shr_s := false |} e n) in
  let m1 := round_nearest_even (M / 2 ^ k) (loc_of_shr_record mrs) in
  (m1 = M / 2 ^ k /\
   (2 * (M mod 2 ^ k) < 2 ^ k \/
    (2 * (M mod 2 ^ k) = 2 ^ k /\ Z.even (M / 2 ^ k) = true))) \/
  (m1 = M / 2 ^ k + 1 /\
   (2 ^ k < 2 * (M mod 2 ^ k) \/
    (2 * (M mod 2 ^ k) = 2 ^ k /\ Z.odd (M / 2 ^ k) = true))).
Proof.
  intro HM. cbv zeta. unfold shr.
  destruct n as [|p|p]; cbn [fst].
  - left. cbn. rewrite Z.div_1_r, Z.mod_1_r. split; [reflexivity | left; lia].
  - replace (Z.max 0 (Zpos p)) with (Zpos p) by lia.
    rewrite iter_pos_nat.
    destruct (Pos2Nat.is_succ p) as [n En]. rewrite En.
    destruct (shr_iter_loc M n HM) as (A & B & C).
    set (a := Nat.iter (S n) shr_1 _) in *.
    assert (Ep : Zpos p = Z.of_nat n + 1) by lia.
    rewrite Ep.
    assert (Pn : 0 < 2 ^ Z.of_nat n) by (apply Z.pow_pos_nonneg; lia).
    assert (E1 : 2 ^ (Z.of_nat n + 1) = 2 ^ Z.of_nat n * 2)
      by (rewrite Z.pow_add_r by lia; reflexivity).
    assert (R : M mod 2 ^ (Z.of_nat n + 1)
                = M mod 2 ^ Z.of_nat n + 2 ^ Z.of_nat n * ((M / 2 ^ Z.of_nat n) mod 2))
      by (rewrite E1; apply Z.rem_mul_r; lia).
    pose proof (Z.mod_pos_bound M (2 ^ Z.of_nat n) Pn) as Hr.
    rewrite R, E1.
    destruct a as [ma ra sa]. cbn [shr_m shr_r shr_s loc_of_shr_record] in *.
    destruct ra; destruct sa; cbn [round_nearest_even].
    + (* above half *)
      symmetry in B. apply odd_mod2 in B. rewrite B.
      symmetry in C. apply negb_true_iff in C. apply Z.eqb_neq in C.
      right. split; [reflexivity | left; lia].
    + (* half *)
      symmetry in B. apply odd_mod2 in B. rewrite B.
      symmetry in C. apply negb_false_iff in C. apply Z.eqb_eq in C. rewrite C.
      destruct (Z.even (M / (2 ^ Z.of_nat n * 2))) eqn:Ev.
      * left. split; [reflexivity | right; split; [lia | reflexivity]].
      * right. split; [reflexivity | right; split; [lia|]].
        rewrite <- Z.negb_even, Ev. reflexivity.
    + (* below half *)
      assert (O' : (M / 2 ^ Z.of_nat n) mod 2 = 0).
      { pose proof (Z.mod_pos_bound (M / 2 ^ Z.of_nat n) 2 ltac:(lia)).
        destruct (Z.eq_dec ((M / 2 ^ Z.of_nat n) mod 2) 1) as [E|E]; [|lia].
        apply odd_mod2 in E. congruence. }
      rewrite O'. left. split; [reflexivity | left; lia].
    + assert (O' : (M / 2 ^ Z.of_nat n) mod 2 = 0).
      { pose proof (Z.mod_pos_bound (M / 2 ^ Z.of_nat n) 2 ltac:(lia)).
        destruct (Z.eq_dec ((M / 2 ^ Z.of_nat n) mod 2) 1) as [E|E]; [|lia].
        apply odd_mod2 in E. congruence. }
      rewrite O'. left. split; [reflexivity | left; lia].
  - left. cbn. rewrite Z.div_1_r, Z.mod_1_r. split; [reflexivity | left; lia].
Qed.

Lemma round_aux_nearest_q (mz ez W A : Z) :
  0 <= mz -> ez <= fexp prec emax (Zdigits2 mz + ez) ->
  0 < W -> 0 < A ->
  (forall k, 0 <= k -> -149 <= ez + k -> 2 ^ (ez + k + 149) * W = 2 ^ k * A) ->
  nearest_q W (A * mz) (binary_round_aux prec emax false mz ez loc_Exact).
Proof.
  intros Hm Hfexp HW HA Hgrid.
  destruct (round_aux_value false mz ez loc_Exact Hm Hfexp)
    as (m' & m1 & k & Ek & He' & Em' & Em1 & _ & Hcan & Vr & Nr & Sr & Ev).
  cbn [cond_Zopp] in Sr.
  assert (Hk : 0 <= k) by lia.
  pose proof (rne_choice mz ez (fexp prec emax (Zdigits2 mz + ez) - ez) Hm) as Ch.
  cbv zeta in Ch. rewrite <- Ek in Ch.
  unfold shr_fexp in Em1. cbn [shr_record_of_loc] in Em1.
  rewrite <- Em' in Ch. rewrite <- Em1 in Ch.
  specialize (Hgrid k Hk He').
  set (G := 2 ^ (ez + k + 149)) in *.
  assert (PG : 0 < G) by (apply Z.pow_pos_nonneg; lia).
  assert (Pk : 0 < 2 ^ k) by (apply Z.pow_pos_nonneg; lia).
  assert (P277 : 0 < 2 ^ 277) by (apply Z.pow_pos_nonneg; lia).
  pose proof (Z.div_mod mz (2 ^ k) ltac:(lia)) as Hdiv. rewrite <- Em' in Hdiv.
  pose proof (Z.mod_pos_bound mz (2 ^ k) Pk) as Hrem.
  set (R := mz mod 2 ^ k) in *.
  assert (Hm'0 : 0 <= m') by (rewrite Em'; apply Z.div_pos; lia).
  set (T := G * W) in *.
  assert (PT : 0 < T) by (unfold T; apply Z.mul_pos_pos; lia).
  set (X := A * R).
  assert (HX : 0 <= X < T).
  { unfold X. rewrite Hgrid. split; [apply Z.mul_nonneg_nonneg; lia|].
    rewrite (Z.mul_comm (2 ^ k) A). apply Z.mul_lt_mono_pos_l; lia. }
  assert (EN : A * mz = m' * T + X).
  { unfold X. rewrite Hgrid, Hdiv. ring. }
  assert (Ch' : (m1 = m' /\ (2 * X < T \/ (2 * X = T /\ Z.even m' = true))) \/
                (m1 = m' + 1 /\ (T < 2 * X \/ (2 * X = T /\ Z.odd m' = true)))).
  { unfold X. rewrite Hgrid.
    replace (2 * (A * R)) with (A * (2 * R)) by ring.
    rewrite (Z.mul_comm (2 ^ k) A).
    destruct Ch as [[E1 [C|[C P]]]|[E1 [C|[C P]]]].
    - left. split; [exact E1|]. left. apply Z.mul_lt_mono_pos_l; lia.
    - left. split; [exact E1|]. right. split; [rewrite C; reflexivity | exact P].
    - right. split; [exact E1|]. left. apply Z.mul_lt_mono_pos_l; lia.
    - right. split; [exact E1|]. right. split; [rewrite C; reflexivity | exact P]. }
  assert (HT : forall u, u * G * W = u * T) by (intro u; unfold T; ring).
  clear Ch. rewrite EN. clearbody X T.
  split; [exact Vr|]. split; [exact Nr|].
  intros b Vb Nb. rewrite Sr.
  destruct (gap_all m' (ez + k) b Hcan Vb Nb) as [Gdn Gup]. fold G in Gdn, Gup.
  destruct (gap_all m' (ez + k) (S754_infinity false) Hcan eq_refl eq_refl) as [_ Ginf].
  fold G in Ginf. cbn [scaled cond_Zopp] in Ginf.
  pose proof (scaled_bound b Vb) as Bb.
  set (sb := scaled b) in *.
  assert (Cancel : forall u v, u * W = v * W -> u = v).
  { intros u v E. apply Z.mul_cancel_r in E; lia. }
  assert (Mono : forall u v, u <= v -> u * W <= v * W)
    by (intros u v L; apply Z.mul_le_mono_nonneg_r; lia).
  destruct (Z.le_gt_cases (2 ^ 277) (m' * G)) as [Over|Fin].
  - (* beyond the largest finite value *)
    assert (E277 : Z.min (m1 * G) (2 ^ 277) = 2 ^ 277).
    { destruct Ch' as [[-> _]|[-> _]]; nia. }
    rewrite E277.
    pose proof (Mono _ _ Over) as O1. rewrite HT in O1.
    pose proof (Mono sb (2 ^ 277) ltac:(lia)) as O2.
    split; [lia|]. intros Tie Ne. exfalso. apply Ne. apply Cancel. lia.
  - specialize (Ginf Fin).
    destruct Ch' as [[E1 C]|[E1 C]]; rewrite E1.
    + (* rounded down *)
      replace (Z.min (m' * G) (2 ^ 277)) with (m' * G) by lia.
      rewrite HT.
      destruct (Z.le_gt_cases sb (m' * G)) as [Lo|Hi].
      * pose proof (Mono _ _ Lo) as O1. rewrite HT in O1.
        split; [lia|]. intros Tie Ne. exfalso. apply Ne. apply Cancel. rewrite HT. lia.
      * specialize (Gup Hi). pose proof (Mono _ _ Gup) as O1. rewrite HT in O1.
        split; [lia|]. intros Tie _. apply Ev. rewrite E1.
        destruct C as [C|[_ P]]; [lia | exact P].
    + (* rounded up *)
      replace (Z.min ((m' + 1) * G) (2 ^ 277)) with ((m' + 1) * G) by lia.
      rewrite HT.
      destruct (Z.le_gt_cases ((m' + 1) * G) sb) as [Hi|Lo].
      * pose proof (Mono _ _ Hi) as O1. rewrite HT in O1.
        split; [lia|]. intros Tie Ne. exfalso. apply Ne. apply Cancel. rewrite HT. lia.
      * specialize (Gdn Lo). pose proof (Mono _ _ Gdn) as O1. rewrite HT in O1.
        split; [lia|]. intros Tie _. apply Ev. rewrite E1.
        destruct C as [C|[_ P]]; [lia|].
        change (m' + 1) with (Z.succ m'). rewrite Z.even_succ. exact P.
Qed.

Lemma canonical_inj (m1 m2 : positive) (e1 e2 : Z) :
  canonical_mantissa prec emax m1 e1 = true ->
  canonical_mantissa prec emax m2 e2 = true ->
  Zpos m1 * 2 ^ (e1 + 149) = Zpos m2 * 2 ^ (e2 + 149) ->
  m1 = m2 /\ e1 = e2.
Proof.
  intros C1 C2 E.
  destruct (Z.lt_trichotomy e1 e2) as [L|[L|L]].
  - pose proof (finite_lt_exp _ _ _ _ C1 C2 L). lia.
  - subst e2. split; [|reflexivity].
    destruct (canonical_facts _ _ C1) as (A1 & _ & _).
    assert (0 < 2 ^ (e1 + 149)) by (apply Z.pow_pos_nonneg; lia).
    apply Z.mul_cancel_r in E; lia.
  - pose proof (finite_lt_exp _ _ _ _ C2 C1 L). lia.
Qed.

Lemma scaled_inj_finite (r : float32) (m : positive) (e : Z) :
  valid r -> is_nan r = false -> valid (S754_finite false m e) ->
  scaled r = Zpos m * 2 ^ (e + 149) -> r = S754_finite false m e.
Proof.
  intros Vr Nr Vb E.
  pose proof (valid_finite_emin _ _ _ Vb) as He.
  assert (P : 0 < 2 ^ (e + 149)) by (apply Z.pow_pos_nonneg; lia).
  assert (Pv : 0 < Zpos m * 2 ^ (e + 149)) by (apply Z.mul_pos_pos; lia).
  pose proof (finite_scaled_bound _ Vb eq_refl) as Bb. cbn [scaled cond_Zopp] in Bb.
  destruct r as [s|s| |s m' e']; try discriminate.
  - cbn [scaled] in E. lia.
  - destruct s; cbn [scaled cond_Zopp] in E; lia.
  - pose proof (valid_finite_emin _ _ _ Vr) as He'.
    assert (P' : 0 < 2 ^ (e' + 149)) by (apply Z.pow_pos_nonneg; lia).
    assert (Pv' : 0 < Zpos m' * 2 ^ (e' + 149)) by (apply Z.mul_pos_pos; lia).
    destruct s; cbn [scaled cond_Zopp] in E; [lia|].
    destruct (canonical_inj _ _ _ _ (valid_canonical _ _ _ Vr) (valid_canonical _ _ _ Vb) E)
      as [-> ->].
    reflexivity.
Qed.

Lemma even_succ_valid (m : positive) (e : Z) :
  valid (S754_finite false m e) -> Z.even (Zpos m) = true ->
  valid (S754_finite false (m + 1) e).
Proof.
  intros V Ev. unfold valid, valid_binary, bounded in *.
  apply andb_prop in V. destruct V as [C B].
  apply andb_true_intro. split; [|exact B].
  pose proof (digits2_bounds m) as [Dlo Dhi].
  unfold canonical_mantissa in C. rewrite fexp_eq in C. apply Z.eqb_eq in C.
  set (d := Zpos (digits2_pos m)) in *.
  assert (Hd : 0 < d) by (unfold d; lia).
  apply canonical_intro with (d := d); [|exact C].
  rewrite Pos2Z.inj_add. split; [lia|].
  apply Z.even_spec in Ev. destruct Ev as [h Eh].
  assert (E2 : 2 ^ d = 2 * 2 ^ (d - 1)).
  { replace d with (1 + (d - 1)) at 1 by lia. rewrite Z.pow_add_r by lia. reflexivity. }
  lia.
Qed.

Lemma mant_even_opp (x : float32) : mant_even (SFopp x) = mant_even x.
Proof. destruct x; reflexivity. Qed.

(** Two distinct well-formed floats with even mantissas are never neighbours. *)
Lemma even_neighbours_nonneg (r1 r2 : float32) :
  valid r1 -> valid r2 -> is_nan r1 = false -> is_nan r2 = false ->
  mant_even r1 = true -> mant_even r2 = true ->
  0 <= scaled r2 < scaled r1 ->
  exists b : float32, valid b /\ is_nan b = false /\ scaled r2 < scaled b < scaled r1.
Proof.
  intros V1 V2 N1 N2 E1 E2 [H0 Hlt].
  pose proof (scaled_bound r1 V1) as B1.
  assert (P277 : 0 < 2 ^ 277) by (apply Z.pow_pos_nonneg; lia).
  destruct r2 as [s|s| |s m e]; try discriminate.
  - cbn [scaled] in *.
    assert (Vb : valid (S754_finite false 1 (-149))) by reflexivity.
    exists (S754_finite false 1 (-149)). split; [exact Vb|]. split; [reflexivity|].
    change (scaled (S754_finite false 1 (-149))) with 1.
    split; [lia|].
    destruct (Z.eq_dec (scaled r1) 1) as [E|E]; [|lia].
    rewrite (scaled_inj_finite r1 1 (-149) V1 N1 Vb E) in E1. discriminate.
  - destruct s; cbn [scaled cond_Zopp] in *; lia.
  - pose proof (valid_finite_emin _ _ _ V2) as He.
    assert (P : 0 < 2 ^ (e + 149)) by (apply Z.pow_pos_nonneg; lia).
    destruct s; cbn [scaled cond_Zopp] in *; [lia|].
    cbn [mant_even] in E2.
    pose proof (even_succ_valid m e V2 E2) as Vb.
    exists (S754_finite false (m + 1) e). split; [exact Vb|]. split; [reflexivity|].
    cbn [scaled cond_Zopp]. rewrite Pos2Z.inj_add.
    split; [lia|].
    destruct (gap_all (Zpos m) e r1) as [_ Gup];
      [right; exists m; split; [reflexivity | apply (valid_canonical false); exact V2]
      | exact V1 | exact N1 |].
    specialize (Gup Hlt).
    destruct (Z.eq_dec (scaled r1) ((Zpos m + 1) * 2 ^ (e + 149))) as [E|E]; [|lia].
    rewrite <- Pos2Z.inj_add in E.
    rewrite (scaled_inj_finite r1 (m + 1) e V1 N1 Vb E) in E1. cbn [mant_even] in E1.
    rewrite Pos2Z.inj_add in E1. change (Zpos m + 1) with (Z.succ (Zpos m)) in E1.
    rewrite Z.even_succ, <- Z.negb_even, E2 in E1. discriminate.
Qed.

Lemma even_neighbours (r1 r2 : float32) :
  valid r1 -> valid r2 -> is_nan r1 = false -> is_nan r2 = false ->
  mant_even r1 = true -> mant_even r2 = true ->
  scaled r2 < scaled r1 ->
  exists b : float32, valid b /\ is_nan b = false /\ scaled r2 < scaled b < scaled r1.
Proof.
  intros V1 V2 N1 N2 E1 E2 Hlt.
  destruct (Z.le_gt_cases 0 (scaled r2)) as [P2|M2].
  - apply even_neighbours_nonneg; try assumption. lia.
  - destruct (Z.lt_ge_cases 0 (scaled r1)) as [P1|M1].
    + exists (S754_zero false). split; [reflexivity|]. split; [reflexivity|].
      cbn [scaled]. lia.
    + destruct (even_neighbours_nonneg (SFopp r2) (SFopp r1)) as (b & Vb & Nb & Hb).
      * apply valid_opp; exact V2.
      * apply valid_opp; exact V1.
      * rewrite is_nan_opp; exact N2.
      * rewrite is_nan_opp; exact N1.
      * rewrite mant_even_opp; exact E2.
      * rewrite mant_even_opp; exact E1.
      * rewrite !scaled_opp. lia.
      * rewrite !scaled_opp in Hb.
        exists (SFopp b). split; [apply valid_opp; exact Vb|].
        split; [rewrite is_nan_opp; exact Nb|]. rewrite scaled_opp. lia.
Qed.

(** Rounding to nearest, ties to even, is monotone. *)
Lemma nearest_q_mono (W1 N1 W2 N2 : Z) (r1 r2 : float32) :
  0 < W1 -> 0 < W2 ->
  nearest_q W1 N1 r1 -> nearest_q W2 N2 r2 ->
  N1 * W2 <= N2 * W1 -> scaled r1 <= scaled r2.
Proof.
  intros HW1 HW2 (V1 & Nn1 & H1) (V2 & Nn2 & H2) Hle.
  destruct (Z.le_gt_cases (scaled r1) (scaled r2)) as [L|G]; [exact L|]. exfalso.
  destruct (H1 r2 V2 Nn2) as [D1 T1]. destruct (H2 r1 V1 Nn1) as [D2 T2].
  set (s1 := scaled r1) in *. set (s2 := scaled r2) in *.
  assert (A1 : s2 * W1 < s1 * W1) by (apply Z.mul_lt_mono_pos_r; lia).
  assert (A2 : s2 * W2 < s1 * W2) by (apply Z.mul_lt_mono_pos_r; lia).
  assert (Q1 : s1 * W1 + s2 * W1 <= 2 * N1) by lia.
  assert (Q2 : 2 * N2 <= s1 * W2 + s2 * W2) by lia.
  assert (Q1' : (s1 * W1 + s2 * W1) * W2 <= 2 * N1 * W2)
    by (apply Z.mul_le_mono_nonneg_r; lia).
  assert (Q2' : 2 * N2 * W1 <= (s1 * W2 + s2 * W2) * W1)
    by (apply Z.mul_le_mono_nonneg_r; lia).
  assert (Sw : (s1 * W1 + s2 * W1) * W2 = (s1 * W2 + s2 * W2) * W1) by ring.
  assert (K1 : 2 * N1 = s1 * W1 + s2 * W1).
  { apply (Z.mul_cancel_r _ _ W2); lia. }
  assert (K2 : 2 * N2 = s1 * W2 + s2 * W2).
  { apply (Z.mul_cancel_r _ _ W1); lia. }
  specialize (T1 ltac:(lia) ltac:(lia)). specialize (T2 ltac:(lia) ltac:(lia)).
  destruct (even_neighbours r1 r2 V1 V2 Nn1 Nn2 T1 T2 G) as (b & Vb & Nb & [Lb Ub]).
  destruct (H1 b Vb Nb) as [Db _].
  assert (B1 : s2 * W1 < scaled b * W1) by (apply Z.mul_lt_mono_pos_r; lia).
  assert (B2 : scaled b * W1 < s1 * W1) by (apply Z.mul_lt_mono_pos_r; lia).
  lia.
Qed.

Lemma nearest_q_opp (W N : Z) (r : float32) :
  nearest_q W N r -> nearest_q W (- N) (SFopp r).
Proof.
  intros (V & Nn & H). split; [apply valid_opp; exact V|].
  split; [rewrite is_nan_opp; exact Nn|].
  intros b Vb Nb. rewrite scaled_opp, mant_even_opp.
  destruct (H (SFopp b) (proj2 (valid_opp b) Vb) ltac:(rewrite is_nan_opp; exact Nb)) as [D T].
  rewrite scaled_opp in D, T.
  replace (- N - - scaled r * W) with (- (N - scaled r * W)) by ring.
  replace (- N - scaled b * W) with (- (N - - scaled b * W)) by ring.
  rewrite !Z.abs_opp. split; [exact D|].
  intros Tie Ne. apply T; [exact Tie | lia].
Qed.

Lemma nearest_q_self (W : Z) (r : float32) :
  0 < W -> valid r -> is_nan r = false -> nearest_q W (scaled r * W) r.
Proof.
  intros HW V Nn. split; [exact V|]. split; [exact Nn|].
  intros b _ _. rewrite Z.sub_diag. cbn [Z.abs]. split; [apply Z.abs_nonneg|].
  intros Tie Ne. exfalso. apply Ne.
  symmetry in Tie. apply Z.abs_0_iff in Tie.
  apply (Z.mul_cancel_r _ _ W); lia.
Qed.

Lemma binary_round_nearest (sx : bool) (mx : positive) (ex : Z) :
  -149 <= ex ->
  nearest_q 1 (cond_Zopp sx (Zpos mx * 2 ^ (ex + 149))) (binary_round prec emax sx mx ex).
Proof.
  intro Hex. unfold binary_round.
  pose proof (digits2_bounds mx) as Dx.
  set (d := Zpos (digits2_pos mx)) in *.
  assert (Hd : 0 < d) by (unfold d; lia).
  rewrite fexp_eq. set (F := Z.max (d + ex - 24) (-149)).
  assert (Hshape : exists mz ez,
             shl_align mx ex F = (mz, ez) /\ -149 <= ez /\
             ez <= fexp prec emax (Zpos (digits2_pos mz) + ez) /\
             Zpos mz * 2 ^ (ez + 149) = Zpos mx * 2 ^ (ex + 149)).
  { unfold shl_align. destruct (F - ex) as [|p|p] eqn:EF.
    - exists mx, ex. rewrite fexp_eq. fold d. repeat split; lia.
    - exists mx, ex. rewrite fexp_eq. fold d. repeat split; lia.
    - exists (Pos.iter xO mx p), F.
      assert (Em : Zpos (Pos.iter xO mx p) = Zpos mx * 2 ^ Zpos p) by apply iter_xO.
      assert (Pp : 0 < 2 ^ Zpos p) by (apply Z.pow_pos_nonneg; lia).
      assert (Dz : Zpos (digits2_pos (Pos.iter xO mx p)) = d + Zpos p).
      { apply digits2_unique. rewrite Em.
        replace (d + Zpos p - 1) with ((d - 1) + Zpos p) by lia.
        rewrite !Z.pow_add_r by lia. nia. }
      rewrite fexp_eq, Dz. split; [reflexivity|]. split; [lia|]. split; [lia|].
      rewrite Em. replace (ex + 149) with ((F + 149) + Zpos p) by lia.
      rewrite (Z.pow_add_r 2 (F + 149)) by lia. lia. }
  destruct Hshape as (mz & ez & -> & Hez & Hfexp & Hval).
  rewrite <- Hval.
  assert (Pos : nearest_q 1 (Zpos mz * 2 ^ (ez + 149))
                  (binary_round_aux prec emax false (Zpos mz) ez loc_Exact)).
  { rewrite (Z.mul_comm (Zpos mz)).
    apply (round_aux_nearest_q (Zpos mz) ez 1 (2 ^ (ez + 149))).
    - lia.
    - exact Hfexp.
    - lia.
    - apply Z.pow_pos_nonneg; lia.
    - intros k Hk He. rewrite Z.mul_1_r, <- Z.pow_add_r by lia. f_equal. lia. }
  destruct sx; cbn [cond_Zopp].
  - rewrite round_aux_opp. apply nearest_q_opp. exact Pos.
  - exact Pos.
Qed.

Lemma nearest_q_exact (N : Z) (r : float32) :
  valid r -> is_nan r = false -> N = scaled r -> nearest_q 1 N r.
Proof.
  intros V Nn ->. rewrite <- (Z.mul_1_r (scaled r)) at 1.
  apply nearest_q_self; [lia | exact V | exact Nn].
Qed.

Lemma binary_normalize_nearest (z e : Z) (s0 : bool) :
  -149 <= e ->
  nearest_q 1 (z * 2 ^ (e + 149)) (binary_normalize prec emax z e s0).
Proof.
  intro He. destruct z as [|p|p]; cbn [binary_normalize].
  - apply nearest_q_exact; reflexivity.
  - apply (binary_round_nearest false p e He).
  - pose proof (binary_round_nearest true p e He) as H. cbn [cond_Zopp] in H.
    replace (Zneg p * 2 ^ (e + 149)) with (- (Zpos p * 2 ^ (e + 149))) by lia.
    exact H.
Qed.

Lemma SFadd_nearest (x y : float32) :
  valid x -> valid y -> is_finite x = true -> is_finite y = true ->
  nearest_q 1 (scaled x + scaled y) (SFadd prec emax x y).
Proof.
  intros Vx Vy Fx Fy.
  destruct x as [sx|sx| |sx mx ex], y as [sy|sy| |sy my ey]; try discriminate.
  - cbn [SFadd scaled]. destruct sx, sy; apply nearest_q_exact; reflexivity.
  - cbn [SFadd]. apply nearest_q_exact; [exact Vy | reflexivity | reflexivity].
  - cbn [SFadd]. apply nearest_q_exact; [exact Vx | reflexivity |].
    cbn [scaled]. lia.
  - cbn [SFadd scaled].
    pose proof (valid_finite_emin _ _ _ Vx) as Ex.
    pose proof (valid_finite_emin _ _ _ Vy) as Ey.
    set (ez := Z.min ex ey).
    rewrite <- (shl_align_le mx ex ez), <- (shl_align_le my ey ez) by lia.
    rewrite <- !cond_Zopp_mul, <- Z.mul_add_distr_r.
    apply binary_normalize_nearest. lia.
Qed.

Lemma SFsub_nearest (x y : float32) :
  valid x -> valid y -> is_finite x = true -> is_finite y = true ->
  nearest_q 1 (scaled x - scaled y) (SFsub prec emax x y).
Proof.
  intros Vx Vy Fx Fy.
  destruct x as [sx|sx| |sx mx ex], y as [sy|sy| |sy my ey]; try discriminate.
  - cbn [SFsub scaled]. destruct sx, sy; apply nearest_q_exact; reflexivity.
  - cbn [SFsub]. change (scaled (S754_zero sx)) with 0. rewrite Z.sub_0_l.
    change (S754_finite (negb sy) my ey) with (SFopp (S754_finite sy my ey)).
    apply nearest_q_opp. apply nearest_q_exact; [exact Vy | reflexivity | reflexivity].
  - cbn [SFsub]. change (scaled (S754_zero sy)) with 0. rewrite Z.sub_0_r.
    apply nearest_q_exact; [exact Vx | reflexivity | reflexivity].
  - cbn [SFsub scaled].
    pose proof (valid_finite_emin _ _ _ Vx) as Ex.
    pose proof (valid_finite_emin _ _ _ Vy) as Ey.
    set (ez := Z.min ex ey).
    rewrite <- (shl_align_le mx ex ez), <- (shl_align_le my ey ez) by lia.
    rewrite <- !cond_Zopp_mul, <- Z.mul_sub_distr_r.
    apply binary_normalize_nearest. lia.
Qed.

Lemma SFmul_nearest (x y : float32) :
  valid x -> valid y -> is_finite x = true -> is_finite y = true ->
  nearest_q (2 ^ 149) (scaled x * scaled y) (SFmul prec emax x y).
Proof.
  intros Vx Vy Fx Fy.
  assert (P : 0 < 2 ^ 149) by (apply Z.pow_pos_nonneg; lia).
  assert (Zero : forall s, nearest_q (2 ^ 149) 0 (S754_zero s)).
  { intro s. apply (nearest_q_self (2 ^ 149) (S754_zero s) P); reflexivity. }
  destruct x as [sx|sx| |sx mx ex]; destruct y as [sy|sy| |sy my ey]; try discriminate;
    cbn [SFmul]; try (cbn [scaled]; rewrite ?Z.mul_0_l, ?Z.mul_0_r; apply Zero).
  pose proof (valid_canonical _ _ _ Vx) as Cx. pose proof (valid_canonical _ _ _ Vy) as Cy.
  pose proof (valid_finite_emin _ _ _ Vx) as Ex. pose proof (valid_finite_emin _ _ _ Vy) as Ey.
  assert (Pos : nearest_q (2 ^ 149)
                  ((Zpos mx * 2 ^ (ex + 149)) * (Zpos my * 2 ^ (ey + 149)))
                  (binary_round_aux prec emax false (Zpos (mx * my)) (ex + ey) loc_Exact)).
  { replace ((Zpos mx * 2 ^ (ex + 149)) * (Zpos my * 2 ^ (ey + 149)))
      with (2 ^ (ex + 149) * 2 ^ (ey + 149) * Zpos (mx * my))
      by (rewrite Pos2Z.inj_mul; ring).
    apply (round_aux_nearest_q (Zpos (mx * my)) (ex + ey) (2 ^ 149)
             (2 ^ (ex + 149) * 2 ^ (ey + 149))).
    - lia.
    - apply mul_round_ready; assumption.
    - exact P.
    - apply Z.mul_pos_pos; apply Z.pow_pos_nonneg; lia.
    - intros k Hk He. rewrite <- !Z.pow_add_r by lia. f_equal. lia. }
  cbn [scaled].
  destruct sx, sy; cbn [xorb cond_Zopp].
  - replace (- (Zpos mx * 2 ^ (ex + 149)) * - (Zpos my * 2 ^ (ey + 149)))
      with ((Zpos mx * 2 ^ (ex + 149)) * (Zpos my * 2 ^ (ey + 149))) by ring.
    exact Pos.
  - rewrite round_aux_opp.
    replace (- (Zpos mx * 2 ^ (ex + 149)) * (Zpos my * 2 ^ (ey + 149)))
      with (- ((Zpos mx * 2 ^ (ex + 149)) * (Zpos my * 2 ^ (ey + 149)))) by ring.
    apply nearest_q_opp. exact Pos.
  - rewrite round_aux_opp.
    replace (Zpos mx * 2 ^ (ex + 149) * - (Zpos my * 2 ^ (ey + 149)))
      with (- ((Zpos mx * 2 ^ (ex + 149)) * (Zpos my * 2 ^ (ey + 149)))) by ring.
    apply nearest_q_opp. exact Pos.
  - exact Pos.
Qed.

Lemma of_int_nearest (z : Z) : nearest_q 1 (z * 2 ^ 149) (of_int z).
Proof.
  pose proof (binary_normalize_nearest z 0 false ltac:(lia)) as B.
  change (binary_normalize prec emax z 0 false) with (of_int z) in B.
  change (0 + 149) with 149 in B. exact B.
Qed.

Lemma SFsub_mono (x1 y1 x2 y2 : float32) :
  valid x1 -> valid y1 -> valid x2 -> valid y2 ->
  is_finite x1 = true -> is_finite y1 = true -> is_finite x2 = true -> is_finite y2 = true ->
  scaled x1 - scaled y1 <= scaled x2 - scaled y2 ->
  scaled (SFsub prec emax x1 y1) <= scaled (SFsub prec emax x2 y2).
Proof.
  intros. eapply (nearest_q_mono 1 _ 1 _); [lia | lia | apply SFsub_nearest; assumption
    | apply SFsub_nearest; assumption | lia].
Qed.

Lemma SFadd_mono (x1 y1 x2 y2 : float32) :
  valid x1 -> valid y1 -> valid x2 -> valid y2 ->
  is_finite x1 = true -> is_finite y1 = true -> is_finite x2 = true -> is_finite y2 = true ->
  scaled x1 + scaled y1 <= scaled x2 + scaled y2 ->
  scaled (SFadd prec emax x1 y1) <= scaled (SFadd prec emax x2 y2).
Proof.
  intros. eapply (nearest_q_mono 1 _ 1 _); [lia | lia | apply SFadd_nearest; assumption
    | apply SFadd_nearest; assumption | lia].
Qed.

Lemma SFmul_mono (x1 y1 x2 y2 : float32) :
  valid x1 -> valid y1 -> valid x2 -> valid y2 ->
  is_finite x1 = true -> is_finite y1 = true -> is_finite x2 = true -> is_finite y2 = true ->
  scaled x1 * scaled y1 <= scaled x2 * scaled y2 ->
  scaled (SFmul prec emax x1 y1) <= scaled (SFmul prec emax x2 y2).
Proof.
  intros. assert (0 < 2 ^ 149) by (apply Z.pow_pos_nonneg; lia).
  eapply (nearest_q_mono (2 ^ 149) _ (2 ^ 149) _);
    [lia | lia | apply SFmul_nearest; assumption | apply SFmul_nearest; assumption|].
  apply Z.mul_le_mono_nonneg_r; lia.
Qed.

Lemma of_int_mono (a b : Z) : a <= b -> scaled (of_int a) <= scaled (of_int b).
Proof.
  intro H. assert (0 < 2 ^ 149) by (apply Z.pow_pos_nonneg; lia).
  eapply (nearest_q_mono 1 _ 1 _); [lia | lia | apply of_int_nearest | apply of_int_nearest|].
  rewrite !Z.mul_1_r. apply Z.mul_le_mono_nonneg_r; lia.
Qed.

(** ** qx_math.h in binary32: consequences of monotone rounding *)

(** X27: in binary32, for finite [min <= value <= max] with [min < max]
    whose difference [max - min] does not overflow, [qx_normalize_float]
    returns a value of [[0, 1]], whatever the rounding of the two
    subtractions and of the division. *)
Theorem X27_normalize_float_unit_interval :
  forall v mn mx : float32,
    valid v -> valid mn -> valid mx ->
    is_finite v = true -> is_finite mn = true -> is_finite mx = true ->
    is_finite (fsub mx mn) = true ->
    fle mn v = true -> fle v mx = true -> flt mn mx = true ->
    fle f0 (qx_normalize_float v mn mx) = true /\
    fle (qx_normalize_float v mn mx) f1 = true.
Proof.
  intros v mn mx Vv Vmn Vmx Fv Fmn Fmx Fd Hlo Hhi Hlt.
  pose proof (finite_not_nan _ Fv) as Nv. pose proof (finite_not_nan _ Fmn) as Nmn.
  pose proof (finite_not_nan _ Fmx) as Nmx.
  unfold qx_normalize_float. b32_ops.
  rewrite (SFleb_scaled mn v Vmn Vv Nmn Nv) in Hlo. apply Z.leb_le in Hlo.
  rewrite (SFleb_scaled v mx Vv Vmx Nv Nmx) in Hhi. apply Z.leb_le in Hhi.
  rewrite (SFltb_scaled mn mx Vmn Vmx Nmn Nmx) in Hlt. apply Z.ltb_lt in Hlt.
  pose proof (SFsub_mono v mn mx mn Vv Vmn Vmx Vmn Fv Fmn Fmx Fmn ltac:(lia)) as Mono.
  pose proof (SFsub_brackets v mn Vv Vmn Fv Fmn) as Ba.
  pose proof (SFsub_brackets mx mn Vmx Vmn Fmx Fmn) as Bd.
  destruct (brackets_sign _ _ Ba) as (Pa & _). specialize (Pa ltac:(lia)).
  destruct (brackets_sign _ _ Bd) as (_ & _ & Pd & _). specialize (Pd ltac:(lia)).
  destruct Ba as (Va & Na & _). destruct Bd as (Vd & Nd & _).
  set (a := SFsub prec emax v mn) in *. set (d := SFsub prec emax mx mn) in *.
  pose proof (finite_scaled_bound d Vd Fd) as Bnd.
  assert (Fa : is_finite a = true).
  { destruct (valid_not_nan_cases a Na) as [F|[s E]]; [exact F|].
    rewrite E in Mono, Pa. destruct s; cbn [scaled cond_Zopp] in Mono, Pa; lia. }
  pose proof (SFdiv_brackets a d Va Vd Fa Fd Pd) as (Vr & Nr & B).
  assert (P149 : 0 < 2 ^ 149) by (apply Z.pow_pos_nonneg; lia).
  split.
  - rewrite (SFleb_scaled _ _ valid_f0 Vr eq_refl Nr). apply Z.leb_le.
    apply (proj1 (B _ valid_f0 eq_refl)). rewrite scaled_f0.
    rewrite Z.mul_0_l. apply Z.mul_nonneg_nonneg; lia.
  - rewrite (SFleb_scaled _ _ Vr valid_f1 Nr eq_refl). apply Z.leb_le.
    apply (proj2 (B _ valid_f1 eq_refl)). rewrite scaled_f1.
    rewrite (Z.mul_comm (2 ^ 149)). apply Z.mul_le_mono_nonneg_r; lia.
Qed.

Lemma X27_normalize_float_unit_interval_witness :
  fle (f0 : float32) (qx_normalize_float (of_int 3 : float32) (of_int 2) (of_int 9)) = true /\
  fle (qx_normalize_float (of_int 3 : float32) (of_int 2) (of_int 9)) (f1 : float32) = true.
Proof.
  refine (X27_normalize_float_unit_interval (of_int 3 : float32) (of_int 2 : float32)
            (of_int 9 : float32) _ _ _ _ _ _ _ _ _ _); reflexivity.
Defined.

(** Adding to a finite [x] is monotone, overflowed summands included. *)
Lemma SFadd_mono_r (x p1 p2 : float32) :
  valid x -> valid p1 -> valid p2 -> is_finite x = true ->
  is_nan p1 = false -> is_nan p2 = false ->
  scaled p1 <= scaled p2 ->
  scaled (SFadd prec emax x p1) <= scaled (SFadd prec emax x p2).
Proof.
  intros Vx V1 V2 Fx N1 N2 H.
  assert (P277 : 0 < 2 ^ 277) by (apply Z.pow_pos_nonneg; lia).
  assert (Inf : forall s, SFadd prec emax x (S754_infinity s) = S754_infinity s).
  { intro s. destruct x; try discriminate; reflexivity. }
  pose proof (scaled_bound _ (SFadd_valid x p1 Vx V1)) as B1.
  pose proof (scaled_bound _ (SFadd_valid x p2 Vx V2)) as B2.
  destruct (valid_not_nan_cases p1 N1) as [F1|[s1 E1]];
    destruct (valid_not_nan_cases p2 N2) as [F2|[s2 E2]].
  - apply SFadd_mono; try assumption. lia.
  - pose proof (finite_scaled_bound p1 V1 F1) as Q1. subst p2. rewrite Inf.
    destruct s2; cbn [scaled cond_Zopp] in *; lia.
  - pose proof (finite_scaled_bound p2 V2 F2) as Q2. subst p1. rewrite Inf.
    destruct s1; cbn [scaled cond_Zopp] in *; lia.
  - subst p1 p2. rewrite !Inf. exact H.
Qed.

(** X28: in binary32, for finite [min <= max] whose difference does not
    overflow, [qx_denormalize_float] is monotone in its normalized
    argument: a larger finite [normalized] never gives a smaller result. *)
Theorem X28_denormalize_float_monotone :
  forall n1 n2 mn mx : float32,
    valid n1 -> valid n2 -> valid mn -> valid mx ->
    is_finite n1 = true -> is_finite n2 = true ->
    is_finite mn = true -> is_finite mx = true ->
    is_finite (fsub mx mn) = true ->
    fle mn mx = true -> fle n1 n2 = true ->
    fle (qx_denormalize_float n1 mn mx) (qx_denormalize_float n2 mn mx) = true.
Proof.
  intros n1 n2 mn mx V1 V2 Vmn Vmx F1 F2 Fmn Fmx Fd Hle Hn.
  unfold qx_denormalize_float. b32_ops.
  pose proof (SFleb_true_scaled mn mx Vmn Vmx Hle) as Smn.
  pose proof (SFleb_true_scaled n1 n2 V1 V2 Hn) as Sn.
  pose proof (SFsub_brackets mx mn Vmx Vmn Fmx Fmn) as Bd.
  destruct (brackets_sign _ _ Bd) as (Pd & _). specialize (Pd ltac:(lia)).
  destruct Bd as (Vd & Nd & _).
  set (d := SFsub prec emax mx mn) in *.
  pose proof (SFmul_valid n1 d V1 Vd) as Vp1. pose proof (SFmul_valid n2 d V2 Vd) as Vp2.
  pose proof (SFmul_finite_not_nan n1 d F1 Fd) as Np1.
  pose proof (SFmul_finite_not_nan n2 d F2 Fd) as Np2.
  pose proof (SFmul_mono n1 d n2 d V1 Vd V2 Vd F1 Fd F2 Fd
                ltac:(apply Z.mul_le_mono_nonneg_r; lia)) as Mp.
  rewrite (SFleb_scaled _ _ (SFadd_valid _ _ Vmn Vp1) (SFadd_valid _ _ Vmn Vp2)
             (SFadd_not_nan _ _ Fmn Np1) (SFadd_not_nan _ _ Fmn Np2)).
  apply Z.leb_le. apply SFadd_mono_r; assumption.
Qed.

Lemma X28_denormalize_float_monotone_witness :
  fle (qx_denormalize_float (ratio 1 4 : float32) (of_int 2) (of_int 6))
      (qx_denormalize_float (ratio 3 4 : float32) (of_int 2) (of_int 6)) = true.
Proof.
  refine (X28_denormalize_float_monotone (ratio 1 4 : float32) (ratio 3 4 : float32)
            (of_int 2 : float32) (of_int 6 : float32) _ _ _ _ _ _ _ _ _ _ _); reflexivity.
Defined.

Lemma to_int_range (x : float32) (i : Z) : to_int x = Some i -> INT_MIN <= i <= INT_MAX.
Proof.
  destruct x as [s|s| |s m e]; cbn [to_int]; intro H; try discriminate.
  - injection H as <-. unfold INT_MIN, INT_MAX. lia.
  - apply int_checked_some in H. destruct H as [-> R]. exact R.
Qed.

(** ** qx_randomizer.h: the top of the grid *)

(** X29: in binary32, for a finite [min] and a finite [resolution >= 0],
    a draw of the header randomizer never exceeds
    [min + max_steps * resolution], the top value of its grid, whatever
    the seed and the cached [inv_max_uint] are. *)
Theorem X29_header_draw_below_top :
  forall (rand rand' : RandomizerH.qx_randomizer (FO := binary32)) (v : float32),
    valid (RandomizerH.min rand) -> valid (RandomizerH.resolution rand) ->
    is_finite (RandomizerH.min rand) = true ->
    is_finite (RandomizerH.resolution rand) = true ->
    fle f0 (RandomizerH.resolution rand) = true ->
    RandomizerH.qx_randomizer_get_float rand = Some (rand', v) ->
    fle v (fadd (RandomizerH.min rand)
                (fmul (float_of_int (RandomizerH.max_steps rand))
                      (RandomizerH.resolution rand))) = true.
Proof.
  intros rand rand' v Vmin Vres Fmin Fres Pres H.
  unfold RandomizerH.qx_randomizer_get_float in H.
  destruct (int_add (RandomizerH.max_steps rand) 1) as [n|] eqn:En; [|discriminate].
  cbn [bind] in H.
  apply int_checked_some in En. destruct En as [En Rn].
  b32_ops.
  destruct (to_int _) as [step|] eqn:Eq; [|discriminate].
  cbn [bind] in H. injection H as _ Hv.
  pose proof (to_int_range _ _ Eq) as Rs.
  set (ms := RandomizerH.max_steps rand) in *.
  set (j := if ms <? step then ms else step) in *.
  assert (Hj : j <= ms) by (unfold j; destruct (Z.ltb_spec ms step); lia).
  assert (Rj : - 2 ^ 64 <= j <= 2 ^ 64).
  { unfold j, INT_MIN, INT_MAX in *. destruct (Z.ltb_spec ms step); lia. }
  assert (Rm : - 2 ^ 64 <= ms <= 2 ^ 64) by (unfold INT_MIN, INT_MAX in *; lia).
  pose proof (SFleb_true_scaled _ _ valid_f0 Vres Pres) as Sr. rewrite scaled_f0 in Sr.
  set (res := RandomizerH.resolution rand) in *.
  pose proof (of_int_mono j ms Hj) as Mj.
  pose proof (SFmul_mono (of_int j) res (of_int ms) res
                (valid_of_int j) Vres (valid_of_int ms) Vres
                (of_int_finite j Rj) Fres (of_int_finite ms Rm) Fres
                ltac:(apply Z.mul_le_mono_nonneg_r; lia)) as Mp.
  pose proof (SFmul_valid _ _ (valid_of_int j) Vres) as Vp1.
  pose proof (SFmul_valid _ _ (valid_of_int ms) Vres) as Vp2.
  pose proof (SFmul_finite_not_nan _ _ (of_int_finite j Rj) Fres) as Np1.
  pose proof (SFmul_finite_not_nan _ _ (of_int_finite ms Rm) Fres) as Np2.
  subst v.
  rewrite (SFleb_scaled _ _ (SFadd_valid _ _ Vmin Vp1) (SFadd_valid _ _ Vmin Vp2)
             (SFadd_not_nan _ _ Fmin Np1) (SFadd_not_nan _ _ Fmin Np2)).
  apply Z.leb_le. apply SFadd_mono_r; assumption.
Qed.

Lemma X29_header_draw_below_top_witness :
  fle (ratio 1 4 : float32)
      (fadd (of_int 0 : float32) (fmul (float_of_int 4) (ratio 1 4 : float32))) = true.
Proof.
  refine (X29_header_draw_below_top
            (RandomizerH.mk_randomizer (FO := binary32) 1 (of_int 0) (of_int 1)
               (ratio 1 4) (of_int 1) (fdiv f1 (float_of_int UINT32_MAX)) 4)
            (RandomizerH.mk_randomizer (FO := binary32) 1015568748 (of_int 0) (of_int 1)
               (ratio 1 4) (of_int 1) (fdiv f1 (float_of_int UINT32_MAX)) 4)
            (ratio 1 4 : float32) _ _ _ _ _ _); reflexivity.
Defined.

(** ** qx_wrapf in binary32: termination many periods away *)

(** The grid point just below a positive finite float is a float. *)
Lemma grid_pred (m : positive) (e : Z) :
  valid (S754_finite false m e) ->
  exists b : float32,
    valid b /\ is_nan b = false /\ scaled b = (Zpos m - 1) * 2 ^ (e + 149).
Proof.
  intro V. pose proof V as V0.
  unfold valid, valid_binary, bounded in V. apply andb_prop in V. destruct V as [C B].
  apply Z.leb_le in B. change (emax - prec) with 104 in B.
  destruct (canonical_facts m e C) as (He & Hm & Hn).
  destruct (Pos.eq_dec m 1) as [E1|E1].
  - subst m. exists (S754_zero false). split; [reflexivity|]. split; [reflexivity|].
    cbn [scaled]. lia.
  - assert (Hm1 : 1 < Zpos m) by lia.
    assert (Ep : Zpos (Pos.pred m) = Zpos m - 1) by (rewrite Pos2Z.inj_pred by assumption; lia).
    destruct (Z.eq_dec e (-149)) as [Ee|Ee].
    + (* subnormal range: every mantissa below 2^24 is canonical *)
      exists (S754_finite false (Pos.pred m) e). split; [|split; [reflexivity|]].
      * unfold valid, valid_binary, bounded. apply andb_true_intro. split.
        -- pose proof (digits2_bounds (Pos.pred m)) as [Dlo Dhi].
           set (d := Zpos (digits2_pos (Pos.pred m))) in *.
           assert (Hd : 0 < d) by (unfold d; lia).
           apply canonical_intro with (d := d); [split; assumption|].
           assert (d - 1 < 24).
           { apply (Z.pow_lt_mono_r_iff 2); [lia | lia | lia]. }
           lia.
        -- apply Z.leb_le. change (emax - prec) with 104. lia.
      * cbn [scaled cond_Zopp]. rewrite Ep. reflexivity.
    + specialize (Hn ltac:(lia)).
      destruct (Z.eq_dec (Zpos m) (2 ^ 23)) as [Eb|Eb].
      * (* bottom of a binade: the neighbour below has the finer spacing *)
        exists (S754_finite false 16777214 (e - 1)). split; [|split; [reflexivity|]].
        -- unfold valid, valid_binary, bounded. apply andb_true_intro. split.
           ++ apply canonical_intro with (d := 24); [cbn; lia | lia].
           ++ apply Z.leb_le. change (emax - prec) with 104. lia.
        -- cbn [scaled cond_Zopp]. rewrite Eb.
           replace (e + 149) with (1 + (e - 1 + 149)) by lia.
           rewrite (Z.pow_add_r 2 1 (e - 1 + 149)) by lia.
           change (2 ^ 1) with 2. change (2 ^ 23) with 8388608. lia.
      * exists (S754_finite false (Pos.pred m) e). split; [|split; [reflexivity|]].
        -- unfold valid, valid_binary, bounded. apply andb_true_intro. split.
           ++ apply canonical_intro with (d := 24); [|lia].
              rewrite Ep. change (2 ^ (24 - 1)) with 8388608.
              change (2 ^ 23) with 8388608 in *. change (2 ^ 24) with 16777216 in *. lia.
           ++ apply Z.leb_le. change (emax - prec) with 104. lia.
        -- cbn [scaled cond_Zopp]. rewrite Ep. reflexivity.
Qed.

(** Subtracting [M] from a float [x] below [2^24 * M] gives, rounded to
    nearest, a float below [x]: the subtraction is never absorbed. *)
Lemma nearest_below (x r : float32) (M : Z) :
  valid x -> is_finite x = true -> 0 < M -> 0 < scaled x < 2 ^ 24 * M ->
  nearest_q 1 (scaled x - M) r -> scaled r < scaled x.
Proof.
  intros Vx Fx HM [X0 X1] (Vr & Nr & H).
  destruct x as [s|s| |s m e]; try discriminate.
  pose proof (valid_finite_emin _ _ _ Vx) as He.
  assert (PG : 0 < 2 ^ (e + 149)) by (apply Z.pow_pos_nonneg; lia).
  destruct s; cbn [scaled cond_Zopp] in *; [lia|].
  destruct (canonical_facts m e (valid_canonical _ _ _ Vx)) as (_ & Hm & Hn).
  destruct (grid_pred m e Vx) as (b & Vb & Nb & Sb).
  destruct (H b Vb Nb) as [D _]. rewrite Sb in D.
  set (G := 2 ^ (e + 149)) in *.
  assert (HG : G < 2 * M).
  { destruct (Z.eq_dec e (-149)) as [Ee|Ee].
    - unfold G. rewrite Ee. change (2 ^ (-149 + 149)) with 1. lia.
    - specialize (Hn ltac:(lia)).
      apply (Z.mul_lt_mono_pos_l (2 ^ 23)); [lia|].
      apply Z.le_lt_trans with (Zpos m * G); [apply Z.mul_le_mono_nonneg_r; lia|].
      change (2 ^ 24) with (2 ^ 23 * 2) in X1. lia. }
  replace ((Zpos m - 1) * G) with (Zpos m * G - G) in D by ring.
  clearbody G. set (sx := Zpos m * G) in *. clearbody sx. lia.
Qed.

Lemma is_finite_opp (x : float32) : is_finite (SFopp x) = is_finite x.
Proof. destruct x; reflexivity. Qed.

Section Wrap32Far.

Variable max : float32.
Hypothesis max_valid : valid max.
Hypothesis max_finite : is_finite max = true.
Hypothesis max_pos : 0 < scaled max.

(** The second loop, from a value that is not negative: every pass takes
    [x] strictly down, so the loop ends, and it ends in [[0, max)]. *)
Lemma wrap32_down (n : nat) : forall x : float32,
  valid x -> is_finite x = true ->
  0 <= scaled x < 2 ^ 24 * scaled max -> scaled x <= Z.of_nat n ->
  exists (fuel : nat) (y : float32),
    wrap_down fuel x max = Some y /\ valid y /\ is_finite y = true /\
    0 <= scaled y < scaled max.
Proof.
  pose proof (finite_not_nan _ max_finite) as Nm.
  induction n as [|n IH]; intros x Vx Fx [X0 X1] Xn;
    pose proof (finite_not_nan _ Fx) as Nx;
    (destruct (Z.le_gt_cases (scaled max) (scaled x)) as [G|L];
     [| exists 1%nat, x; cbn [wrap_down]; unfold fge; b32_ops;
        rewrite (SFleb_scaled max x max_valid Vx Nm Nx);
        destruct (Z.leb_spec (scaled max) (scaled x)); [lia|];
        repeat split; try assumption; lia]).
  - lia.
  - pose proof (SFsub_brackets x max Vx max_valid Fx max_finite) as B.
    destruct (brackets_sign _ _ B) as (P & _). specialize (P ltac:(lia)).
    destruct B as (Vr & Nr & _).
    pose proof (nearest_below x _ (scaled max) Vx Fx max_pos ltac:(lia)
                  (SFsub_nearest x max Vx max_valid Fx max_finite)) as Lt.
    pose proof (scaled_bound x Vx) as Bx.
    set (r := SFsub prec emax x max) in *.
    assert (Fr : is_finite r = true) by (apply finite_of_scaled; [exact Nr | lia]).
    destruct (IH r Vr Fr ltac:(lia) ltac:(lia)) as (fuel & y & Hy & Vy & Fy & Ry).
    exists (S fuel), y. split; [|repeat split; try assumption; lia].
    cbn [wrap_down]. unfold fge. b32_ops.
    rewrite (SFleb_scaled max x max_valid Vx Nm Nx).
    destruct (Z.leb_spec (scaled max) (scaled x)); [exact Hy | lia].
Qed.

(** The first loop, from a negative value: every pass takes [x] strictly
    up and never beyond [max], so the loop ends. *)
Lemma wrap32_up (n : nat) : forall x : float32,
  valid x -> is_finite x = true ->
  - (2 ^ 24 * scaled max) < scaled x < 2 ^ 24 * scaled max -> - scaled x <= Z.of_nat n ->
  exists (fuel : nat) (y : float32),
    wrap_up fuel x max = Some y /\ valid y /\ is_finite y = true /\
    0 <= scaled y < 2 ^ 24 * scaled max.
Proof.
  pose proof (finite_not_nan _ max_finite) as Nm.
  pose proof (finite_scaled_bound max max_valid max_finite) as Bm.
  induction n as [|n IH]; intros x Vx Fx [X0 X1] Xn;
    pose proof (finite_not_nan _ Fx) as Nx;
    (destruct (Z.lt_ge_cases (scaled x) 0) as [L|G];
     [| exists 1%nat, x; cbn [wrap_up]; b32_ops;
        rewrite (SFltb_scaled x _ Vx valid_f0 Nx eq_refl), scaled_f0;
        destruct (Z.ltb_spec (scaled x) 0); [lia|];
        repeat split; try assumption; lia]).
  - lia.
  - pose proof (SFadd_brackets x max Vx max_valid Fx max_finite) as B.
    pose proof (brackets_le max (scaled x + scaled max) _ max_valid Nm ltac:(lia) B) as Up.
    destruct B as (Vr & Nr & _).
    pose proof (nearest_q_opp _ _ _ (SFadd_nearest x max Vx max_valid Fx max_finite)) as Near.
    replace (- (scaled x + scaled max)) with (scaled (SFopp x) - scaled max) in Near
      by (rewrite scaled_opp; ring).
    pose proof (nearest_below (SFopp x) _ (scaled max) (proj2 (valid_opp x) Vx)
                  ltac:(rewrite is_finite_opp; exact Fx) max_pos
                  ltac:(rewrite scaled_opp; lia) Near) as Lt.
    rewrite !scaled_opp in Lt.
    pose proof (scaled_bound x Vx) as Bx.
    set (r := SFadd prec emax x max) in *.
    assert (Fr : is_finite r = true) by (apply finite_of_scaled; [exact Nr | lia]).
    assert (P24 : scaled max < 2 ^ 24 * scaled max) by (change (2 ^ 24) with 16777216; lia).
    destruct (IH r Vr Fr ltac:(lia) ltac:(lia)) as (fuel & y & Hy & Vy & Fy & Ry).
    exists (S fuel), y. split; [|repeat split; try assumption; lia].
    cbn [wrap_up]. b32_ops.
    rewrite (SFltb_scaled x _ Vx valid_f0 Nx eq_refl), scaled_f0.
    destruct (Z.ltb_spec (scaled x) 0); [exact Hy | lia].
Qed.

Lemma wrap32_many_periods (x : float32) :
  valid x -> is_finite x = true -> Z.abs (scaled x) < 2 ^ 24 * scaled max ->
  exists (fuel : nat) (y : float32),
    qx_wrapf fuel x max = Some y /\ fle f0 y = true /\ flt y max = true.
Proof.
  intros Vx Fx Hx.
  pose proof (finite_not_nan _ max_finite) as Nm.
  destruct (wrap32_up (Z.to_nat (- scaled x)) x Vx Fx ltac:(lia) ltac:(lia))
    as (n & y & Hy & Vy & Fy & Ry).
  destruct (wrap32_down (Z.to_nat (scaled y)) y Vy Fy Ry ltac:(lia))
    as (m & z & Hz & Vz & Fz & Rz).
  exists (Nat.max n m), z. split; [exact (qx_wrapf_intro _ _ _ _ _ _ Hy Hz)|].
  pose proof (finite_not_nan _ Fz) as Nz. b32_ops.
  rewrite (SFleb_scaled _ z valid_f0 Vz eq_refl Nz), (SFltb_scaled z max Vz max_valid Nz Nm).
  rewrite scaled_f0. split; [apply Z.leb_le | apply Z.ltb_lt]; lia.
Qed.

End Wrap32Far.

(** C7, amended.  In binary32, for a finite [max > 0] and every finite [x]
    with [|x| < 2^24 * max], [qx_wrapf(x, max)] terminates and returns [y]
    with [0 <= y < max]: negative [x] and [x] many periods beyond [max]
    included.  In exact arithmetic it terminates for every [x], and [x - y]
    is an integer multiple of [max].  [wrap(-0.5, 1.0) = 0.5] and
    [wrap(1.5, 1.0) = 0.5]. *)
Theorem C7_wrapf :
  (forall x max : float32,
     valid x -> valid max -> is_finite x = true -> is_finite max = true ->
     flt f0 max = true -> Z.abs (scaled x) < 2 ^ 24 * scaled max ->
     exists (fuel : nat) (y : float32),
       qx_wrapf fuel x max = Some y /\ fle f0 y = true /\ flt y max = true) /\
  (forall x max : rational,
     (0 < max)%Q ->
     exists (fuel : nat) (y : rational) (k : Z),
       qx_wrapf fuel x max = Some y /\ (0 <= y < max)%Q /\ (x - y == inject_Z k * max)%Q) /\
  qx_wrapf (FO := binary32) 2 (ratio (-1) 2) (of_int 1) = Some (ratio 1 2) /\
  qx_wrapf (FO := binary32) 2 (ratio 3 2) (of_int 1) = Some (ratio 1 2).
Proof.
  split; [|split; [|split]].
  - intros x max Vx Vm Fx Fm Pm Hx. b32_ops.
    rewrite (SFltb_scaled _ max valid_f0 Vm eq_refl (finite_not_nan _ Fm)), scaled_f0 in Pm.
    apply Z.ltb_lt in Pm.
    apply wrap32_many_periods; assumption.
  - intros x max Hmax. apply exact_wrapf. exact Hmax.
  - vm_compute. reflexivity.
  - vm_compute. reflexivity.
Qed.

Lemma C7_wrapf_witness :
  (exists (fuel : nat) (y : float32),
     qx_wrapf fuel (ratio (-2469) 2 : float32) (of_int 1) = Some y /\
     fle f0 y = true /\ flt y (of_int 1 : float32) = true) /\
  (exists (fuel : nat) (y : rational) (k : Z),
     qx_wrapf (FO := exact) fuel (- (7 # 2))%Q (1 # 1)%Q = Some y /\ (0 <= y < 1 # 1)%Q /\
     (- (7 # 2) - y == inject_Z k * (1 # 1))%Q).
Proof.
  split.
  - refine (proj1 C7_wrapf (ratio (-2469) 2 : float32) (of_int 1 : float32) _ _ _ _ _ _);
      reflexivity.
  - refine (proj1 (proj2 C7_wrapf) (- (7 # 2))%Q (1 # 1)%Q _). reflexivity.
Defined.

Lemma wrap_up_stuck (x max : float32) :
  flt x f0 = true -> fadd x max = x -> forall fuel, wrap_up fuel x max = None.
Proof.
  intros L A fuel. induction fuel as [|n IH]; [reflexivity|].
  cbn [wrap_up]. rewrite L, A. exact IH.
Qed.

Lemma wrap_down_stuck (x max : float32) :
  flt x f0 = false -> fge x max = true -> fsub x max = x ->
  forall fuel, qx_wrapf fuel x max = None.
Proof.
  intros L G A fuel. unfold qx_wrapf.
  destruct fuel as [|n]; [reflexivity|].
  cbn [wrap_up]. rewrite L. cbn [bind].
  generalize (S n). intro k. induction k as [|k IH]; [reflexivity|].
  cbn [wrap_down]. rewrite G, A. exact IH.
Qed.

(** C7 fails as stated.  With [max = 0] and [x = -1] the first loop adds 0
    for ever.  In binary32 even a positive [max] can be absorbed:
    [-33554432.0 + 1.0] rounds back to [-33554432.0], and just beyond
    [2^24 * max], [16777220.0 - 1.0] rounds back to [16777220.0].  And
    where the loops do end, the difference need not be a multiple of
    [max]: [wrap(0.25, 0.1f)] subtracts [0.1f] twice, rounding once. *)
Lemma C7_counterexample :
  (forall fuel, qx_wrapf (FO := binary32) fuel (of_int (-1)) (of_int 0) = None) /\
  (forall fuel, qx_wrapf (FO := binary32) fuel (of_int (-33554432)) (of_int 1) = None) /\
  (forall fuel, qx_wrapf (FO := binary32) fuel (of_int 16777220) (of_int 1) = None) /\
  qx_wrapf (FO := binary32) 3 (ratio 1 4) (ratio 1 10)
  = Some (S754_finite false 13421774 (-28)) /\
  (scaled (ratio 1 4) - scaled (S754_finite false 13421774 (-28))) mod scaled (ratio 1 10) <> 0.
Proof.
  split; [|split; [|split; [|split]]].
  - intro fuel. unfold qx_wrapf.
    rewrite (wrap_up_stuck (of_int (-1)) (of_int 0)); [reflexivity| |];
      vm_compute; reflexivity.
  - intro fuel. unfold qx_wrapf.
    rewrite (wrap_up_stuck (of_int (-33554432)) (of_int 1)); [reflexivity| |];
      vm_compute; reflexivity.
  - apply wrap_down_stuck; vm_compute; reflexivity.
  - vm_compute. reflexivity.
  - vm_compute. discriminate.
Qed.
